(** * participle: the peeking lexer, the grammar nodes and the field binder

    A shallow embedding of the [PeekingLexer] of package [lexer] and of
    the parser's grammar nodes ([disjunction], [group], [sequence],
    [negation], [literal], [reference], [lookaheadGroup]) together with
    the field binder ([conform], [setField]).

    Conventions of the embedding:
    - Go's [int] cursors are [Z]; a cursor never exceeds the length of the
      token array, so no wrap-around occurs on them.
    - A runtime panic (index out of range, or an explicit [panic]) is the
      [Panic] outcome of the [result] type.
    - Mutation through a pointer receiver ([p *PeekingLexer],
      [ctx *parseContext]) is explicit state passing.
    - A Go slice that may be [nil] is an [option (list _)]: [None] is the
      nil slice, [Some []] the empty non-nil slice. *)

From Stdlib Require Import ZArith Lia Bool Ascii.
From stdpp Require Import base option list gmap strings.

Set Warnings "-register-all".
Local Open Scope Z_scope.

(** ** Outcomes *)

(** The outcome of a Go call that may panic. *)
Inductive result (A : Type) : Type :=
| Ok (a : A)
| Panic.
Arguments Ok {A} a.
Arguments Panic {A}.

#[global] Instance result_ret : MRet result := fun _ a => Ok a.

#[global] Instance result_bind : MBind result := fun _ _ k r =>
  match r with
  | Ok a => k a
  | Panic => Panic
  end.

(** ** Tokens *)

Definition TokenType := Z.

(** Modelled from the spec: the declaration of [lexer.Position] is not
    part of the file; a position is filename, byte offset, line, column. *)
Record Position : Type := mkPosition {
  Filename : string;
  Offset : Z;
  Line : Z;
  Column : Z
}.

(** Modelled from the spec: the declaration of [lexer.Token] is not part
    of the file; a token is a type tag, a string value and a position. *)
Record Token : Type := mkToken {
  Type_ : TokenType;
  Value : string;
  Pos : Position
}.

#[global] Instance Position_eq_dec : EqDecision Position.
Proof. solve_decision. Defined.

#[global] Instance Token_eq_dec : EqDecision Token.
Proof. solve_decision. Defined.

(** [RawCursor] is a Go [int]: an index in the token array. *)
Definition RawCursor := Z.

(** [Checkpoint]: the mutable state of the [PeekingLexer]. *)
Record Checkpoint : Type := mkCheckpoint {
  rawCursor : RawCursor;   (* raw position of the next possibly elided token *)
  nextCursor : RawCursor;  (* raw position of the next non-elided token *)
  cursor : Z               (* index of the next non-elided token among non-elided tokens *)
}.

#[global] Instance Checkpoint_eq_dec : EqDecision Checkpoint.
Proof. solve_decision. Defined.

(** [PeekingLexer]: the embedded [Checkpoint], the token array and the
    elision map. *)
Record PeekingLexer : Type := mkPeekingLexer {
  checkpoint : Checkpoint;
  tokens : list Token;
  elide : gmap TokenType bool
}.

(** [m[k]] on a Go [map[TokenType]bool]: a missing key reads as [false]. *)
Definition map_get (m : gmap TokenType bool) (k : TokenType) : bool :=
  default false (m !! k).

(** [s[i]] on a Go slice with an [int] index: out of range panics. *)
Definition index {A : Type} (s : list A) (i : Z) : result A :=
  if i <? 0 then Panic
  else match s !! Z.to_nat i with
       | Some a => Ok a
       | None => Panic
       end.

Definition with_checkpoint (p : PeekingLexer) (c : Checkpoint) : PeekingLexer :=
  mkPeekingLexer c (tokens p) (elide p).

Definition set_nextCursor (p : PeekingLexer) (i : RawCursor) : PeekingLexer :=
  with_checkpoint p (mkCheckpoint (rawCursor (checkpoint p)) i (cursor (checkpoint p))).

Section Participle.

(** [lexer.EOF], the type of the end-of-file token.  The constant is
    declared outside the file; it is a parameter of the development. *)
Variable EOF : TokenType.

(** Modelled from the spec: [Token.EOF()] is declared with the token,
    outside the file; it is true iff the type of the token equals EOF. *)
Definition Token_EOF (t : Token) : bool := Type_ t =? EOF.

(** *** The scanning loops

    Each loop reads [p.tokens[i]] for [i], [i+1], ... and either stops
    at a token or panics at the end of the array. They are written by
    recursion on the part of the array that starts at [i]. *)

(** [advanceToNonElided]: the loop body from index [i], [ts] being
    [p.tokens[i:]]. Returns the index at which the loop returns. *)
Fixpoint advance_from (el : gmap TokenType bool) (ts : list Token) (i : RawCursor)
  : result RawCursor :=
  match ts with
  | [] => Panic
  | t :: ts' =>
      if Token_EOF t || negb (map_get el (Type_ t)) then Ok i
      else advance_from el ts' (i + 1)
  end.

(** [p.tokens[i:]] for the loops: a negative [i] makes the first index
    panic, which is the empty remainder here. *)
Definition tokens_from (p : PeekingLexer) (i : RawCursor) : list Token :=
  if i <? 0 then [] else drop (Z.to_nat i) (tokens p).

(** [advanceToNonElided] advances nextCursor to the closest non-elided token. *)
Definition advanceToNonElided (p : PeekingLexer) : result PeekingLexer :=
  let n := nextCursor (checkpoint p) in
  i ← advance_from (elide p) (tokens_from p n) n;
  Ok (set_nextCursor p i).

(** [Next] consumes and returns the next token. *)
Definition Next (p : PeekingLexer) : result (Token * PeekingLexer) :=
  t ← index (tokens p) (nextCursor (checkpoint p));
  if Token_EOF t then Ok (t, p)
  else
    let n := nextCursor (checkpoint p) + 1 in
    let p1 := with_checkpoint p (mkCheckpoint n n (cursor (checkpoint p) + 1)) in
    p2 ← advanceToNonElided p1;
    Ok (t, p2).

(** [Peek] ahead at the next non-elided token. *)
Definition Peek (p : PeekingLexer) : result Token :=
  index (tokens p) (nextCursor (checkpoint p)).

(** [RawPeek] peeks ahead at the next raw token. *)
Definition RawPeek (p : PeekingLexer) : result Token :=
  index (tokens p) (rawCursor (checkpoint p)).

(** [PeekAny]: the loop body from index [i], [ts] being [p.tokens[i:]]. *)
Fixpoint peekAny_from (el : gmap TokenType bool) (match_ : Token -> bool)
  (ts : list Token) (i : RawCursor) : result (Token * RawCursor) :=
  match ts with
  | [] => Panic
  | t :: ts' =>
      if Token_EOF t || match_ t || negb (map_get el (Type_ t)) then Ok (t, i)
      else peekAny_from el match_ ts' (i + 1)
  end.

(** [PeekAny] peeks forward over elided and non-elided tokens. *)
Definition PeekAny (p : PeekingLexer) (match_ : Token -> bool)
  : result (Token * RawCursor) :=
  let r := rawCursor (checkpoint p) in
  peekAny_from (elide p) match_ (tokens_from p r) r.

(** [FastForward]: the [for] loop from [p.rawCursor = i] with non-elided
    count [c], [ts] being [p.tokens[i:]]. Returns the raw cursor and the
    count with which the loop is left. *)
Fixpoint fastForward_from (el : gmap TokenType bool) (target : RawCursor)
  (ts : list Token) (i : RawCursor) (c : Z) : result (RawCursor * Z) :=
  if target <? i then Ok (i, c)
  else
    match ts with
    | [] => Panic
    | t :: ts' =>
        if Token_EOF t then Ok (i, c)
        else fastForward_from el target ts' (i + 1)
               (if negb (map_get el (Type_ t)) then c + 1 else c)
    end.

(** [FastForward] the internal cursors to this RawCursor position. *)
Definition FastForward (p : PeekingLexer) (target : RawCursor) : result PeekingLexer :=
  let r := rawCursor (checkpoint p) in
  '(i, c) ← fastForward_from (elide p) target (tokens_from p r) r (cursor (checkpoint p));
  advanceToNonElided (with_checkpoint p (mkCheckpoint i i c)).

Definition MakeCheckpoint (p : PeekingLexer) : Checkpoint := checkpoint p.

Definition LoadCheckpoint (p : PeekingLexer) (c : Checkpoint) : PeekingLexer :=
  with_checkpoint p c.

(** [Range] returns the slice of tokens between the two cursor points:
    [p.tokens[rawStart:rawEnd]] panics unless
    [0 <= rawStart <= rawEnd <= cap]; the capacity is taken to be the length. *)
Definition Range (p : PeekingLexer) (rawStart rawEnd : RawCursor) : result (list Token) :=
  if (0 <=? rawStart) && (rawStart <=? rawEnd) && (rawEnd <=? Z.of_nat (length (tokens p)))
  then Ok (take (Z.to_nat (rawEnd - rawStart)) (drop (Z.to_nat rawStart) (tokens p)))
  else Panic.


(** ** Errors *)

(** The text of an error. The format strings of the source are kept as
    constructors, with their arguments. *)
Inductive Message : Type :=
| MsgText (s : string)
    (* the text of an error of user code or of the standard library *)
| MsgUnexpectedToken (unexpected : Token) (expect : option string)
    (* the message of an [UnexpectedTokenError] *)
| MsgCannotBeEmpty (g : string)
    (* "sub-expression %s cannot be empty" *)
| MsgTooManyIterations (g : string) (limit : Z)
    (* "too many iterations of %s (> %d)" *)
| MsgMustMatchAtLeastOnce (g : string)
    (* "sub-expression %s must match at least once" *)
| MsgNotCorrectType (v : string) (t : string)
    (* "value %q is not correct type %s" *)
| MsgUnsupportedFieldType (t : string) (field : string)
    (* "unsupported field type %s for field %s" *)
| MsgDecorated (name : string) (m : Message).
    (* "%s: %s" *)

(** Error values. [UnexpectedTokenError] and [ParseError] are the two
    errors of the package that carry a position; [GoError] is any other
    error value. *)
Inductive Error : Type :=
| UnexpectedTokenError (Unexpected : Token) (expectNode : option string)
| ParseError (Msg : Message) (ePos : Position)
| GoError (Msg : Message).

(** [Errorf(pos, format, args...)]. *)
Definition Errorf (pos : Position) (m : Message) : Error := ParseError m pos.

(** [Error.Message()] and [Error.Position()] of the errors of the package;
    for another error, its text. *)
Definition Error_Message (e : Error) : Message :=
  match e with
  | UnexpectedTokenError t n => MsgUnexpectedToken t n
  | ParseError m _ => m
  | GoError m => m
  end.

(** [decorate]: prefix the error, if any, with a name. *)
Definition decorate (err : option Error) (name : string) : option Error :=
  match err with
  | None => None
  | Some (UnexpectedTokenError t n) =>
      Some (Errorf (Pos t) (MsgDecorated name (MsgUnexpectedToken t n)))
  | Some (ParseError m pos) => Some (Errorf pos (MsgDecorated name m))
  | Some (GoError m) => Some (ParseError (MsgDecorated name m) (mkPosition "" 0 0 0))
  end.

(** ** Reflection: types and values *)

(** [reflect.Kind]. *)
Inductive Kind : Type :=
| Invalid | Bool | Int | Int8 | Int16 | Int32 | Int64
| Uint | Uint8 | Uint16 | Uint32 | Uint64 | Uintptr
| Float32 | Float64 | Complex64 | Complex128
| Array | Chan | Func | Interface | Map | Ptr | Slice | String | Struct
| UnsafePointer.

#[global] Instance Kind_eq_dec : EqDecision Kind.
Proof. solve_decision. Defined.

(** [reflect.Type]: a named (or predeclared) type with its kind, a
    pointer type or a slice type. Two types are the same Go type iff
    they are equal here. *)
Inductive rtype : Type :=
| Named (name : string) (kind : Kind)
| PtrTo (elem : rtype)
| SliceOf (elem : rtype).

#[global] Instance rtype_eq_dec : EqDecision rtype.
Proof. solve_decision. Defined.

(** [Type.Kind()]. *)
Definition Type_Kind (t : rtype) : Kind :=
  match t with
  | Named _ k => k
  | PtrTo _ => Ptr
  | SliceOf _ => Slice
  end.

(** [Type.String()]. *)
Fixpoint Type_String (t : rtype) : string :=
  match t with
  | Named n _ => n
  | PtrTo e => String.append "*" (Type_String e)
  | SliceOf e => String.append "[]" (Type_String e)
  end.

(** [Type.Name()]: empty for an unnamed type. *)
Definition Type_Name (t : rtype) : string :=
  match t with
  | Named n _ => n
  | _ => ""
  end.

(** [Type.Elem()]: panics unless the type has an element type. *)
Definition Type_Elem (t : rtype) : result rtype :=
  match t with
  | Named _ _ => Panic
  | PtrTo e => Ok e
  | SliceOf e => Ok e
  end.

Definition stringType : rtype := Named "string" String.
Definition boolType : rtype := Named "bool" Bool.
Definition tokenType : rtype := Named "lexer.Token" Struct.
Definition tokensType : rtype := SliceOf tokenType.

(** [reflect.Value]: a payload with its type. A pointer holds its
    pointee ([None] for nil); a slice may be nil. A float is carried as
    its IEEE-754 bit pattern. A record or a value of user code carries
    whether it is addressable: the record that a struct node allocates
    with [reflect.New] is, a value made by [reflect.ValueOf] is not. *)
Inductive rvalue : Type :=
| VBool (t : rtype) (b : bool)
| VInt (t : rtype) (n : Z)
| VUint (t : rtype) (n : Z)
| VFloat (t : rtype) (bits : Z)
| VString (t : rtype) (s : string)
| VStruct (t : rtype) (addressable : bool) (fields : list rvalue)
| VSlice (t : rtype) (elems : option (list rvalue))
| VPtr (t : rtype) (pointee : option rvalue)
| VToken (tok : Token)
| VTokens (toks : option (list Token))
| VOpaque (t : rtype) (addressable : bool) (id : Z).
    (* a value of user code the binder does not look into *)

(** [Value.Type()]. *)
Definition Value_Type (v : rvalue) : rtype :=
  match v with
  | VBool t _ | VInt t _ | VUint t _ | VFloat t _ | VString t _
  | VSlice t _ | VPtr t _ => t
  | VStruct t _ _ | VOpaque t _ _ => t
  | VToken _ => tokenType
  | VTokens _ => tokensType
  end.

(** [Value.Kind()]. *)
Definition Value_Kind (v : rvalue) : Kind := Type_Kind (Value_Type v).

(** [Value.CanAddr()]. *)
Definition Value_CanAddr (v : rvalue) : bool :=
  match v with
  | VStruct _ a _ | VOpaque _ a _ => a
  | _ => false
  end.

(** [reflect.ValueOf(s)] for a Go [string]. *)
Definition ValueOf_string (s : string) : rvalue := VString stringType s.

(** ** Go slices that may be nil *)

(** [append(out, v...)]: appending no element gives back [out], nil or not. *)
Definition go_append {A : Type} (out v : option (list A)) : option (list A) :=
  match out, v with
  | None, None => None
  | None, Some [] => None
  | None, Some l => Some l
  | Some o, None => Some o
  | Some o, Some l => Some (o ++ l)
  end.

(** [s == nil]. *)
Definition is_nil {A : Type} (s : option (list A)) : bool :=
  match s with
  | None => true
  | Some _ => false
  end.

(** [len(s)] as a Go [int]. *)
Definition go_len {A : Type} (s : option (list A)) : Z :=
  match s with
  | None => 0
  | Some l => Z.of_nat (length l)
  end.

(** ** The parse context *)

(** [structLexerField]: the field of a record that a capture fills. Of
    [reflect.StructField] the name and the index path are used. *)
Record structLexerField : Type := mkField {
  field_Name : string;
  field_Index : list nat
}.

(** Modelled from the spec: the parse context is declared outside the
    file. A deferred field assignment is the tokens, the target record,
    the field and the captured values. *)
Record contextFieldSet : Type := mkFieldSet {
  cfs_tokens : list Token;
  cfs_strct : rvalue;
  cfs_field : structLexerField;
  cfs_fieldValue : list rvalue
}.

(** Modelled from the spec: the parse context is declared outside the
    file. It carries the peeking lexer (embedded, so that the methods of
    the lexer are methods of the context), the deferred assignments of
    the current branch, the deepest-error record (error and non-elided
    cursor), the lookahead threshold and the case-insensitive types. *)
Record parseContext : Type := mkContext {
  lexer : PeekingLexer;
  apply : list contextFieldSet;
  deepestError : option Error;
  deepestErrorDepth : Z;
  lookahead : Z;
  caseInsensitive : gmap TokenType bool
}.

Definition with_lexer (ctx : parseContext) (p : PeekingLexer) : parseContext :=
  mkContext p (apply ctx) (deepestError ctx) (deepestErrorDepth ctx)
    (lookahead ctx) (caseInsensitive ctx).

(** [ctx.Cursor()], promoted from the embedded checkpoint. *)
Definition Cursor (ctx : parseContext) : Z := cursor (checkpoint (lexer ctx)).

(** Modelled from the spec: [Branch] is declared outside the file. The
    child has a copy of the cursor triple, an empty queue of deferred
    assignments and its own copy of the deepest-error record. *)
Definition Branch (ctx : parseContext) : parseContext :=
  mkContext (lexer ctx) [] (deepestError ctx) (deepestErrorDepth ctx)
    (lookahead ctx) (caseInsensitive ctx).

(** Modelled from the spec: [Accept] is declared outside the file. It
    copies the cursor of the branch into the parent, appends the deferred
    assignments of the branch to those of the parent, and takes over the
    deepest error of the branch if it exceeds that of the parent. *)
Definition Accept (ctx branch : parseContext) : parseContext :=
  let deeper := deepestErrorDepth ctx <? deepestErrorDepth branch in
  mkContext (lexer branch) (apply ctx ++ apply branch)
    (if deeper then deepestError branch else deepestError ctx)
    (if deeper then deepestErrorDepth branch else deepestErrorDepth ctx)
    (lookahead ctx) (caseInsensitive ctx).

(** Modelled from the spec: [Stop] is declared outside the file. An error
    in a branch is fatal iff the non-elided cursor of the branch is beyond
    the cursor of the parent plus the lookahead. *)
Definition Stop (ctx : parseContext) (err : Error) (branch : parseContext) : bool :=
  Cursor ctx + lookahead ctx <? Cursor branch.

(** Modelled from the spec: [MaybeUpdateError] is declared outside the
    file. The error is recorded as the deepest one iff the current
    non-elided cursor exceeds the stored deepest cursor. *)
Definition MaybeUpdateError (ctx : parseContext) (err : Error) : parseContext :=
  if deepestErrorDepth ctx <? Cursor ctx
  then mkContext (lexer ctx) (apply ctx) (Some err) (Cursor ctx)
         (lookahead ctx) (caseInsensitive ctx)
  else ctx.

(** Modelled from the spec: [Defer] is declared outside the file. It
    enqueues an assignment for when the enclosing struct commits. *)
Definition Defer (ctx : parseContext) (toks : list Token) (strct : rvalue)
  (field : structLexerField) (fieldValue : list rvalue) : parseContext :=
  mkContext (lexer ctx) (apply ctx ++ [mkFieldSet toks strct field fieldValue])
    (deepestError ctx) (deepestErrorDepth ctx) (lookahead ctx) (caseInsensitive ctx).

(** ** Grammar nodes *)

(** What a call of [Parse] returns with: the values ([None] when the node
    did not match), the error, and the context as the call leaves it. *)
Definition parsed : Type := (option (list rvalue) * option Error * parseContext)%type.

(** The [node] interface: [Parse] and [String]. The context is passed by
    pointer in the source and threaded here. Tracing ([printTrace]) has
    no bearing on what [Parse] returns and is left out. *)
Record node : Type := mkNode {
  Parse : parseContext -> rvalue -> result parsed;
  node_String : string
}.

(** *** literal: match a token literal exactly, ["..."[:<type>]] *)

Record literal : Type := mkLiteral {
  lit_s : string;
  lit_t : TokenType;
  lit_tt : string   (* used for display purposes: symbolic name of t *)
}.

(** [strings.EqualFold] of the standard library. *)
Variable EqualFold : string -> string -> bool.

(** The closure [match] of [literal.Parse]. *)
Definition literal_match (l : literal) (ctx : parseContext) (t : Token) : bool :=
  let equal :=
    if map_get (caseInsensitive ctx) (Type_ t)
    then String.eqb (lit_s l) "" || EqualFold (Value t) (lit_s l)
    else String.eqb (lit_s l) "" || String.eqb (Value t) (lit_s l) in
  ((lit_t l =? EOF) || (lit_t l =? Type_ t)) && equal.

Definition literal_Parse (l : literal) (ctx : parseContext) (parent : rvalue)
  : result parsed :=
  '(token, cur) ← PeekAny (lexer ctx) (literal_match l ctx);
  if literal_match l ctx token then
    p ← FastForward (lexer ctx) cur;
    Ok (Some [ValueOf_string (Value token)], None, with_lexer ctx p)
  else Ok (None, None, ctx).

(** *** reference: a named lexer token reference *)

Record reference : Type := mkReference {
  ref_typ : TokenType;
  ref_identifier : string   (* used for informational purposes *)
}.

Definition reference_Parse (r : reference) (ctx : parseContext) (parent : rvalue)
  : result parsed :=
  '(token, cur) ← PeekAny (lexer ctx) (fun t => Type_ t =? ref_typ r);
  if negb (Type_ token =? ref_typ r) then Ok (None, None, ctx)
  else
    p ← FastForward (lexer ctx) cur;
    Ok (Some [ValueOf_string (Value token)], None, with_lexer ctx p).

(** *** sequence: [<node> ...] *)

(** A cell of the linked chain; [seq_String] is its [String()]. *)
Inductive sequence : Type :=
| mkSequence (head : bool) (nd : node) (seq_String : string) (next : option sequence).

(** The loop of [sequence.Parse] from the cell [n]; [first] says whether
    [n == s]. *)
Fixpoint sequence_loop (n : sequence) (first : bool) (ctx : parseContext)
  (parent : rvalue) (out : option (list rvalue)) : result parsed :=
  match n with
  | mkSequence _ nd label next =>
      '(child, err, ctx1) ← Parse nd ctx parent;
      let out1 := go_append out child in
      match err with
      | Some e => Ok (out1, Some e, ctx1)
      | None =>
          match child with
          | None =>
              (* Early exit if first value doesn't match, otherwise all values must match. *)
              if first then Ok (None, None, ctx1)
              else
                token ← Peek (lexer ctx1);
                Ok (out1, Some (UnexpectedTokenError token (Some label)), ctx1)
          | Some _ =>
              (* an empty, non-nil child turns a nil [out] into an empty one *)
              let out2 := match out1 with None => Some [] | Some _ => out1 end in
              match next with
              | None => Ok (out2, None, ctx1)
              | Some n' => sequence_loop n' false ctx1 parent out2
              end
          end
      end
  end.

Definition sequence_Parse (s : sequence) (ctx : parseContext) (parent : rvalue)
  : result parsed :=
  sequence_loop s true ctx parent None.

(** *** lookaheadGroup: [(?= <expr> )] and [(?! <expr> )] *)

Record lookaheadGroup : Type := mkLookahead {
  la_expr : node;
  la_negative : bool
}.

Definition lookaheadGroup_Parse (l : lookaheadGroup) (ctx : parseContext)
  (parent : rvalue) : result parsed :=
  let branch := Branch ctx in
  '(out, err, _) ← Parse (la_expr l) branch parent;
  let matchedLookahead :=
    match err, out with
    | None, Some _ => true
    | _, _ => false
    end in
  let expectingMatch := negb (la_negative l) in
  if negb (Bool.eqb matchedLookahead expectingMatch) then
    t ← Peek (lexer ctx);
    Ok (None, Some (UnexpectedTokenError t None), ctx)
  else Ok (Some [], None, ctx).

(** *** group: [( <expr> )], [( <expr> )*], [( <expr> )+], [( <expr> )?], [( <expr> )!] *)

Inductive groupMatchMode : Type :=
| groupMatchOnce
| groupMatchZeroOrOne
| groupMatchZeroOrMore
| groupMatchOneOrMore
| groupMatchNonEmpty.

Record group : Type := mkGroup {
  g_expr : node;
  g_mode : groupMatchMode;
  g_String : string
}.

(** [MaxIterations] limits the number of elements capturable by [{}]; a
    package variable, one million unless the user sets it. *)
Variable MaxIterations : Z.

(** How the [for] loop of [group.Parse] is left: by the [return] inside
    it, or by its end or a [break], with the count of matches, the
    values and the context. *)
Inductive loopExit : Type :=
| LoopReturn (out : option (list rvalue)) (err : Error) (ctx : parseContext)
| LoopDone (matches : Z) (out : option (list rvalue)) (ctx : parseContext).

(** The loop [for ; matches < max; matches++]; [remaining] is
    [max - matches], the number of iterations the loop may still make. *)
Fixpoint group_loop (expr : node) (parent : rvalue) (remaining : nat)
  (ctx : parseContext) (out : option (list rvalue)) (matches : Z) : result loopExit :=
  match remaining with
  | O => Ok (LoopDone matches out ctx)
  | S remaining' =>
      let branch := Branch ctx in
      '(v, err, branch1) ← Parse expr branch parent;
      match err with
      | Some e =>
          let ctx1 := MaybeUpdateError ctx e in
          (* Optional part failed to match. *)
          if Stop ctx1 e branch1
          then Ok (LoopReturn (go_append out v) e ctx1)
          else Ok (LoopDone matches out ctx1)
      | None =>
          let out1 := go_append out v in
          let ctx1 := Accept ctx branch1 in
          match v with
          | None => Ok (LoopDone matches out1 ctx1)
          | Some _ => group_loop expr parent remaining' ctx1 out1 (matches + 1)
          end
      end
  end.

Definition group_min (m : groupMatchMode) : Z :=
  match m with
  | groupMatchZeroOrOne | groupMatchZeroOrMore => 0
  | _ => 1
  end.

Definition group_max (m : groupMatchMode) : Z :=
  match m with
  | groupMatchZeroOrMore | groupMatchOneOrMore => MaxIterations
  | _ => 1
  end.

Definition group_Parse (g : group) (ctx : parseContext) (parent : rvalue)
  : result parsed :=
  match g_mode g with
  | groupMatchNonEmpty =>
      '(out, err, ctx1) ← Parse (g_expr g) ctx parent;
      match err with
      | Some e => Ok (out, Some e, ctx1)
      | None =>
          if go_len out =? 0 then
            t ← Peek (lexer ctx1);
            Ok (out, Some (Errorf (Pos t) (MsgCannotBeEmpty (g_String g))), ctx1)
          else Ok (out, None, ctx1)
      end
  | groupMatchOnce => Parse (g_expr g) ctx parent
  | mode =>
      let min := group_min mode in
      let max := group_max mode in
      r ← group_loop (g_expr g) parent (Z.to_nat max) ctx None 0;
      match r with
      | LoopReturn out err ctx1 => Ok (out, Some err, ctx1)
      | LoopDone matches out ctx1 =>
          t ← Peek (lexer ctx1);
          if MaxIterations <=? matches then
            Ok (None,
                Some (Errorf (Pos t) (MsgTooManyIterations (g_String g) MaxIterations)),
                ctx1)
          else if matches <? min then
            Ok (out, Some (Errorf (Pos t) (MsgMustMatchAtLeastOnce (g_String g))), ctx1)
          else
            (* something like "a"? is a successful match and parsing should proceed *)
            if (min =? 0) && is_nil out then Ok (Some [], None, ctx1)
            else Ok (out, None, ctx1)
      end
  end.

(** *** disjunction: [<expr> {"|" <expr>}] *)

Record disjunction : Type := mkDisjunction {
  d_nodes : list node
}.

(** The loop over [d.nodes] with the variables [deepestError],
    [firstError], [firstValues], followed by the code after the loop. The
    two pointers [bt], [ct] point into the one token array, so they are
    equal iff the raw cursors are. *)
Fixpoint disjunction_loop (nodes : list node) (ctx : parseContext) (parent : rvalue)
  (deepest : Z) (firstError : option Error) (firstValues : option (list rvalue))
  : result parsed :=
  match nodes with
  | [] =>
      match firstError with
      | Some e => Ok (firstValues, Some e, MaybeUpdateError ctx e)
      | None => Ok (None, None, ctx)
      end
  | a :: rest =>
      let branch := Branch ctx in
      '(value, err, branch1) ← Parse a branch parent;
      match err with
      | Some e =>
          (* If this branch progressed too far and still didn't match, error out. *)
          if Stop ctx e branch1 then Ok (value, Some e, ctx)
          else if deepest <=? Cursor branch1
          then disjunction_loop rest ctx parent (Cursor branch1) (Some e) value
          else disjunction_loop rest ctx parent deepest firstError firstValues
      | None =>
          match value with
          | Some _ =>
              bt ← RawPeek (lexer branch1);
              ct ← RawPeek (lexer ctx);
              if (rawCursor (checkpoint (lexer branch1)) =? rawCursor (checkpoint (lexer ctx)))
                 && negb (Type_ bt =? EOF)
              then Panic
              else Ok (value, None, Accept ctx branch1)
          | None => disjunction_loop rest ctx parent deepest firstError firstValues
          end
      end
  end.

Definition disjunction_Parse (d : disjunction) (ctx : parseContext) (parent : rvalue)
  : result parsed :=
  disjunction_loop (d_nodes d) ctx parent 0 None None.

(** *** negation *)

Record negation : Type := mkNegation {
  neg_node : node
}.

Definition negation_Parse (n : negation) (ctx : parseContext) (parent : rvalue)
  : result parsed :=
  (* a branch, on which neither Stop nor Accept is called *)
  let branch := Branch ctx in
  notEOF ← Peek (lexer ctx);
  if Token_EOF notEOF then Ok (None, None, ctx)
  else
    '(out, err, _) ← Parse (neg_node n) branch parent;
    match out, err with
    | Some _, None => Ok (None, Some (UnexpectedTokenError notEOF None), ctx)
    | _, _ =>
        '(next, p) ← Next (lexer ctx);
        Ok (Some [ValueOf_string (Value next)], None, with_lexer ctx p)
    end.

(** *** capture: [@<expr>] *)

Record capture : Type := mkCapture {
  c_field : structLexerField;
  c_node : node
}.

Definition capture_Parse (c : capture) (ctx : parseContext) (parent : rvalue)
  : result parsed :=
  let start := rawCursor (checkpoint (lexer ctx)) in
  '(v, err, ctx1) ← Parse (c_node c) ctx parent;
  ctx2 ← match v with
         | Some vs =>
             toks ← Range (lexer ctx1) start (rawCursor (checkpoint (lexer ctx1)));
             Ok (Defer ctx1 toks parent (c_field c) vs)
         | None => Ok ctx1
         end;
  match err, v with
  | Some e, _ => Ok (Some [parent], Some e, ctx2)
  | None, None => Ok (None, None, ctx2)
  | None, Some _ => Ok (Some [parent], None, ctx2)
  end.

(** The grammar nodes as values of the [node] interface. *)
Definition literal_node (l : literal) (name : string) : node :=
  mkNode (literal_Parse l) name.
Definition reference_node (r : reference) (name : string) : node :=
  mkNode (reference_Parse r) name.
Definition sequence_node (s : sequence) (name : string) : node :=
  mkNode (sequence_Parse s) name.
Definition lookaheadGroup_node (l : lookaheadGroup) (name : string) : node :=
  mkNode (lookaheadGroup_Parse l) name.
Definition group_node (g : group) : node :=
  mkNode (group_Parse g) (g_String g).
Definition disjunction_node (d : disjunction) (name : string) : node :=
  mkNode (disjunction_Parse d) name.
Definition negation_node (n : negation) (name : string) : node :=
  mkNode (negation_Parse n) name.
Definition capture_node (c : capture) (name : string) : node :=
  mkNode (capture_Parse c) name.

(** ** Building a peeking lexer *)

(** The [Lexer] interface: [Next() (Token, error)], on a lexer whose
    state has type [L]. *)
Definition LexerNext (L : Type) : Type := L -> (Token + Error) * L.

(** The loop of [fillInPeekingLexer] that reads the lexer to its EOF
    token. It runs as long as the lexer produces tokens other than EOF;
    [fuel] bounds the number of calls of [Next], [None] is "more calls
    are needed". *)
Fixpoint fill_loop {L : Type} (next : LexerNext L) (fuel : nat) (lex : L)
  (toks : list Token) : option (list Token * option Error) :=
  match fuel with
  | O => None
  | S fuel' =>
      match next lex with
      | (inr err, _) => Some (toks, Some err)
      | (inl t, lex') =>
          let toks' := toks ++ [t] in
          if Token_EOF t then Some (toks', None)
          else fill_loop next fuel' lex' toks'
      end
  end.

Definition fillInPeekingLexer {L : Type} (next : LexerNext L) (fuel : nat) (lex : L)
  (r : PeekingLexer) (elided : list TokenType)
  : option (result (PeekingLexer * option Error)) :=
  let el := foldl (fun m rn => <[rn := true]> m) (elide r) elided in
  match fill_loop next fuel lex (tokens r) with
  | None => None
  | Some (toks, Some err) => Some (Ok (mkPeekingLexer (checkpoint r) toks el, Some err))
  | Some (toks, None) =>
      Some (r' ← advanceToNonElided (mkPeekingLexer (checkpoint r) toks el);
            Ok (r', None))
  end.

(** [Upgrade] a Lexer to a PeekingLexer with arbitrary lookahead. *)
Definition Upgrade {L : Type} (next : LexerNext L) (fuel : nat) (lex : L)
  (elided : list TokenType) : option (result (PeekingLexer * option Error)) :=
  fillInPeekingLexer next fuel lex (mkPeekingLexer (mkCheckpoint 0 0 0) [] ∅) elided.

(** [UpgradePooled]: [r] is the lexer taken from the pool. Its state is
    reset to empty: the zero checkpoint, the tokens cut to length 0, and
    every key of the elision map deleted in a loop over the map; then
    the lexer is filled. *)
Definition UpgradePooled {L : Type} (next : LexerNext L) (fuel : nat) (lex : L)
  (r : PeekingLexer) (elided : list TokenType)
  : option (result (PeekingLexer * option Error)) :=
  let r0 := mkPeekingLexer (mkCheckpoint 0 0 0) (take 0 (tokens r))
              (map_fold (fun k _ m => delete k m) (elide r) (elide r)) in
  fillInPeekingLexer next fuel lex r0 elided.

(** ** A client of the lexer *)

(** The operations of a client that loads only checkpoints that
    [MakeCheckpoint] returned to it on this lexer: [OpLoadCheckpoint k]
    loads the [k]-th of them. [LoadCheckpoint] itself assigns whatever
    checkpoint it is given, and a client can build the zero value
    [Checkpoint{}] without [MakeCheckpoint]; such a load is not an
    operation of this client. *)
Inductive op : Type :=
| OpNext
| OpPeek
| OpRawPeek
| OpPeekAny (match_ : Token -> bool)
| OpFastForward (target : RawCursor)
| OpMakeCheckpoint
| OpLoadCheckpoint (k : nat).

(** One operation, on the lexer and the checkpoints the client holds. *)
Definition run_op (st : PeekingLexer * list Checkpoint) (o : op)
  : result (PeekingLexer * list Checkpoint) :=
  let '(p, held) := st in
  match o with
  | OpNext => '(_, p') ← Next p; Ok (p', held)
  | OpPeek => _ ← Peek p; Ok (p, held)
  | OpRawPeek => _ ← RawPeek p; Ok (p, held)
  | OpPeekAny m => _ ← PeekAny p m; Ok (p, held)
  | OpFastForward target => p' ← FastForward p target; Ok (p', held)
  | OpMakeCheckpoint => Ok (p, held ++ [MakeCheckpoint p])
  | OpLoadCheckpoint k =>
      match held !! k with
      | Some c => Ok (LoadCheckpoint p c, held)
      | None => Ok (p, held)
      end
  end.

Fixpoint run_ops (st : PeekingLexer * list Checkpoint) (os : list op)
  : result (PeekingLexer * list Checkpoint) :=
  match os with
  | [] => Ok st
  | o :: os' => st' ← run_op st o; run_ops st' os'
  end.

(** ** The field binder *)

(** *** What the binder takes from outside the file *)

(** [strconv.IntSize], [strconv.ParseInt(s, base, bitSize)],
    [strconv.ParseUint] and [strconv.ParseFloat(s, bitSize)] of the
    standard library; a float is its bit pattern, and [float_succ k x]
    is [x + 1] as a field of kind [k] stores it. *)
Variable IntSize : Z.
Variable ParseInt : string -> Z -> Z -> Z + Error.
Variable ParseUint : string -> Z -> Z -> Z + Error.
Variable ParseFloat : string -> Z -> Z + Error.
Variable float_succ : Kind -> Z -> Z.

(** The declarations of user types: [zeroValue t] is
    [reflect.New(t).Elem()]; [convertOther v t] is [v.Convert(t)] between
    types of one composite kind; [implementsCapture t] and
    [implementsTextUnmarshaler t] say whether the method set of [t] has
    the hook; [Capture_method t] and [UnmarshalText_method t] are the
    hooks of [*t], which act on the value they point to. *)
Variable zeroValue : rtype -> rvalue.
Variable convertOther : rvalue -> rtype -> result rvalue.
Variable implementsCapture : rtype -> bool.
Variable implementsTextUnmarshaler : rtype -> bool.
Variable Capture_method : rtype -> rvalue -> list string -> rvalue * option Error.
Variable UnmarshalText_method : rtype -> rvalue -> string -> rvalue * option Error.

(** *** Reflection on values *)

(** [Value.String()]: the string of a value of kind String, and
    ["<T Value>"] for a value of another type [T]. *)
Definition Value_String (v : rvalue) : string :=
  match v with
  | VString _ s => s
  | _ => String.append "<" (String.append (Type_String (Value_Type v)) " Value>")
  end.

(** [v.Interface().(string)]: panics unless [v] is a Go [string]. *)
Definition Value_as_string (v : rvalue) : result string :=
  match v with
  | VString t s => if decide (t = stringType) then Ok s else Panic
  | _ => Panic
  end.

(** [Value.Addr()] of an addressable value. *)
Definition Value_Addr (v : rvalue) : rvalue := VPtr (PtrTo (Value_Type v)) (Some v).

(** [Value.Convert(t)]: between types of one scalar kind the payload is
    kept. *)
Definition Value_Convert (v : rvalue) (t : rtype) : result rvalue :=
  match v with
  | VBool _ b => Ok (VBool t b)
  | VInt _ n => Ok (VInt t n)
  | VUint _ n => Ok (VUint t n)
  | VFloat _ x => Ok (VFloat t x)
  | VString _ s => Ok (VString t s)
  | _ => convertOther v t
  end.

(** An [int64] that wraps around, and what [SetInt], [SetUint] keep of
    their argument in a field of [bits] bits. *)
Definition wrap_signed (bits : Z) (n : Z) : Z :=
  (n + 2 ^ (bits - 1)) mod 2 ^ bits - 2 ^ (bits - 1).

Definition wrap_unsigned (bits : Z) (n : Z) : Z := n mod 2 ^ bits.

(** [sizeOfKind]. *)
Definition sizeOfKind (kind : Kind) : result Z :=
  match kind with
  | Int8 | Uint8 => Ok 8
  | Int16 | Uint16 => Ok 16
  | Int32 | Uint32 | Float32 => Ok 32
  | Int64 | Uint64 | Float64 => Ok 64
  | Int | Uint => Ok IntSize
  | _ => Panic   (* panic("unsupported kind " + kind.String()) *)
  end.

Definition is_int_kind (k : Kind) : bool :=
  match k with
  | Int | Int8 | Int16 | Int32 | Int64 => true
  | _ => false
  end.

Definition is_uint_kind (k : Kind) : bool :=
  match k with
  | Uint | Uint8 | Uint16 | Uint32 | Uint64 => true
  | _ => false
  end.

Definition is_float_kind (k : Kind) : bool :=
  match k with
  | Float32 | Float64 => true
  | _ => false
  end.

(** The width of a signed or unsigned integer kind in memory. *)
Definition int_bits (k : Kind) : Z :=
  match k with
  | Int8 | Uint8 => 8
  | Int16 | Uint16 => 16
  | Int32 | Uint32 => 32
  | Int64 | Uint64 => 64
  | _ => IntSize
  end.

(** [v := reflect.New(t).Elem(); v.SetInt(n)], and the like. *)
Definition new_Int (t : rtype) (n : Z) : rvalue :=
  VInt t (wrap_signed (int_bits (Type_Kind t)) n).
Definition new_Uint (t : rtype) (n : Z) : rvalue :=
  VUint t (wrap_unsigned (int_bits (Type_Kind t)) n).
Definition new_Float (t : rtype) (x : Z) : rvalue := VFloat t x.

(** [Value.Int()], [Value.Uint()], [Value.Float()], [Value.Bool()]: they
    panic on a value of another kind. *)
Definition Value_Int (v : rvalue) : result Z :=
  match v with VInt _ n => Ok n | _ => Panic end.
Definition Value_Uint (v : rvalue) : result Z :=
  match v with VUint _ n => Ok n | _ => Panic end.
Definition Value_Float (v : rvalue) : result Z :=
  match v with VFloat _ x => Ok x | _ => Panic end.
Definition Value_Bool (v : rvalue) : result bool :=
  match v with VBool _ b => Ok b | _ => Panic end.

(** [f.Set(v)] and the like: the new value of [f]; setting a value that
    is not addressable panics. *)
Definition Value_Set (can_addr : bool) (v : rvalue) : result rvalue :=
  if can_addr then Ok v else Panic.

(** [reflect.Append(f, vs...)]. *)
Definition reflect_Append (f : rvalue) (vs : list rvalue) : result rvalue :=
  match f with
  | VSlice t elems => Ok (VSlice t (go_append elems (Some vs)))
  | _ => Panic
  end.

(** [Value.FieldByIndex(index)], through nested records. *)
Fixpoint FieldByIndex (v : rvalue) (idx : list nat) : result rvalue :=
  match idx with
  | [] => Ok v
  | i :: idx' =>
      match v with
      | VStruct _ _ fs =>
          match fs !! i with
          | Some f => FieldByIndex f idx'
          | None => Panic
          end
      | _ => Panic
      end
  end.

(** The record [v] with the field at [idx] replaced: what the record
    holds after the field, obtained by [FieldByIndex], has been set. *)
Fixpoint store_FieldByIndex (v : rvalue) (idx : list nat) (new : rvalue)
  : result rvalue :=
  match idx with
  | [] => Ok new
  | i :: idx' =>
      match v with
      | VStruct t a fs =>
          match fs !! i with
          | Some f =>
              f' ← store_FieldByIndex f idx' new;
              Ok (VStruct t a (<[i := f']> fs))
          | None => Panic
          end
      | _ => Panic
      end
  end.

(** *** conform: attempt to transform values to the given type *)

(** The loop of [conform] over [values], [out] being the values
    conformed so far. *)
Fixpoint conform_loop (t : rtype) (values : list rvalue) (out : list rvalue)
  : result (list rvalue * option Error) :=
  match values with
  | [] => Ok (out, None)
  | v :: rest =>
      let to_ptr :=
        negb (bool_decide (t = Value_Type v))
        && bool_decide (Type_Kind t = Ptr)
        && negb (bool_decide (Value_Kind v = Ptr)) in
      (* This can occur during partial failure. *)
      if to_ptr && negb (Value_CanAddr v) then Ok (out, None)
      else
        let v := if to_ptr then Value_Addr v else v in
        (* Already of the right kind, don't bother converting. *)
        if bool_decide (Value_Kind v = Type_Kind t) then
          v' ← (if bool_decide (Value_Type v = t) then Ok v else Value_Convert v t);
          conform_loop t rest (out ++ [v'])
        else
          let kind := Type_Kind t in
          if is_int_kind kind then
            bits ← sizeOfKind kind;
            match ParseInt (Value_String v) 0 bits with
            | inr err => Ok ([], Some err)
            | inl n => conform_loop t rest (out ++ [new_Int t n])
            end
          else if is_uint_kind kind then
            bits ← sizeOfKind kind;
            match ParseUint (Value_String v) 0 bits with
            | inr err => Ok ([], Some err)
            | inl n => conform_loop t rest (out ++ [new_Uint t n])
            end
          else if bool_decide (kind = Bool) then
            conform_loop t rest (out ++ [VBool boolType true])
          else if is_float_kind kind then
            bits ← sizeOfKind kind;
            match ParseFloat (Value_String v) bits with
            | inr err => Ok ([], Some err)
            | inl x => conform_loop t rest (out ++ [new_Float t x])
            end
          else conform_loop t rest (out ++ [v])
  end.

Definition conform (t : rtype) (values : list rvalue)
  : result (list rvalue * option Error) :=
  conform_loop t values [].

(** *** setField *)

(** [v.Interface().(string)] for each captured value, in order. *)
Fixpoint strings_of (vs : list rvalue) : result (list string) :=
  match vs with
  | [] => Ok []
  | v :: vs' => s ← Value_as_string v; ss ← strings_of vs'; Ok (s :: ss)
  end.

(** The loop that calls [UnmarshalText] once per captured value. *)
Fixpoint unmarshal_loop (t : rtype) (f : rvalue) (vs : list rvalue)
  : result (rvalue * option Error) :=
  match vs with
  | [] => Ok (f, None)
  | v :: vs' =>
      s ← Value_as_string v;
      match UnmarshalText_method t f s with
      | (f', Some err) => Ok (f', Some err)
      | (f', None) => unmarshal_loop t f' vs'
      end
  end.

(** The loop that captures each value into a new element of the slice
    [f]; [elemT] is the element type without its pointer, [ptr_elems]
    says whether the slice holds pointers. *)
Fixpoint capture_elems_loop (can_addr : bool) (elemT : rtype) (ptr_elems : bool)
  (f : rvalue) (vs : list rvalue) : result (rvalue * option Error) :=
  match vs with
  | [] => Ok (f, None)
  | v :: vs' =>
      s ← Value_as_string v;
      match Capture_method elemT (zeroValue elemT) [s] with
      | (_, Some err) => Ok (f, Some err)
      | (d, None) =>
          let eltValue := if ptr_elems then Value_Addr d else d in
          f1 ← reflect_Append f [eltValue];
          f2 ← Value_Set can_addr f1;
          capture_elems_loop can_addr elemT ptr_elems f2 vs'
      end
  end.

(** The last part of [setField], from ["Coalesce multiple tokens into
    one"] on: the field [f] is neither a slice nor a string. *)
Definition setField_scalar (can_addr : bool) (f : rvalue) (field : structLexerField)
  (fieldValue : list rvalue) : result (rvalue * option Error) :=
  let fieldValue :=
    if 1 <? Z.of_nat (length fieldValue)
    then [ValueOf_string (String.concat "" (map Value_String fieldValue))]
    else fieldValue in
  '(fieldValue, err) ← conform (Value_Type f) fieldValue;
  match err with
  | Some e => Ok (f, Some e)
  | None =>
      match fieldValue with
      | [] => Ok (f, None)   (* Nothing to capture, can happen when trying to get a partial parse tree *)
      | fv :: _ =>
          let k := Value_Kind f in
          (* Numeric types will increment if the token can not be coerced. *)
          if is_int_kind k then
            if bool_decide (Value_Type fv ≠ Value_Type f) then
              n ← Value_Int f;
              f' ← Value_Set can_addr
                     (VInt (Value_Type f) (wrap_signed (int_bits k) (wrap_signed 64 (n + 1))));
              Ok (f', None)
            else f' ← Value_Set can_addr fv; Ok (f', None)
          else if is_uint_kind k then
            if bool_decide (Value_Type fv ≠ Value_Type f) then
              n ← Value_Uint f;
              f' ← Value_Set can_addr
                     (VUint (Value_Type f) (wrap_unsigned (int_bits k) (wrap_unsigned 64 (n + 1))));
              Ok (f', None)
            else f' ← Value_Set can_addr fv; Ok (f', None)
          else if is_float_kind k then
            if bool_decide (Value_Type fv ≠ Value_Type f) then
              x ← Value_Float f;
              f' ← Value_Set can_addr (VFloat (Value_Type f) (float_succ k x));
              Ok (f', None)
            else f' ← Value_Set can_addr fv; Ok (f', None)
          else if bool_decide (k = Bool) || bool_decide (k = Struct)
                  || bool_decide (k = Interface) then
            if bool_decide (k = Bool) && bool_decide (Value_Kind fv = Bool) then
              b ← Value_Bool fv;
              f' ← Value_Set can_addr (VBool (Value_Type f) b);
              Ok (f', None)
            else if bool_decide (Value_Type fv ≠ Value_Type f) then
              Ok (f, Some (GoError (MsgNotCorrectType (Value_String fv)
                                      (Type_String (Value_Type f)))))
            else f' ← Value_Set can_addr fv; Ok (f', None)
          else
            Ok (f, Some (GoError (MsgUnsupportedFieldType (Type_String (Value_Type f))
                                    (field_Name field))))
      end
  end.

(** [setField] after the field has been fetched and its pointer
    hydrated: [f] is the value to set, [can_addr] is [f.CanAddr()].
    Returns the value of [f] and the error the function returns with. *)
Definition setField_value (toks : list Token) (can_addr : bool) (f : rvalue)
  (field : structLexerField) (fieldValue : list rvalue)
  : result (rvalue * option Error) :=
  if bool_decide (Value_Type f = tokenType) then
    t0 ← index toks 0;
    f' ← Value_Set can_addr (VToken t0);
    Ok (f', None)
  else if bool_decide (Value_Type f = tokensType) then
    f' ← Value_Set can_addr (VTokens (Some toks));
    Ok (f', None)
  else if can_addr && implementsCapture (PtrTo (Value_Type f)) then
    ifv ← strings_of fieldValue;
    Ok (Capture_method (Value_Type f) f ifv)
  else if can_addr && implementsTextUnmarshaler (PtrTo (Value_Type f)) then
    unmarshal_loop (Value_Type f) f fieldValue
  else if bool_decide (Value_Kind f = Slice) then
    sliceElemType ← Type_Elem (Value_Type f);
    if implementsCapture sliceElemType || implementsCapture (PtrTo sliceElemType) then
      let ptr_elems := bool_decide (Type_Kind sliceElemType = Ptr) in
      elemT ← (if ptr_elems then Type_Elem sliceElemType else Ok sliceElemType);
      capture_elems_loop can_addr elemT ptr_elems f fieldValue
    else
      '(fieldValue, err) ← conform sliceElemType fieldValue;
      match err with
      | Some e => Ok (f, Some e)
      | None =>
          f1 ← reflect_Append f fieldValue;
          f2 ← Value_Set can_addr f1;
          Ok (f2, None)
      end
  else if bool_decide (Value_Kind f = String) then
    (* Strings concatenate all captured tokens. *)
    '(fieldValue, err) ← conform (Value_Type f) fieldValue;
    match err with
    | Some e => Ok (f, Some e)
    | None =>
        if Z.of_nat (length fieldValue) =? 0 then Ok (f, None)
        else
          let accumulated :=
            foldl (fun acc v => String.append acc (Value_String v))
                  (Value_String f) fieldValue in
          f' ← Value_Set can_addr (VString (Value_Type f) accumulated);
          Ok (f', None)
    end
  else setField_scalar can_addr f field fieldValue.

(** [setField]: returns the record as the call leaves it, and the error. *)
Definition setField (toks : list Token) (strct : rvalue) (field : structLexerField)
  (fieldValue : list rvalue) : result (rvalue * option Error) :=
  let name := String.append (Type_Name (Value_Type strct))
                (String.append "." (field_Name field)) in
  f ← FieldByIndex strct (field_Index field);
  '(f', err) ←
    (* Any kind of pointer, hydrate it first. *)
    (if bool_decide (Value_Kind f = Ptr) then
       match f with
       | VPtr t pointee =>
           elemT ← Type_Elem t;
           fv ← match pointee with
                | None => _ ← Value_Set (Value_CanAddr strct) f; Ok (zeroValue elemT)
                | Some d => Ok d
                end;
           '(fv', err) ← setField_value toks true fv field fieldValue;
           Ok (VPtr t (Some fv'), err)
       | _ => Panic
       end
     else setField_value toks (Value_CanAddr strct) f field fieldValue);
  strct' ← store_FieldByIndex strct (field_Index field) f';
  Ok (strct', decorate err name).

(** ** Predicates on lexer states *)

(** The token array ends in an EOF token. *)
Definition ends_with_EOF (toks : list Token) : Prop :=
  ∃ ts t, toks = ts ++ [t] ∧ Token_EOF t = true.

(** Both raw cursors are indices of the token array. *)
Definition valid_cursors (p : PeekingLexer) : Prop :=
  0 <= rawCursor (checkpoint p) < Z.of_nat (length (tokens p))
  ∧ 0 <= nextCursor (checkpoint p) < Z.of_nat (length (tokens p)).

(** The cursor invariant of a checkpoint [c] on a token array with an
    elision map: [raw <= next], the tokens in [[raw, next)] are elided,
    and the token at [next] is EOF or not elided. *)
Definition cursor_inv (toks : list Token) (el : gmap TokenType bool) (c : Checkpoint)
  : Prop :=
  rawCursor c <= nextCursor c
  ∧ (∀ i, rawCursor c <= i < nextCursor c →
          ∃ t, index toks i = Ok t ∧ map_get el (Type_ t) = true)
  ∧ (∃ t, index toks (nextCursor c) = Ok t
          ∧ (Token_EOF t = true ∨ map_get el (Type_ t) = false)).

Definition lexer_inv (p : PeekingLexer) : Prop :=
  cursor_inv (tokens p) (elide p) (checkpoint p).

(** ** Predicates on the runs of a node *)


(** The iteration from [ctx] leaves the loop by [break] with the context
    [ctx']: the expression did not match, or failed with an error that
    [Stop] lets pass. *)
Definition iteration_breaks (expr : node) (parent : rvalue) (ctx ctx' : parseContext)
  : Prop :=
  (∃ b, Parse expr (Branch ctx) parent = Ok (None, None, b) ∧ ctx' = Accept ctx b)
  ∨ (∃ v e b, Parse expr (Branch ctx) parent = Ok (v, Some e, b)
              ∧ Stop (MaybeUpdateError ctx e) e b = false
              ∧ ctx' = MaybeUpdateError ctx e).

(** The alternative [a] of a disjunction, run on a branch of [ctx], does
    not match. *)
Definition alt_no_match (ctx : parseContext) (parent : rvalue) (a : node) : Prop :=
  ∃ b, Parse a (Branch ctx) parent = Ok (None, None, b).

(** The alternative fails with values [v] and error [e], leaving the
    branch [b], and [Stop] lets the error pass. *)
Definition alt_fails (ctx : parseContext) (parent : rvalue) (a : node)
  (v : option (list rvalue)) (e : Error) (b : parseContext) : Prop :=
  Parse a (Branch ctx) parent = Ok (v, Some e, b) ∧ Stop ctx e b = false.

(** The alternative is passed over: it does not match or fails
    recoverably. *)
Definition alt_skipped (ctx : parseContext) (parent : rvalue) (a : node) : Prop :=
  alt_no_match ctx parent a ∨ ∃ v e b, alt_fails ctx parent a v e b.


(** ** Inputs for the examples *)

(** A token of type [ty] with text [v] at byte offset [off] of one line. *)
Definition tok (ty : TokenType) (v : string) (off : Z) : Token :=
  mkToken ty v (mkPosition "" off 1 (off + 1)).

(** The EOF token at byte offset [off]. *)
Definition eof (off : Z) : Token := tok EOF "" off.

(** A lexer that yields the tokens of a list and then EOF tokens. *)
Definition list_lexer : LexerNext (list Token) := fun l =>
  match l with
  | t :: l' => (inl t, l')
  | [] => (inl (eof 0), [])
  end.

(** Token types of the examples: identifiers, whitespace, punctuation. *)
Definition Ident : TokenType := 1.
Definition Whitespace : TokenType := 2.
Definition Punct : TokenType := 3.

(** A lexer state on a token array, with whitespace elided. *)
Definition lexer_on (toks : list Token) (c : Checkpoint) : PeekingLexer :=
  mkPeekingLexer c toks {[ Whitespace := true ]}.

(** The value of a string of decimal digits. *)
Fixpoint digits_value (s : string) (acc : Z) : option Z :=
  match s with
  | EmptyString => Some acc
  | String.String c s' =>
      let d := Z.of_N (Ascii.N_of_ascii c) - 48 in
      if (0 <=? d) && (d <=? 9) then digits_value s' (10 * acc + d) else None
  end.

(** A stand-in for [strconv.ParseInt] in the examples: it reads a plain
    decimal numeral (digits only, no leading zero) that fits the bit
    size, as the library function does with base 0; any other string is
    an error here. *)
Definition ParseInt_dec (s : string) (base bits : Z) : Z + Error :=
  match s with
  | EmptyString => inr (GoError (MsgText "invalid syntax"))
  | String.String "0"%char (String.String _ _) => inr (GoError (MsgText "invalid syntax"))
  | _ =>
      match digits_value s 0 with
      | Some n =>
          if n <? 2 ^ (bits - 1) then inl n
          else inr (GoError (MsgText "value out of range"))
      | None => inr (GoError (MsgText "invalid syntax"))
      end
  end.

(** A record type [Flags] with one field [Count int], holding 5. *)
Definition intType : rtype := Named "int" Int.
Definition flagsType : rtype := Named "Flags" Struct.
Definition flags : rvalue := VStruct flagsType true [VInt intType 5].
Definition countField : structLexerField := mkField "Count" [0%nat].

(** A record type [Doc] with the fields [Name string], [Tags []string],
    [Nums []int], [On bool], [Tok lexer.Token], [Toks []lexer.Token],
    [Ref *int], [Sub Flags] and [Ch chan int], holding ["a"] in [Name]
    and zero values elsewhere. *)
Definition docType : rtype := Named "Doc" Struct.
Definition chanType : rtype := Named "chan int" Chan.
Definition doc : rvalue :=
  VStruct docType true
    [VString stringType "a"; VSlice (SliceOf stringType) None;
     VSlice (SliceOf intType) None; VBool boolType false;
     VToken (mkToken 0 "" (mkPosition "" 0 0 0)); VTokens None;
     VPtr (PtrTo intType) None; VStruct flagsType true [VInt intType 0];
     VOpaque chanType true 0].
Definition nameField : structLexerField := mkField "Name" [0%nat].
Definition tagsField : structLexerField := mkField "Tags" [1%nat].
Definition numsField : structLexerField := mkField "Nums" [2%nat].
Definition onField : structLexerField := mkField "On" [3%nat].
Definition tokField : structLexerField := mkField "Tok" [4%nat].
Definition toksField : structLexerField := mkField "Toks" [5%nat].
Definition refField : structLexerField := mkField "Ref" [6%nat].
Definition subField : structLexerField := mkField "Sub" [7%nat].
Definition chField : structLexerField := mkField "Ch" [8%nat].

(** A context on a lexer state, with nothing deferred, no error
    recorded, a lookahead of [la] tokens and no case-insensitive type. *)
Definition context_on (p : PeekingLexer) (la : Z) : parseContext :=
  mkContext p [] None 0 la ∅.

(** The grammar nodes of the examples: an untyped literal, a reference
    to identifiers, a sequence of two or of four nodes. *)
Definition lit (s : string) : node := literal_node (mkLiteral s EOF "") s.

Definition ident : node := reference_node (mkReference Ident "Ident") "Ident".



Definition toks_if_x : list Token :=
  [tok Ident "if" 0; tok Whitespace " " 2; tok Ident "x" 3; eof 4].
Definition toks_a_x : list Token := [tok Ident "a" 0; tok Ident "x" 1; eof 2].
Definition toks_aaaa : list Token :=
  [tok Ident "a" 0; tok Ident "a" 1; tok Ident "a" 2; tok Ident "a" 3; eof 4].
Definition toks_x_semi : list Token :=
  [tok Ident "x" 0; tok Whitespace " " 1; tok Punct ";" 2; eof 3].
Definition toks_empty : list Token := [eof 0].
Definition toks_blank_x : list Token :=
  [tok Whitespace " " 0; tok Ident "x" 1; eof 2].

(** The start of a token array. *)
Definition start : Checkpoint := mkCheckpoint 0 0 0.

(** The parent record of the examples; the nodes here do not look at it. *)
Definition no_parent : rvalue := VStruct (Named "" Struct) true [].

(** Stand-ins for what the binder takes from outside the file, for the
    examples: [strings.EqualFold] on ASCII letters, a parser of unsigned
    decimal numerals, no float parser, types without hooks, and the zero
    values of the types used. *)
Definition ascii_lower (c : ascii) : ascii :=
  let n := Ascii.N_of_ascii c in
  if ((65 <=? n) && (n <=? 90))%N then Ascii.ascii_of_N (n + 32) else c.

Fixpoint string_lower (s : string) : string :=
  match s with
  | EmptyString => EmptyString
  | String.String c s' => String.String (ascii_lower c) (string_lower s')
  end.

Definition EqualFold_ascii (a b : string) : bool :=
  String.eqb (string_lower a) (string_lower b).

Definition ParseUint_dec (s : string) (base bits : Z) : Z + Error :=
  match s with
  | EmptyString => inr (GoError (MsgText "invalid syntax"))
  | String.String "0"%char (String.String _ _) => inr (GoError (MsgText "invalid syntax"))
  | _ =>
      match digits_value s 0 with
      | Some n =>
          if n <? 2 ^ bits then inl n
          else inr (GoError (MsgText "value out of range"))
      | None => inr (GoError (MsgText "invalid syntax"))
      end
  end.

Definition ParseFloat_none (s : string) (bits : Z) : Z + Error :=
  inr (GoError (MsgText "invalid syntax")).

Definition float_succ_none (k : Kind) (x : Z) : Z := x.

Definition zeroValue_basic (t : rtype) : rvalue :=
  match t with
  | Named _ k =>
      if is_int_kind k then VInt t 0
      else if is_uint_kind k then VUint t 0
      else if is_float_kind k then VFloat t 0
      else if bool_decide (k = Bool) then VBool t false
      else if bool_decide (k = String) then VString t ""
      else VStruct t true []
  | PtrTo _ => VPtr t None
  | SliceOf _ => VSlice t None
  end.

Definition convertOther_none (v : rvalue) (t : rtype) : result rvalue := Panic.

Definition no_hook (t : rtype) : bool := false.

Definition Capture_none (t : rtype) (v : rvalue) (ss : list string)
  : rvalue * option Error := (v, None).

Definition UnmarshalText_none (t : rtype) (v : rvalue) (s : string)
  : rvalue * option Error := (v, None).

(** ** Further predicates on lexer states *)

(** The number of tokens of [ts] whose type is not elided. *)
Fixpoint non_elided_count (el : gmap TokenType bool) (ts : list Token) : Z :=
  match ts with
  | [] => 0
  | t :: ts' => (if map_get el (Type_ t) then 0 else 1) + non_elided_count el ts'
  end.

(** The token array ends in an EOF token and holds no other one. *)
Definition one_EOF (toks : list Token) : Prop :=
  ∃ ts t, toks = ts ++ [t] ∧ Token_EOF t = true
          ∧ Forall (λ t', Token_EOF t' = false) ts.

(** The count of non-elided tokens of a checkpoint is the number of
    tokens before its raw cursor whose type is not elided. *)
Definition count_inv (toks : list Token) (el : gmap TokenType bool) (c : Checkpoint)
  : Prop :=
  cursor c = non_elided_count el (take (Z.to_nat (rawCursor c)) toks).

(** What a client holds, with the counts: the lexer and the checkpoints
    satisfy [count_inv]. *)
Definition client_count_inv (st : PeekingLexer * list Checkpoint) : Prop :=
  count_inv (tokens st.1) (elide st.1) (checkpoint st.1)
  ∧ ∀ c, c ∈ st.2 → count_inv (tokens st.1) (elide st.1) c.

(** ** Further predicates on the runs of a node *)

(** The cells of a sequence, in order: each node with the [String()] of
    its cell. *)
Fixpoint sequence_cells (s : sequence) : list (node * string) :=
  match s with
  | mkSequence _ nd label next =>
      (nd, label) :: match next with
                     | None => []
                     | Some s' => sequence_cells s'
                     end
  end.

(** The nodes of [cells] run one after the other from the context [ctx]
    and every one matches (values not nil, no error): [vs] are the
    values before, [vs'] the values after, [ctx'] the context left. *)
Inductive chain_matches (parent : rvalue)
  : list (node * string) → parseContext → list rvalue
    → parseContext → list rvalue → Prop :=
| chain_nil ctx vs : chain_matches parent [] ctx vs ctx vs
| chain_cons nd label rest ctx vs v ctx1 ctx' vs' :
    Parse nd ctx parent = Ok (Some v, None, ctx1) →
    chain_matches parent rest ctx1 (vs ++ v) ctx' vs' →
    chain_matches parent ((nd, label) :: rest) ctx vs ctx' vs'.

(** A context whose lexer is on an array ending in EOF and satisfies the
    cursor invariant. *)
Definition ctx_ok (ctx : parseContext) : Prop :=
  ends_with_EOF (tokens (lexer ctx)) ∧ lexer_inv (lexer ctx).

(** From [ctx] to [ctx'] the tokens and the elision map are the same,
    neither the raw cursor nor the count of non-elided tokens has moved
    backward, and the cursor invariant holds in [ctx']. *)
Definition advances (ctx ctx' : parseContext) : Prop :=
  tokens (lexer ctx') = tokens (lexer ctx)
  ∧ elide (lexer ctx') = elide (lexer ctx)
  ∧ rawCursor (checkpoint (lexer ctx)) <= rawCursor (checkpoint (lexer ctx'))
  ∧ Cursor ctx <= Cursor ctx'
  ∧ lexer_inv (lexer ctx').

(** Whenever [Parse] of the node returns, from a context that is
    [ctx_ok], the context it leaves is one that [advances] from it. *)
Definition node_ok (n : node) : Prop :=
  ∀ ctx parent out err ctx',
    ctx_ok ctx → Parse n ctx parent = Ok (out, err, ctx') → advances ctx ctx'.

(** The captured values as the last part of [setField] hands them to
    [conform]: more than one value is coalesced into one string. *)
Definition coalesced (fieldValue : list rvalue) : list rvalue :=
  if 1 <? Z.of_nat (length fieldValue)
  then [ValueOf_string (String.concat "" (map Value_String fieldValue))]
  else fieldValue.

(** The captured strings parsed as numbers of the integer type [t], in
    order, up to the first that does not parse. *)
Fixpoint parse_ints (t : rtype) (ss : list string) : list rvalue + Error :=
  match ss with
  | [] => inl []
  | s :: ss' =>
      match ParseInt s 0 (int_bits (Type_Kind t)) with
      | inr e => inr e
      | inl n =>
          match parse_ints t ss' with
          | inl vs => inl (new_Int t n :: vs)
          | inr e => inr e
          end
      end
  end.

(** * Properties *)

(** ** Indexing and the scanning loops *)

Lemma index_Ok {A : Type} (s : list A) (i : Z) (a : A) :
  index s i = Ok a ↔ 0 <= i ∧ s !! Z.to_nat i = Some a.
Proof.
  unfold index. destruct (Z.ltb_spec i 0).
  - split; [discriminate | lia].
  - destruct (s !! Z.to_nat i) eqn:E; split.
    + intros [= ->]. done.
    + intros [_ [= ->]]. done.
    + discriminate.
    + intros [_ ?]. discriminate.
Qed.

Lemma index_in_bounds {A : Type} (s : list A) (i : Z) :
  0 <= i < Z.of_nat (length s) → ∃ a, index s i = Ok a.
Proof.
  intros H. destruct (lookup_lt_is_Some_2 s (Z.to_nat i)) as [a Ha]; [lia|].
  exists a. apply index_Ok. split; [lia | done].
Qed.

Lemma index_Ok_bounds {A : Type} (s : list A) (i : Z) (a : A) :
  index s i = Ok a → 0 <= i < Z.of_nat (length s).
Proof.
  intros [H0 H]%index_Ok. apply lookup_lt_Some in H. lia.
Qed.

Lemma tokens_from_lookup (p : PeekingLexer) (i : Z) (m : nat) (t : Token) :
  0 <= i → tokens_from p i !! m = Some t ↔ index (tokens p) (i + Z.of_nat m) = Ok t.
Proof.
  intros Hi. unfold tokens_from. destruct (Z.ltb_spec i 0); [lia|].
  rewrite lookup_drop, index_Ok.
  replace (Z.to_nat (i + Z.of_nat m)) with (Z.to_nat i + m)%nat by lia.
  split; [intros; split; [lia | done] | by intros [_ ?]].
Qed.

Lemma tokens_from_neg (p : PeekingLexer) (i : Z) : i < 0 → tokens_from p i = [].
Proof. intros. unfold tokens_from. by destruct (Z.ltb_spec i 0); [|lia]. Qed.

(** Where [advanceToNonElided] stops: after a run of elided tokens that
    are not EOF, at a token that is EOF or not elided. *)
Lemma advance_from_spec (el : gmap TokenType bool) (ts : list Token) (i j : Z) :
  advance_from el ts i = Ok j →
  ∃ n : nat,
    j = i + Z.of_nat n
    ∧ (∀ m t, (m < n)%nat → ts !! m = Some t →
              map_get el (Type_ t) = true ∧ Token_EOF t = false)
    ∧ (∃ t, ts !! n = Some t ∧ (Token_EOF t = true ∨ map_get el (Type_ t) = false)).
Proof.
  revert i. induction ts as [|t ts IH]; intros i H; simpl in H; [discriminate|].
  destruct (Token_EOF t || negb (map_get el (Type_ t))) eqn:E.
  - injection H as <-. exists 0%nat. split; [lia|]. split; [intros; lia|].
    exists t. split; [done|].
    apply orb_true_iff in E as [E|E]; [by left | right].
    by apply negb_true_iff in E.
  - apply orb_false_iff in E as [E1 E2]. apply negb_false_iff in E2.
    destruct (IH _ H) as (n & -> & Hrun & Hstop).
    exists (S n). split; [lia|]. split; [|done].
    intros [|m] t' Hm Ht'; simpl in Ht'.
    + by injection Ht' as <-.
    + apply (Hrun m); [lia | done].
Qed.

(** The loop does not run past an EOF token. *)
Lemma advance_from_total (el : gmap TokenType bool) (ts : list Token) (i : Z)
  (k : nat) (t : Token) :
  ts !! k = Some t → Token_EOF t = true →
  ∃ j, advance_from el ts i = Ok j ∧ i <= j <= i + Z.of_nat k.
Proof.
  revert i k. induction ts as [|t0 ts IH]; intros i k Hk He; [done|]. simpl.
  destruct (Token_EOF t0 || negb (map_get el (Type_ t0))) eqn:E.
  - exists i. split; [done | lia].
  - destruct k as [|k]; simpl in Hk.
    + injection Hk as ->. by rewrite He in E.
    + destruct (IH (i + 1) k Hk He) as (j & Hj & Hb). exists j. split; [done | lia].
Qed.

Lemma peekAny_from_total (el : gmap TokenType bool) (f : Token → bool)
  (ts : list Token) (i : Z) (k : nat) (t : Token) :
  ts !! k = Some t → Token_EOF t = true →
  ∃ t' (n : nat), peekAny_from el f ts i = Ok (t', i + Z.of_nat n)
                  ∧ (n <= k)%nat ∧ ts !! n = Some t'.
Proof.
  revert i k. induction ts as [|t0 ts IH]; intros i k Hk He; [done|]. simpl.
  destruct (Token_EOF t0 || f t0 || negb (map_get el (Type_ t0))) eqn:E.
  - exists t0, 0%nat. split; [f_equal; f_equal; lia|]. split; [lia | done].
  - destruct k as [|k]; simpl in Hk.
    + injection Hk as ->. by rewrite He in E.
    + destruct (IH (i + 1) k Hk He) as (t' & n & Hj & Hb & Hn).
      exists t', (S n). split; [rewrite Hj; f_equal; f_equal; lia|]. split; [lia | done].
Qed.

Lemma fastForward_from_total (el : gmap TokenType bool) (target : Z)
  (ts : list Token) (i c : Z) (k : nat) (t : Token) :
  ts !! k = Some t → Token_EOF t = true →
  ∃ j c', fastForward_from el target ts i c = Ok (j, c') ∧ i <= j <= i + Z.of_nat k.
Proof.
  revert i c k. induction ts as [|t0 ts IH]; intros i c k Hk He; [done|]. simpl.
  destruct (target <? i); [exists i, c; split; [done | lia]|].
  destruct (Token_EOF t0) eqn:E; [exists i, c; split; [done | lia]|].
  destruct k as [|k]; simpl in Hk.
  - injection Hk as ->. by rewrite He in E.
  - destruct (IH (i + 1) (if negb (map_get el (Type_ t0)) then c + 1 else c) k Hk He)
      as (j & c' & Hj & Hb).
    exists j, c'. split; [done | lia].
Qed.

Lemma ends_with_EOF_from (p : PeekingLexer) (i : Z) :
  ends_with_EOF (tokens p) → 0 <= i < Z.of_nat (length (tokens p)) →
  ∃ (k : nat) t, tokens_from p i !! k = Some t ∧ Token_EOF t = true
                 ∧ i + Z.of_nat k = Z.of_nat (length (tokens p)) - 1.
Proof.
  intros (ts & t & Hts & He) Hi.
  exists (length ts - Z.to_nat i)%nat, t.
  assert (Hlen : length (tokens p) = S (length ts)).
  { rewrite Hts, length_app. simpl. lia. }
  split; [|split; [done | lia]].
  apply tokens_from_lookup; [lia|]. apply index_Ok. split; [lia|].
  replace (Z.to_nat (i + Z.of_nat (length ts - Z.to_nat i))) with (length ts) by lia.
  rewrite Hts. by apply list_lookup_middle.
Qed.

(** [advanceToNonElided] on an array that ends in EOF, from a valid
    index: it returns, and where. *)
Lemma advanceToNonElided_spec (p : PeekingLexer) :
  ends_with_EOF (tokens p) →
  0 <= nextCursor (checkpoint p) < Z.of_nat (length (tokens p)) →
  ∃ j, advanceToNonElided p = Ok (set_nextCursor p j)
       ∧ nextCursor (checkpoint p) <= j < Z.of_nat (length (tokens p))
       ∧ (∀ i, nextCursor (checkpoint p) <= i < j →
               ∃ t, index (tokens p) i = Ok t
                    ∧ map_get (elide p) (Type_ t) = true ∧ Token_EOF t = false)
       ∧ (∃ t, index (tokens p) j = Ok t
               ∧ (Token_EOF t = true ∨ map_get (elide p) (Type_ t) = false)).
Proof.
  intros Hend Hn.
  destruct (ends_with_EOF_from p _ Hend Hn) as (k & t & Hk & He & Hlast).
  destruct (advance_from_total (elide p) _ (nextCursor (checkpoint p)) k t Hk He)
    as (j & Hj & Hb).
  exists j. unfold advanceToNonElided. simpl. rewrite Hj. simpl.
  split; [done|]. split; [lia|].
  destruct (advance_from_spec _ _ _ _ Hj) as (n & -> & Hrun & t' & Ht' & Hstop).
  split.
  - intros i Hi.
    set (m := Z.to_nat (i - nextCursor (checkpoint p))).
    destruct (lookup_lt_is_Some_2 (tokens_from p (nextCursor (checkpoint p))) m)
      as [ti Hti].
    { apply lookup_lt_Some in Ht'. lia. }
    destruct (Hrun m ti ltac:(lia) Hti) as [? ?].
    exists ti. split; [|done].
    apply tokens_from_lookup in Hti; [|lia].
    by replace (nextCursor (checkpoint p) + Z.of_nat m) with i in Hti by lia.
  - exists t'. split; [|done]. apply tokens_from_lookup in Ht'; [done | lia].
Qed.

Lemma ends_with_EOF_not_last (p : PeekingLexer) (i : Z) (t : Token) :
  ends_with_EOF (tokens p) → index (tokens p) i = Ok t → Token_EOF t = false →
  0 <= i + 1 < Z.of_nat (length (tokens p)).
Proof.
  intros (ts & t0 & Hts & He) Hi Hne.
  assert (Hlen : length (tokens p) = S (length ts)).
  { rewrite Hts, length_app. simpl. lia. }
  pose proof (index_Ok_bounds _ _ _ Hi) as Hb.
  apply index_Ok in Hi as [H0 Hi].
  destruct (decide (Z.to_nat i = length ts)) as [E|E]; [|lia].
  rewrite Hts, E, list_lookup_middle in Hi by done.
  injection Hi as ->. congruence.
Qed.

(** ** Next *)

(** What [Next] does on an array ending in EOF, [t] being the token at
    the next cursor. *)
Lemma Next_spec (p : PeekingLexer) (t : Token) :
  ends_with_EOF (tokens p) →
  Peek p = Ok t →
  (Token_EOF t = true →
     Next p = Ok (t, p) ∧ (∀ t' p', Next p = Ok (t', p') → Next p' = Ok (t, p)))
  ∧ (Token_EOF t = false →
     ∃ p', Next p = Ok (t, p')
       ∧ tokens p' = tokens p ∧ elide p' = elide p
       ∧ rawCursor (checkpoint p') = nextCursor (checkpoint p) + 1
       ∧ cursor (checkpoint p') = cursor (checkpoint p) + 1
       ∧ rawCursor (checkpoint p') <= nextCursor (checkpoint p')
       ∧ (∀ i, rawCursor (checkpoint p') <= i < nextCursor (checkpoint p') →
               ∃ ti, index (tokens p) i = Ok ti
                     ∧ map_get (elide p) (Type_ ti) = true ∧ Token_EOF ti = false)
       ∧ (∃ tn, Peek p' = Ok tn
                ∧ (Token_EOF tn = true ∨ map_get (elide p) (Type_ tn) = false))).
Proof.
  intros Hend Hpeek. unfold Peek in Hpeek. split; intros He.
  - assert (HN : Next p = Ok (t, p)).
    { unfold Next. rewrite Hpeek. simpl. by rewrite He. }
    split; [done|]. intros t' p' H. rewrite HN in H. by injection H as <- <-.
  - pose proof (ends_with_EOF_not_last p _ t Hend Hpeek He) as Hb.
    set (n := nextCursor (checkpoint p) + 1) in *.
    set (p1 := with_checkpoint p (mkCheckpoint n n (cursor (checkpoint p) + 1))).
    destruct (advanceToNonElided_spec p1 Hend Hb) as (j & Hadv & Hj & Hrun & Hstop).
    exists (set_nextCursor p1 j).
    split.
    { unfold Next. rewrite Hpeek. simpl. rewrite He. fold n. fold p1.
      by rewrite Hadv. }
    simpl. repeat split; try done; simpl in *; try lia.
Qed.

(** C4. [Next] on a lexer whose next cursor is an index of a token array
    that ends in EOF; [t] is the token at the next cursor, which is EOF
    or not elided when the lexer satisfies the cursor invariant. If [t]
    is EOF, [Next] returns it and leaves the lexer as it was (so calling
    it again does the same). Otherwise it returns [t]; in the lexer it
    leaves, the raw cursor is just past [t], the count of non-elided
    tokens is one more, the next cursor is at or after the raw cursor,
    every token between them is elided (and is not EOF), and the token
    at the next cursor is EOF or not elided. *)
Theorem Next_consumes_one_token (p : PeekingLexer) (t : Token) :
  ends_with_EOF (tokens p) →
  Peek p = Ok t →
  (lexer_inv p → Token_EOF t = true ∨ map_get (elide p) (Type_ t) = false)
  ∧ (Token_EOF t = true →
     Next p = Ok (t, p) ∧ (∀ t' p', Next p = Ok (t', p') → Next p' = Ok (t, p)))
  ∧ (Token_EOF t = false →
     ∃ p', Next p = Ok (t, p')
       ∧ tokens p' = tokens p ∧ elide p' = elide p
       ∧ rawCursor (checkpoint p') = nextCursor (checkpoint p) + 1
       ∧ cursor (checkpoint p') = cursor (checkpoint p) + 1
       ∧ rawCursor (checkpoint p') <= nextCursor (checkpoint p')
       ∧ (∀ i, rawCursor (checkpoint p') <= i < nextCursor (checkpoint p') →
               ∃ ti, index (tokens p) i = Ok ti
                     ∧ map_get (elide p) (Type_ ti) = true ∧ Token_EOF ti = false)
       ∧ (∃ tn, Peek p' = Ok tn
                ∧ (Token_EOF tn = true ∨ map_get (elide p) (Type_ tn) = false))).
Proof.
  intros Hend Hpeek. split; [|by apply Next_spec].
  intros (_ & _ & t' & Ht' & Hstop). unfold Peek in Hpeek.
  rewrite Hpeek in Ht'. by injection Ht' as <-.
Qed.

(** ** The cursor invariant *)

Lemma lexer_inv_valid (p : PeekingLexer) : lexer_inv p → valid_cursors p.
Proof.
  intros (Hle & Hrun & t & Ht & _). pose proof (index_Ok_bounds _ _ _ Ht) as Hb.
  split; [|done]. split; [|lia].
  destruct (decide (rawCursor (checkpoint p) = nextCursor (checkpoint p))) as [->|Hne];
    [lia|].
  destruct (Hrun (rawCursor (checkpoint p))) as (t' & Ht' & _); [lia|].
  apply index_Ok_bounds in Ht'. lia.
Qed.

(** [advanceToNonElided] with both raw cursors at one valid index
    establishes the invariant. *)
Lemma advanceToNonElided_inv (p : PeekingLexer) :
  ends_with_EOF (tokens p) →
  0 <= nextCursor (checkpoint p) < Z.of_nat (length (tokens p)) →
  rawCursor (checkpoint p) = nextCursor (checkpoint p) →
  ∃ p', advanceToNonElided p = Ok p'
        ∧ tokens p' = tokens p ∧ elide p' = elide p
        ∧ rawCursor (checkpoint p') = rawCursor (checkpoint p)
        ∧ cursor (checkpoint p') = cursor (checkpoint p)
        ∧ lexer_inv p'.
Proof.
  intros Hend Hn Hraw.
  destruct (advanceToNonElided_spec p Hend Hn) as (j & Hadv & Hj & Hrun & Hstop).
  exists (set_nextCursor p j). repeat split; try done; simpl; [lia|].
  intros i Hi. destruct (Hrun i) as (t & ? & ? & ?); [lia|]. by exists t.
Qed.

Lemma Next_inv (p : PeekingLexer) :
  ends_with_EOF (tokens p) → lexer_inv p →
  ∃ t p', Next p = Ok (t, p') ∧ tokens p' = tokens p ∧ elide p' = elide p
          ∧ lexer_inv p'.
Proof.
  intros Hend Hinv. pose proof Hinv as (_ & _ & t & Ht & _).
  destruct (Next_spec p t Hend Ht) as [Heof Hne].
  destruct (Token_EOF t) eqn:E.
  - destruct (Heof eq_refl) as [HN _]. by exists t, p.
  - pose proof (ends_with_EOF_not_last p _ t Hend Ht E) as Hb.
    set (n := nextCursor (checkpoint p) + 1) in *.
    set (p1 := with_checkpoint p (mkCheckpoint n n (cursor (checkpoint p) + 1))).
    destruct (advanceToNonElided_inv p1 Hend Hb eq_refl)
      as (p' & Hadv & Htok & Hel & _ & _ & Hinv').
    exists t, p'. split; [|done].
    unfold Next. rewrite Ht. simpl. rewrite E. fold n. fold p1. by rewrite Hadv.
Qed.

Lemma FastForward_inv (p : PeekingLexer) (target : RawCursor) :
  ends_with_EOF (tokens p) →
  0 <= rawCursor (checkpoint p) < Z.of_nat (length (tokens p)) →
  ∃ p', FastForward p target = Ok p' ∧ tokens p' = tokens p ∧ elide p' = elide p
        ∧ rawCursor (checkpoint p) <= rawCursor (checkpoint p')
        ∧ lexer_inv p'.
Proof.
  intros Hend Hraw.
  destruct (ends_with_EOF_from p _ Hend Hraw) as (k & t & Hk & He & Hlast).
  destruct (fastForward_from_total (elide p) target _ (rawCursor (checkpoint p))
              (cursor (checkpoint p)) k t Hk He) as (j & c' & Hff & Hj).
  set (p1 := with_checkpoint p (mkCheckpoint j j c')).
  destruct (advanceToNonElided_inv p1 Hend) as (p' & Hadv & Htok & Hel & Hr & _ & Hinv');
    [simpl; lia | done |].
  exists p'. unfold FastForward. simpl. rewrite Hff. simpl. fold p1.
  split; [done|]. split; [done|]. split; [done|]. split; [|done].
  rewrite Hr. simpl. lia.
Qed.

Lemma PeekAny_in_bounds (p : PeekingLexer) (f : Token → bool) :
  ends_with_EOF (tokens p) →
  0 <= rawCursor (checkpoint p) < Z.of_nat (length (tokens p)) →
  ∃ t i, PeekAny p f = Ok (t, i) ∧ index (tokens p) i = Ok t
         ∧ rawCursor (checkpoint p) <= i < Z.of_nat (length (tokens p)).
Proof.
  intros Hend Hraw.
  destruct (ends_with_EOF_from p _ Hend Hraw) as (k & t & Hk & He & Hlast).
  destruct (peekAny_from_total (elide p) f _ (rawCursor (checkpoint p)) k t Hk He)
    as (t' & n & Hpa & Hn & Ht').
  exists t', (rawCursor (checkpoint p) + Z.of_nat n). split; [done|].
  split; [by apply tokens_from_lookup; [lia|] | lia].
Qed.

(** What a client holds: a lexer on an array ending in EOF that
    satisfies the invariant, and checkpoints that satisfy it. *)
Definition client_inv (st : PeekingLexer * list Checkpoint) : Prop :=
  ends_with_EOF (tokens st.1) ∧ lexer_inv st.1
  ∧ ∀ c, c ∈ st.2 → cursor_inv (tokens st.1) (elide st.1) c.

Lemma run_op_inv (st : PeekingLexer * list Checkpoint) (o : op) :
  client_inv st →
  ∃ st', run_op st o = Ok st' ∧ tokens st'.1 = tokens st.1 ∧ elide st'.1 = elide st.1
         ∧ client_inv st'.
Proof.
  destruct st as [p held]. intros (Hend & Hinv & Hheld). simpl in *.
  pose proof (lexer_inv_valid p Hinv) as [Hraw Hnext].
  destruct o; simpl.
  - destruct (Next_inv p Hend Hinv) as (t & p' & -> & Htok & Hel & Hinv').
    exists (p', held). unfold client_inv. simpl. rewrite Htok, Hel. done.
  - destruct (index_in_bounds (tokens p) _ Hnext) as [t Ht].
    exists (p, held). unfold Peek. rewrite Ht. done.
  - destruct (index_in_bounds (tokens p) _ Hraw) as [t Ht].
    exists (p, held). unfold RawPeek. rewrite Ht. done.
  - destruct (PeekAny_in_bounds p match_ Hend Hraw) as (t & i & -> & _).
    exists (p, held). done.
  - destruct (FastForward_inv p target Hend Hraw) as (p' & -> & Htok & Hel & _ & Hinv').
    exists (p', held). unfold client_inv. simpl. rewrite Htok, Hel. done.
  - exists (p, held ++ [MakeCheckpoint p]). do 3 (split; [done|]).
    split; [done|]. split; [done|]. simpl.
    intros c [Hc|Hc]%elem_of_app; [by apply Hheld|].
    apply list_elem_of_singleton in Hc as ->. done.
  - destruct (held !! k) as [c|] eqn:Hk.
    + exists (LoadCheckpoint p c, held). do 3 (split; [done|]).
      split; [done|]. split; [|done].
      apply Hheld. by apply list_elem_of_lookup_2 in Hk.
    + exists (p, held). done.
Qed.

Lemma run_ops_inv (os : list op) (st : PeekingLexer * list Checkpoint) :
  client_inv st →
  ∃ st', run_ops st os = Ok st' ∧ tokens st'.1 = tokens st.1 ∧ elide st'.1 = elide st.1
         ∧ client_inv st'.
Proof.
  revert st. induction os as [|o os IH]; intros st Hst; simpl.
  - by exists st.
  - destruct (run_op_inv st o Hst) as (st1 & -> & Htok & Hel & Hst1). simpl.
    destruct (IH st1 Hst1) as (st' & -> & Htok' & Hel' & Hst').
    exists st'. split; [done|]. split; [by rewrite Htok'|].
    split; [by rewrite Hel' | done].
Qed.

Lemma fill_loop_ends_with_EOF {L : Type} (next : LexerNext L) (fuel : nat) (lex : L)
  (toks toks' : list Token) :
  fill_loop next fuel lex toks = Some (toks', None) → ends_with_EOF toks'.
Proof.
  revert lex toks. induction fuel as [|fuel IH]; intros lex toks H; simpl in H;
    [discriminate|].
  destruct (next lex) as [[t|err] lex']; [|discriminate].
  destruct (Token_EOF t) eqn:E.
  - injection H as <-. by exists toks, t.
  - by apply IH in H.
Qed.

(** A lexer that [Upgrade] returns without error is on an array that
    ends in EOF and satisfies the cursor invariant. *)
Lemma Upgrade_inv {L : Type} (next : LexerNext L) (fuel : nat) (lex : L)
  (elided : list TokenType) (r : PeekingLexer) :
  Upgrade next fuel lex elided = Some (Ok (r, None)) → client_inv (r, []).
Proof.
  unfold Upgrade, fillInPeekingLexer. simpl.
  destruct (fill_loop next fuel lex []) as [[toks [err|]]|] eqn:Hfill; try discriminate.
  apply fill_loop_ends_with_EOF in Hfill.
  set (p0 := mkPeekingLexer _ toks _).
  intros H.
  destruct (advanceToNonElided_inv p0 Hfill) as (p' & Hadv & Htok & Hel & _ & _ & Hinv).
  { simpl. destruct Hfill as (ts & t & -> & _). rewrite length_app. simpl. lia. }
  { done. }
  rewrite Hadv in H. simpl in H. injection H as <-.
  unfold client_inv. simpl.
  split; [by rewrite Htok|]. split; [done|]. intros c Hc. by apply elem_of_nil in Hc.
Qed.

(** C5 (as amended). After [Upgrade] has built a lexer from a lexer that
    reached its EOF token, every sequence of [Next], [Peek], [RawPeek],
    [PeekAny], [FastForward], [MakeCheckpoint] and [LoadCheckpoint]
    operations, the checkpoints loaded being checkpoints that
    [MakeCheckpoint] returned earlier in the sequence, runs without
    panic and leaves a lexer, on the same
    tokens and elision map, in which [rawCursor <= nextCursor], every
    token in [[rawCursor, nextCursor)] has an elided type and the token
    at [nextCursor] is EOF or not elided; so the token that [Peek]
    returns is the EOF token or has a type outside the elision map. *)
Theorem cursor_invariant_preserved {L : Type} (next : LexerNext L) (fuel : nat)
  (lex : L) (elided : list TokenType) (r : PeekingLexer) (os : list op) :
  Upgrade next fuel lex elided = Some (Ok (r, None)) →
  ∃ p' held',
    run_ops (r, []) os = Ok (p', held')
    ∧ tokens p' = tokens r ∧ elide p' = elide r
    ∧ rawCursor (checkpoint p') <= nextCursor (checkpoint p')
    ∧ (∀ i, rawCursor (checkpoint p') <= i < nextCursor (checkpoint p') →
            ∃ t, index (tokens p') i = Ok t ∧ map_get (elide p') (Type_ t) = true)
    ∧ (∃ t, index (tokens p') (nextCursor (checkpoint p')) = Ok t
            ∧ (Token_EOF t = true ∨ map_get (elide p') (Type_ t) = false))
    ∧ (∃ t, Peek p' = Ok t
            ∧ (Token_EOF t = true ∨ map_get (elide p') (Type_ t) = false))
    ∧ (∃ t, RawPeek p' = Ok t).
Proof.
  intros HU. apply Upgrade_inv in HU.
  destruct (run_ops_inv os _ HU) as ([p' held'] & Hrun & Htok & Hel & Hend & Hinv & _).
  simpl in *. exists p', held'.
  pose proof (lexer_inv_valid p' Hinv) as [Hraw _].
  destruct Hinv as (Hle & Hrun' & Hstop).
  do 6 (split; [done|]). split; [done|]. by apply index_in_bounds.
Qed.

(** ** Checkpoints *)

Lemma advanceToNonElided_frame (p p' : PeekingLexer) :
  advanceToNonElided p = Ok p' → tokens p' = tokens p ∧ elide p' = elide p.
Proof.
  unfold advanceToNonElided.
  destruct (advance_from _ _ _); simpl; [|discriminate]. by intros [= <-].
Qed.

Lemma run_op_frame (st st' : PeekingLexer * list Checkpoint) (o : op) :
  run_op st o = Ok st' → tokens st'.1 = tokens st.1 ∧ elide st'.1 = elide st.1.
Proof.
  destruct st as [p held]. destruct o; simpl.
  - unfold Next. destruct (index _ _) as [t|]; simpl; [|discriminate].
    destruct (Token_EOF t); simpl; [by intros [= <-]|].
    destruct (advanceToNonElided _) as [p2|] eqn:E; simpl; [|discriminate].
    intros [= <-]. by apply advanceToNonElided_frame in E.
  - destruct (Peek p); simpl; [by intros [= <-] | discriminate].
  - destruct (RawPeek p); simpl; [by intros [= <-] | discriminate].
  - destruct (PeekAny p match_); simpl; [by intros [= <-] | discriminate].
  - unfold FastForward. destruct (fastForward_from _ _ _ _ _) as [[i c]|]; simpl;
      [|discriminate].
    destruct (advanceToNonElided _) as [p2|] eqn:E; simpl; [|discriminate].
    intros [= <-]. by apply advanceToNonElided_frame in E.
  - by intros [= <-].
  - destruct (held !! k); by intros [= <-].
Qed.

Lemma run_ops_frame (os : list op) (st st' : PeekingLexer * list Checkpoint) :
  run_ops st os = Ok st' → tokens st'.1 = tokens st.1 ∧ elide st'.1 = elide st.1.
Proof.
  revert st. induction os as [|o os IH]; intros st; simpl.
  - by intros [= <-].
  - destruct (run_op st o) as [st1|] eqn:E; simpl; [|discriminate].
    intros H. apply IH in H as [-> ->]. by apply run_op_frame in E.
Qed.

(** C8. [MakeCheckpoint] leaves the lexer as it is, loading the
    checkpoint it returns is the identity on the lexer, and after any
    operations in between, loading a checkpoint restores the lexer in
    which the checkpoint was made: the cursors are those of the
    checkpoint, tokens and elision map are as before. *)
Theorem LoadCheckpoint_restores (p p' : PeekingLexer) (held held' : list Checkpoint)
  (os : list op) :
  run_ops (p, held) os = Ok (p', held') →
  run_op (p, held) OpMakeCheckpoint = Ok (p, held ++ [MakeCheckpoint p])
  ∧ LoadCheckpoint p (MakeCheckpoint p) = p
  ∧ LoadCheckpoint p' (MakeCheckpoint p) = p
  ∧ (∀ c, MakeCheckpoint (LoadCheckpoint p' c) = c).
Proof.
  intros H. apply run_ops_frame in H as [Htok Hel]. simpl in *.
  split; [done|]. split; [by destruct p|]. split; [|done].
  unfold LoadCheckpoint, MakeCheckpoint, with_checkpoint. rewrite Htok, Hel.
  by destruct p.
Qed.

(** ** The scanning loops stay inside the token array *)

(** C9. On a token array whose last element is an EOF token, whatever
    the elision map (it may contain the type of EOF), with both raw
    cursors at indices of the array: [Peek], [RawPeek], [Next],
    [PeekAny], [FastForward] and [advanceToNonElided] return without
    panic, the index [PeekAny] returns is an index of the array, and the
    cursors are indices of the array afterwards. *)
Theorem scans_stop_at_EOF (p : PeekingLexer) :
  ends_with_EOF (tokens p) → valid_cursors p →
  (∃ t, Peek p = Ok t)
  ∧ (∃ t, RawPeek p = Ok t)
  ∧ (∃ p', advanceToNonElided p = Ok p' ∧ valid_cursors p')
  ∧ (∃ t p', Next p = Ok (t, p') ∧ valid_cursors p')
  ∧ (∀ f, ∃ t i, PeekAny p f = Ok (t, i) ∧ index (tokens p) i = Ok t
                 ∧ rawCursor (checkpoint p) <= i <= Z.of_nat (length (tokens p)) - 1)
  ∧ (∀ target, ∃ p', FastForward p target = Ok p' ∧ valid_cursors p').
Proof.
  intros Hend [Hraw Hnext].
  destruct (index_in_bounds (tokens p) _ Hnext) as [t Ht].
  split; [by exists t|]. split; [by apply index_in_bounds|]. split; [|split; [|split]].
  - destruct (advanceToNonElided_spec p Hend Hnext) as (j & -> & Hj & _).
    eexists. split; [done|]. split; simpl; lia.
  - destruct (Next_spec p t Hend Ht) as [Heof Hne].
    destruct (Token_EOF t) eqn:E.
    + destruct (Heof eq_refl) as [-> _]. by exists t, p.
    + destruct (Hne eq_refl) as (p' & -> & Htok & _ & Hr & _ & Hle & _ & tn & Hpeek & _).
      exists t, p'. split; [done|].
      apply index_Ok_bounds in Hpeek. unfold valid_cursors. rewrite Htok in *. lia.
  - intros f. destruct (PeekAny_in_bounds p f Hend Hraw) as (t' & i & -> & Hi & Hb).
    exists t', i. split; [done|]. split; [done | lia].
  - intros target.
    destruct (FastForward_inv p target Hend Hraw) as (p' & -> & Htok & _ & _ & Hinv).
    exists p'. split; [done|]. by apply lexer_inv_valid.
Qed.

(** ** negation *)

(** C3. [negation.Parse] on a context whose lexer can be peeked, on an
    array ending in EOF. If the next non-elided token is EOF the result
    is no-match and the context is unchanged. Otherwise the inner node
    runs on a branch that is then dropped: if it matched (values not
    nil, no error) the negation fails with an [UnexpectedTokenError] on
    the peeked token and the context is unchanged; if it failed or did
    not match, the negation takes the peeked token with [Next] from the
    context itself (one more non-elided token consumed, raw cursor just
    past it) and returns the text of the token as its one value. *)
Theorem negation_Parse_spec (n : negation) (ctx : parseContext) (parent : rvalue)
  (t : Token) :
  ends_with_EOF (tokens (lexer ctx)) →
  Peek (lexer ctx) = Ok t →
  (Token_EOF t = true → negation_Parse n ctx parent = Ok (None, None, ctx))
  ∧ (Token_EOF t = false →
     ∀ out err b, Parse (neg_node n) (Branch ctx) parent = Ok (out, err, b) →
       (out ≠ None ∧ err = None →
          negation_Parse n ctx parent
          = Ok (None, Some (UnexpectedTokenError t None), ctx))
       ∧ (out = None ∨ err ≠ None →
          ∃ p', Next (lexer ctx) = Ok (t, p')
            ∧ negation_Parse n ctx parent
              = Ok (Some [ValueOf_string (Value t)], None, with_lexer ctx p')
            ∧ cursor (checkpoint p') = Cursor ctx + 1
            ∧ rawCursor (checkpoint p') = nextCursor (checkpoint (lexer ctx)) + 1)).
Proof.
  intros Hend Hpeek. unfold negation_Parse. rewrite Hpeek. simpl. split; intros He.
  - by rewrite He.
  - rewrite He. intros out err b HP. rewrite HP. simpl. split.
    + intros [Hout ->]. by destruct out.
    + intros Hor.
      destruct (Next_spec _ t Hend Hpeek) as [_ Hne].
      destruct (Hne He) as (p' & HN & _ & _ & Hr & Hc & _).
      exists p'. split; [done|]. split; [|done].
      rewrite HN. simpl.
      destruct out as [vs|], err as [e|]; try done. by destruct Hor.
Qed.

(** ** literal *)

(** Where [PeekAny] stops: after a run of elided tokens that are not
    EOF and do not match, at a token that is EOF, matches or is not
    elided. *)
Lemma peekAny_from_spec (el : gmap TokenType bool) (f : Token → bool)
  (ts : list Token) (i j : Z) (t : Token) :
  peekAny_from el f ts i = Ok (t, j) →
  ∃ n : nat,
    j = i + Z.of_nat n ∧ ts !! n = Some t
    ∧ (Token_EOF t || f t || negb (map_get el (Type_ t))) = true
    ∧ (∀ m t', (m < n)%nat → ts !! m = Some t' →
               Token_EOF t' = false ∧ f t' = false ∧ map_get el (Type_ t') = true).
Proof.
  revert i. induction ts as [|t0 ts IH]; intros i H; simpl in H; [discriminate|].
  destruct (Token_EOF t0 || f t0 || negb (map_get el (Type_ t0))) eqn:E.
  - injection H as <- <-. exists 0%nat. split; [lia|]. split; [done|]. split; [done|].
    intros; lia.
  - apply orb_false_iff in E as [[E1 E2]%orb_false_iff E3]. apply negb_false_iff in E3.
    destruct (IH _ H) as (n & -> & Hn & Hstop & Hrun).
    exists (S n). split; [lia|]. split; [done|]. split; [done|].
    intros [|m] t' Hm Ht'; simpl in Ht'.
    + by injection Ht' as <-.
    + apply (Hrun m); [lia | done].
Qed.

(** [FastForward] to the index that [PeekAny] returned: the loop passes
    the elided tokens before it without counting them and stops at an
    EOF token or just past another token, which it counts unless it is
    elided. *)
Lemma fastForward_from_to (el : gmap TokenType bool) (ts : list Token) (n : nat)
  (i c : Z) (t : Token) :
  ts !! n = Some t →
  (∀ m t', (m < n)%nat → ts !! m = Some t' →
           Token_EOF t' = false ∧ map_get el (Type_ t') = true) →
  fastForward_from el (i + Z.of_nat n) ts i c
  = Ok (if Token_EOF t then (i + Z.of_nat n, c)
        else (i + Z.of_nat n + 1, if map_get el (Type_ t) then c else c + 1)).
Proof.
  revert ts i c. induction n as [|n IH]; intros ts i c Hn Hrun.
  - destruct ts as [|t0 ts]; [done|]. simpl in Hn. injection Hn as ->.
    rewrite Nat2Z.inj_0, Z.add_0_r. simpl. rewrite Z.ltb_irrefl.
    destruct (Token_EOF t) eqn:E; [done|].
    assert (Hlt : (i <? i + 1) = true) by (apply Z.ltb_lt; lia).
    destruct ts as [|t1 ts]; simpl; rewrite Hlt; by destruct (map_get el (Type_ t)).
  - destruct ts as [|t0 ts]; [done|]. simpl in Hn.
    cbn [fastForward_from].
    assert (Hge : (i + Z.of_nat (S n) <? i) = false) by (apply Z.ltb_ge; lia).
    rewrite Hge.
    destruct (Hrun 0%nat t0 ltac:(lia) eq_refl) as [-> ->]. simpl negb. cbv iota.
    replace (i + Z.of_nat (S n)) with (i + 1 + Z.of_nat n) by lia.
    rewrite (IH ts (i + 1) c Hn); [done|].
    intros m t' Hm Ht'. apply (Hrun (S m)); [lia | done].
Qed.

Lemma literal_match_iff (l : literal) (ctx : parseContext) (t : Token) :
  literal_match l ctx t = true ↔
  (lit_t l = EOF ∨ lit_t l = Type_ t)
  ∧ (lit_s l = ""
     ∨ (if map_get (caseInsensitive ctx) (Type_ t)
        then EqualFold (Value t) (lit_s l) = true
        else Value t = lit_s l)).
Proof.
  unfold literal_match.
  rewrite andb_true_iff, orb_true_iff, !Z.eqb_eq.
  destruct (map_get (caseInsensitive ctx) (Type_ t));
    rewrite orb_true_iff, ?String.eqb_eq; done.
Qed.

(** [FastForward] to the index of the token that [PeekAny] returned. *)
Lemma FastForward_to_PeekAny (p : PeekingLexer) (f : Token → bool) (t : Token)
  (cur : RawCursor) :
  ends_with_EOF (tokens p) →
  0 <= rawCursor (checkpoint p) →
  PeekAny p f = Ok (t, cur) →
  index (tokens p) cur = Ok t
  ∧ rawCursor (checkpoint p) <= cur
  ∧ ∃ p', FastForward p cur = Ok p'
      ∧ tokens p' = tokens p ∧ elide p' = elide p
      ∧ rawCursor (checkpoint p') = (if Token_EOF t then cur else cur + 1)
      ∧ cursor (checkpoint p')
        = (if Token_EOF t || map_get (elide p) (Type_ t)
           then cursor (checkpoint p) else cursor (checkpoint p) + 1)
      ∧ lexer_inv p'.
Proof.
  intros Hend Hraw HP. unfold PeekAny in HP.
  destruct (peekAny_from_spec _ _ _ _ _ _ HP) as (n & -> & Hn & _ & Hrun).
  assert (Hidx : index (tokens p) (rawCursor (checkpoint p) + Z.of_nat n) = Ok t).
  { by apply tokens_from_lookup. }
  split; [done|]. split; [lia|].
  pose proof (fastForward_from_to (elide p) _ n (rawCursor (checkpoint p))
                (cursor (checkpoint p)) t Hn) as Hff.
  unfold FastForward. cbv zeta. rewrite Hff; clear Hff.
  2:{ intros m t' Hm Ht'. destruct (Hrun m t' Hm Ht') as (? & _ & ?). done. }
  set (cur := rawCursor (checkpoint p) + Z.of_nat n) in *.
  destruct (Token_EOF t) eqn:E.
  - simpl.
    destruct (advanceToNonElided_inv
                (with_checkpoint p (mkCheckpoint cur cur (cursor (checkpoint p)))) Hend)
      as (p' & -> & Htok & Hel & Hr & Hc & Hinv);
      [by apply index_Ok_bounds in Hidx | done |].
    by exists p'.
  - pose proof (ends_with_EOF_not_last p _ t Hend Hidx E) as Hb.
    destruct (map_get (elide p) (Type_ t)) eqn:Em; simpl.
    + destruct (advanceToNonElided_inv
                  (with_checkpoint p (mkCheckpoint (cur + 1) (cur + 1) (cursor (checkpoint p))))
                  Hend) as (p' & -> & Htok & Hel & Hr & Hc & Hinv); [done | done |].
      by exists p'.
    + destruct (advanceToNonElided_inv
                  (with_checkpoint p
                     (mkCheckpoint (cur + 1) (cur + 1) (cursor (checkpoint p) + 1)))
                  Hend) as (p' & -> & Htok & Hel & Hr & Hc & Hinv); [done | done |].
      by exists p'.
Qed.

(** C6 (as amended). [literal.Parse], with [lexer.EOF] the constant -1,
    on a context whose raw cursor is an index of an array ending in EOF.
    Let [token] at index [cur] be what [PeekAny] finds. It matches when
    the literal is untyped (type -1) or has the type of the token, and
    the literal is the empty string or equals the text of the token:
    under [strings.EqualFold] if the type of the token is in the
    case-insensitive map, exactly otherwise. On a match the lexer is
    fast-forwarded to [cur] (the raw cursor is just past the token, or
    on it if it is EOF; the token is counted unless elided or EOF) and
    the one value is the text of the token; otherwise the result is
    no-match and the context is unchanged. *)
Theorem literal_Parse_spec (l : literal) (ctx : parseContext) (parent : rvalue) :
  EOF = -1 →
  ends_with_EOF (tokens (lexer ctx)) →
  0 <= rawCursor (checkpoint (lexer ctx)) < Z.of_nat (length (tokens (lexer ctx))) →
  ∃ token cur,
    PeekAny (lexer ctx) (literal_match l ctx) = Ok (token, cur)
    ∧ index (tokens (lexer ctx)) cur = Ok token
    ∧ let matches :=
        (lit_t l = -1 ∨ lit_t l = Type_ token)
        ∧ (lit_s l = ""
           ∨ (if map_get (caseInsensitive ctx) (Type_ token)
              then EqualFold (Value token) (lit_s l) = true
              else Value token = lit_s l)) in
      (matches →
         ∃ p', FastForward (lexer ctx) cur = Ok p'
           ∧ literal_Parse l ctx parent
             = Ok (Some [ValueOf_string (Value token)], None, with_lexer ctx p')
           ∧ rawCursor (checkpoint p') = (if Token_EOF token then cur else cur + 1)
           ∧ cursor (checkpoint p')
             = (if Token_EOF token || map_get (elide (lexer ctx)) (Type_ token)
                then Cursor ctx else Cursor ctx + 1)
           ∧ lexer_inv p')
      ∧ (¬ matches → literal_Parse l ctx parent = Ok (None, None, ctx)).
Proof.
  intros HEOF Hend Hraw.
  destruct (PeekAny_in_bounds (lexer ctx) (literal_match l ctx) Hend Hraw)
    as (token & cur & HP & Hidx & _).
  exists token, cur. split; [done|]. split; [done|]. simpl.
  pose proof (literal_match_iff l ctx token) as Hiff. rewrite HEOF in Hiff.
  unfold literal_Parse. rewrite HP. simpl. split.
  - intros Hm. apply Hiff in Hm. rewrite Hm.
    destruct (FastForward_to_PeekAny _ _ _ _ Hend (proj1 Hraw) HP)
      as (_ & _ & p' & HF & _ & _ & Hr & Hc & Hinv).
    exists p'. rewrite HF. done.
  - intros Hm. destruct (literal_match l ctx token) eqn:E; [|done].
    destruct Hm. by apply Hiff.
Qed.

(** ** disjunction *)






(** ** group *)




(** ** The field binder *)

(** Storing what a field holds leaves the record as it is. *)
Lemma store_FieldByIndex_same (idx : list nat) (v f : rvalue) :
  FieldByIndex v idx = Ok f → store_FieldByIndex v idx f = Ok v.
Proof.
  revert v. induction idx as [|i idx IH]; intros v H; simpl in *.
  - by injection H as ->.
  - destruct v; try discriminate.
    destruct (fields !! i) as [fi|] eqn:E; [|discriminate].
    rewrite (IH fi H). simpl. by rewrite list_insert_id.
Qed.

Lemma store_FieldByIndex_Ok (idx : list nat) (v f new : rvalue) :
  FieldByIndex v idx = Ok f → ∃ v', store_FieldByIndex v idx new = Ok v'.
Proof.
  revert v. induction idx as [|i idx IH]; intros v H; simpl in *.
  - by exists new.
  - destruct v; try discriminate.
    destruct (fields !! i) as [fi|] eqn:E; [|discriminate].
    destruct (IH fi H) as [v' ->]. simpl. by eexists.
Qed.

(** The field that reaches the last part of [setField]: not a pointer,
    not of type [Token] or [[]Token], without hooks, neither a slice
    nor a string. *)
Definition plain_field (f : rvalue) : Prop :=
  Value_Kind f ≠ Ptr
  ∧ Value_Type f ≠ tokenType ∧ Value_Type f ≠ tokensType
  ∧ implementsCapture (PtrTo (Value_Type f)) = false
  ∧ implementsTextUnmarshaler (PtrTo (Value_Type f)) = false
  ∧ Value_Kind f ≠ Slice ∧ Value_Kind f ≠ String.

Lemma setField_plain (toks : list Token) (strct f : rvalue) (field : structLexerField)
  (fieldValue : list rvalue) :
  FieldByIndex strct (field_Index field) = Ok f →
  plain_field f →
  setField toks strct field fieldValue
  = ('(f', err) ← setField_scalar (Value_CanAddr strct) f field fieldValue;
     strct' ← store_FieldByIndex strct (field_Index field) f';
     Ok (strct', decorate err (String.append (Type_Name (Value_Type strct))
                                 (String.append "." (field_Name field))))).
Proof.
  intros Hf (Hptr & Htok & Htoks & Hcap & Hun & Hsl & Hstr).
  unfold setField. rewrite Hf. simpl.
  rewrite (bool_decide_eq_false_2 _ Hptr).
  unfold setField_value.
  rewrite (bool_decide_eq_false_2 _ Htok), (bool_decide_eq_false_2 _ Htoks).
  rewrite Hcap, Hun, !andb_false_r.
  by rewrite (bool_decide_eq_false_2 _ Hsl), (bool_decide_eq_false_2 _ Hstr).
Qed.

(** C10. [setField] with no captured value, on a field that is not a
    pointer, not of type [Token] or [[]Token], without [Capture] or
    [TextUnmarshaler] hook, and neither a slice nor a string: it returns
    nil and the record is as it was. *)
Theorem setField_no_values (toks : list Token) (strct f : rvalue)
  (field : structLexerField) :
  FieldByIndex strct (field_Index field) = Ok f →
  Value_Kind f ≠ Ptr →
  Value_Type f ≠ tokenType → Value_Type f ≠ tokensType →
  implementsCapture (PtrTo (Value_Type f)) = false →
  implementsTextUnmarshaler (PtrTo (Value_Type f)) = false →
  Value_Kind f ≠ Slice → Value_Kind f ≠ String →
  setField toks strct field [] = Ok (strct, None).
Proof.
  intros Hf Hptr Htok Htoks Hcap Hun Hsl Hstr.
  rewrite (setField_plain toks strct f) by done.
  unfold setField_scalar. simpl.
  by rewrite (store_FieldByIndex_same _ _ _ Hf).
Qed.

Lemma numeric_field_plain (f : rvalue) :
  is_int_kind (Value_Kind f) || is_uint_kind (Value_Kind f)
  || is_float_kind (Value_Kind f) = true →
  implementsCapture (PtrTo (Value_Type f)) = false →
  implementsTextUnmarshaler (PtrTo (Value_Type f)) = false →
  plain_field f.
Proof.
  intros Hk Hcap Hun. unfold plain_field, Value_Kind in *.
  repeat split; try done; try (intros E; rewrite E in Hk; discriminate).
Qed.

(** [conform] of one captured string to a type of an integer kind. *)
Lemma conform_string_to_numeric (t : rtype) (s : string) :
  let k := Type_Kind t in
  (is_int_kind k = true →
     conform t [ValueOf_string s]
     = match ParseInt s 0 (int_bits k) with
       | inl n => Ok ([new_Int t n], None)
       | inr e => Ok ([], Some e)
       end)
  ∧ (is_uint_kind k = true →
     conform t [ValueOf_string s]
     = match ParseUint s 0 (int_bits k) with
       | inl n => Ok ([new_Uint t n], None)
       | inr e => Ok ([], Some e)
       end).
Proof.
  unfold conform, conform_loop, Value_Kind. simpl.
  split; intros Hk; destruct (Type_Kind t) eqn:E; try discriminate; simpl;
    rewrite !andb_false_r; simpl;
    first [ by destruct (ParseInt s 0 _) | by destruct (ParseUint s 0 _) ].
Qed.

Lemma Value_Convert_type (v v' : rvalue) (t : rtype) :
  (∀ w w', convertOther w t = Ok w' → Value_Type w' = t) →
  Value_Convert v t = Ok v' → Value_Type v' = t.
Proof.
  intros Hother. destruct v; simpl; try (by intros [= <-]); apply Hother.
Qed.

(** Whatever the captured values, what [conform] returns for a type of
    a numeric kind has that type. *)
Lemma conform_loop_numeric_type (t : rtype) (values out res : list rvalue) :
  is_int_kind (Type_Kind t) || is_uint_kind (Type_Kind t)
  || is_float_kind (Type_Kind t) = true →
  (∀ w w', convertOther w t = Ok w' → Value_Type w' = t) →
  Forall (λ v, Value_Type v = t) out →
  conform_loop t values out = Ok (res, None) →
  Forall (λ v, Value_Type v = t) res.
Proof.
  intros Hk Hother. revert out.
  induction values as [|v values IH]; intros out Hout; simpl.
  { by intros [= <-]. }
  assert (Hnp : bool_decide (Type_Kind t = Ptr) = false).
  { apply bool_decide_eq_false_2. intros E. rewrite E in Hk. discriminate. }
  rewrite Hnp, andb_false_r. simpl.
  destruct (bool_decide (Value_Kind v = Type_Kind t)).
  - destruct (bool_decide (Value_Type v = t)) eqn:Et; simpl.
    + apply bool_decide_eq_true_1 in Et. apply IH. apply Forall_app. by repeat constructor.
    + destruct (Value_Convert v t) as [v'|] eqn:Ec; simpl; [|discriminate].
      apply IH. apply Forall_app. split; [done|]. repeat constructor.
      by apply (Value_Convert_type v).
  - destruct (is_int_kind (Type_Kind t)) eqn:Ei.
    { destruct (sizeOfKind (Type_Kind t)) as [bits|]; simpl; [|discriminate].
      destruct (ParseInt _ _ _); [|discriminate].
      apply IH. apply Forall_app. by repeat constructor. }
    destruct (is_uint_kind (Type_Kind t)) eqn:Eu.
    { destruct (sizeOfKind (Type_Kind t)) as [bits|]; simpl; [|discriminate].
      destruct (ParseUint _ _ _); [|discriminate].
      apply IH. apply Forall_app. by repeat constructor. }
    simpl in Hk.
    assert (Hnb : bool_decide (Type_Kind t = Bool) = false).
    { apply bool_decide_eq_false_2. intros E. rewrite E in Hk. discriminate. }
    rewrite Hnb, Hk.
    destruct (sizeOfKind (Type_Kind t)) as [bits|]; simpl; [|discriminate].
    destruct (ParseFloat _ _); [|discriminate].
    apply IH. apply Forall_app. by repeat constructor.
Qed.

(** So the test [fv.Type() != f.Type()] of the numeric cases of
    [setField] fails: a field of a numeric kind is left as it is, with
    an error or with nothing captured, or it is set to the first value
    that [conform] returned. *)
Lemma setField_scalar_numeric (can_addr : bool) (f : rvalue)
  (field : structLexerField) (fieldValue : list rvalue) :
  is_int_kind (Value_Kind f) || is_uint_kind (Value_Kind f)
  || is_float_kind (Value_Kind f) = true →
  (∀ w w', convertOther w (Value_Type f) = Ok w' → Value_Type w' = Value_Type f) →
  match conform (Value_Type f) (coalesced fieldValue) with
  | Ok (_, Some e) => setField_scalar can_addr f field fieldValue = Ok (f, Some e)
  | Ok ([], None) => setField_scalar can_addr f field fieldValue = Ok (f, None)
  | Ok (fv :: _, None) =>
      Value_Type fv = Value_Type f
      ∧ setField_scalar can_addr f field fieldValue
        = (f' ← Value_Set can_addr fv; Ok (f', None))
  | Panic => setField_scalar can_addr f field fieldValue = Panic
  end.
Proof.
  intros Hk Hother. unfold setField_scalar, coalesced. cbv zeta.
  destruct (conform (Value_Type f) _) as [[out [e|]]|] eqn:Ec; simpl;
    [by destruct out | | done].
  destruct out as [|fv out]; [done|].
  pose proof (conform_loop_numeric_type _ _ _ _ Hk Hother (Forall_nil_2 _) Ec) as Hty.
  apply Forall_cons in Hty as [Hfv _]. split; [done|].
  rewrite (bool_decide_eq_false_2 (Value_Type fv ≠ Value_Type f)) by (intros H; by apply H).
  unfold Value_Kind in *.
  by destruct (is_int_kind _); [|destruct (is_uint_kind _); [|destruct (is_float_kind _)]].
Qed.

(** X29. [setField] of one captured string to a field of an integer or
    unsigned integer kind, without hooks, in an addressable record. The
    string is parsed with base 0 and the bit size of the kind of the
    field. If that succeeds, the number becomes the value of the field
    (as a field of this width holds it) and the call returns nil; if it
    fails, the call returns the error of the parser, decorated with the
    name of the record and of the field, and the record is as it was. *)
Theorem setField_integer_string (toks : list Token) (strct f : rvalue)
  (field : structLexerField) (s : string) :
  FieldByIndex strct (field_Index field) = Ok f →
  Value_CanAddr strct = true →
  implementsCapture (PtrTo (Value_Type f)) = false →
  implementsTextUnmarshaler (PtrTo (Value_Type f)) = false →
  let t := Value_Type f in
  let bits := int_bits (Type_Kind t) in
  let name := String.append (Type_Name (Value_Type strct))
                (String.append "." (field_Name field)) in
  (is_int_kind (Type_Kind t) = true →
     match ParseInt s 0 bits with
     | inl n =>
         ∃ strct', store_FieldByIndex strct (field_Index field)
                     (VInt t (wrap_signed bits n)) = Ok strct'
                   ∧ setField toks strct field [ValueOf_string s] = Ok (strct', None)
     | inr e =>
         setField toks strct field [ValueOf_string s]
         = Ok (strct, decorate (Some e) name)
     end)
  ∧ (is_uint_kind (Type_Kind t) = true →
     match ParseUint s 0 bits with
     | inl n =>
         ∃ strct', store_FieldByIndex strct (field_Index field)
                     (VUint t (wrap_unsigned bits n)) = Ok strct'
                   ∧ setField toks strct field [ValueOf_string s] = Ok (strct', None)
     | inr e =>
         setField toks strct field [ValueOf_string s]
         = Ok (strct, decorate (Some e) name)
     end).
Proof.
  intros Hf Haddr Hcap Hun t bits name.
  destruct (conform_string_to_numeric t s) as [Hci Hcu].
  split; intros Hk.
  - assert (Hplain : plain_field f).
    { apply numeric_field_plain; [|done..]. unfold Value_Kind. fold t. by rewrite Hk. }
    rewrite (setField_plain toks strct f) by done.
    unfold setField_scalar. simpl. fold t. rewrite (Hci Hk). fold bits. rewrite Haddr.
    destruct (ParseInt s 0 bits) as [n|e]; simpl.
    + unfold Value_Kind. fold t. rewrite Hk.
      rewrite bool_decide_eq_false_2 by (intros H; by apply H). simpl.
      destruct (store_FieldByIndex_Ok _ _ _ (new_Int t n) Hf) as [strct' Hs].
      exists strct'. split; [done|]. by rewrite Hs.
    + by rewrite (store_FieldByIndex_same _ _ _ Hf).
  - assert (Hplain : plain_field f).
    { apply numeric_field_plain; [|done..]. unfold Value_Kind. fold t. rewrite Hk.
      by rewrite orb_true_r. }
    rewrite (setField_plain toks strct f) by done.
    unfold setField_scalar. simpl. fold t. rewrite (Hcu Hk). fold bits. rewrite Haddr.
    destruct (ParseUint s 0 bits) as [n|e]; simpl.
    + unfold Value_Kind. fold t. rewrite Hk.
      assert (Hni : is_int_kind (Type_Kind t) = false) by (by destruct (Type_Kind t)).
      rewrite Hni.
      rewrite bool_decide_eq_false_2 by (intros H; by apply H). simpl.
      destruct (store_FieldByIndex_Ok _ _ _ (new_Uint t n) Hf) as [strct' Hs].
      exists strct'. split; [done|]. by rewrite Hs.
    + by rewrite (store_FieldByIndex_same _ _ _ Hf).
Qed.

(** * Further properties *)

(** ** PeekAny and FastForward *)

(** X1. [PeekAny] on an array ending in EOF, from a raw cursor that is an
    index of it: it returns, with the first token at or after the raw
    cursor that is EOF, satisfies the predicate or is not elided, and
    with the index of that token; every token it passes over is elided,
    is not EOF and does not satisfy the predicate. *)
Theorem PeekAny_first_candidate (p : PeekingLexer) (f : Token → bool) :
  ends_with_EOF (tokens p) →
  0 <= rawCursor (checkpoint p) < Z.of_nat (length (tokens p)) →
  ∃ t i,
    PeekAny p f = Ok (t, i)
    ∧ rawCursor (checkpoint p) <= i < Z.of_nat (length (tokens p))
    ∧ index (tokens p) i = Ok t
    ∧ (Token_EOF t = true ∨ f t = true ∨ map_get (elide p) (Type_ t) = false)
    ∧ (∀ j, rawCursor (checkpoint p) <= j < i →
            ∃ tj, index (tokens p) j = Ok tj
                  ∧ Token_EOF tj = false ∧ f tj = false
                  ∧ map_get (elide p) (Type_ tj) = true).
Proof.
  intros Hend Hraw.
  destruct (PeekAny_in_bounds p f Hend Hraw) as (t & i & HP & Hidx & Hb).
  exists t, i. do 3 (split; [done|]).
  unfold PeekAny in HP.
  destruct (peekAny_from_spec _ _ _ _ _ _ HP) as (n & -> & Hn & Hstop & Hrun).
  split.
  - apply orb_true_iff in Hstop as [[?|?]%orb_true_iff | Hne]; [by left | by right; left |].
    right; right. by apply negb_true_iff in Hne.
  - intros j Hj.
    set (m := Z.to_nat (j - rawCursor (checkpoint p))).
    destruct (lookup_lt_is_Some_2 (tokens_from p (rawCursor (checkpoint p))) m)
      as [tj Htj].
    { apply lookup_lt_Some in Hn. lia. }
    exists tj. destruct (Hrun m tj ltac:(lia) Htj) as (? & ? & ?).
    split; [|done]. apply tokens_from_lookup in Htj; [|lia].
    by replace (rawCursor (checkpoint p) + Z.of_nat m) with j in Htj by lia.
Qed.

Lemma one_EOF_ends_with_EOF (toks : list Token) : one_EOF toks → ends_with_EOF toks.
Proof. intros (ts & t & ? & ? & _). by exists ts, t. Qed.

(** In an array with one EOF token, a token before another index is not
    EOF. *)
Lemma one_EOF_before (toks : list Token) (i j : Z) (t : Token) :
  one_EOF toks → index toks i = Ok t → i < j < Z.of_nat (length toks) →
  Token_EOF t = false.
Proof.
  intros (ts & t0 & -> & _ & Hall) [H0 Hi]%index_Ok Hj.
  rewrite length_app in Hj. simpl in Hj.
  rewrite lookup_app_l in Hi by lia.
  by apply (Forall_lookup_1 _ _ _ _ Hall Hi).
Qed.

(** X2. On a lexer that satisfies the cursor invariant, over an array
    with one EOF token: when the predicate holds of no token between the
    raw cursor and the next cursor, [PeekAny] returns the token that
    [Peek] returns, with the next cursor as its index. *)
Theorem PeekAny_no_match_is_Peek (p : PeekingLexer) (f : Token → bool) :
  one_EOF (tokens p) →
  lexer_inv p →
  (∀ j tj, rawCursor (checkpoint p) <= j < nextCursor (checkpoint p) →
           index (tokens p) j = Ok tj → f tj = false) →
  ∃ t, Peek p = Ok t ∧ PeekAny p f = Ok (t, nextCursor (checkpoint p)).
Proof.
  intros Hone Hinv Hf.
  pose proof (one_EOF_ends_with_EOF _ Hone) as Hend.
  pose proof (lexer_inv_valid p Hinv) as [Hraw Hnext].
  destruct Hinv as (Hle & Hrun & tn & Htn & Hstop).
  exists tn. split; [done|].
  destruct (PeekAny_in_bounds p f Hend Hraw) as (t & i & HP & Hidx & Hb).
  unfold PeekAny in HP.
  destruct (peekAny_from_spec _ _ _ _ _ _ HP) as (n & Hi & Hn & Hst & Hskip).
  assert (Hin : i = nextCursor (checkpoint p)).
  { destruct (Z.lt_trichotomy i (nextCursor (checkpoint p))) as [Hlt | [-> | Hgt]];
      [exfalso | done | exfalso].
    - destruct (Hrun i ltac:(lia)) as (ti & Hti & Hel).
      rewrite Hidx in Hti. injection Hti as <-.
      rewrite (Hf i t ltac:(lia) Hidx), Hel in Hst.
      rewrite (one_EOF_before _ i (nextCursor (checkpoint p)) t Hone Hidx) in Hst by lia.
      discriminate.
    - set (m := Z.to_nat (nextCursor (checkpoint p) - rawCursor (checkpoint p))).
      assert (Hm : tokens_from p (rawCursor (checkpoint p)) !! m = Some tn).
      { apply tokens_from_lookup; [lia|].
        by replace (rawCursor (checkpoint p) + Z.of_nat m)
          with (nextCursor (checkpoint p)) by lia. }
      destruct (Hskip m tn ltac:(lia) Hm) as (He & _ & Hel).
      destruct Hstop as [? | ?]; congruence. }
  rewrite Hin in Hidx. rewrite Hidx in Htn. injection Htn as <-.
  unfold PeekAny. rewrite HP. by rewrite Hin.
Qed.

(** X3. [FastForward] to the index that [PeekAny] returned, on an array
    ending in EOF: it returns; the raw cursor is just past the token, or
    on it if it is EOF; the count of non-elided tokens is one more
    unless the token is elided or EOF; the cursor invariant holds. *)
Theorem FastForward_after_PeekAny (p : PeekingLexer) (f : Token → bool) (t : Token)
  (cur : RawCursor) :
  ends_with_EOF (tokens p) →
  0 <= rawCursor (checkpoint p) →
  PeekAny p f = Ok (t, cur) →
  ∃ p', FastForward p cur = Ok p'
    ∧ tokens p' = tokens p ∧ elide p' = elide p
    ∧ rawCursor (checkpoint p') = (if Token_EOF t then cur else cur + 1)
    ∧ cursor (checkpoint p')
      = (if Token_EOF t || map_get (elide p) (Type_ t)
         then cursor (checkpoint p) else cursor (checkpoint p) + 1)
    ∧ lexer_inv p'.
Proof.
  intros Hend Hraw HP.
  by destruct (FastForward_to_PeekAny p f t cur Hend Hraw HP) as (_ & _ & H).
Qed.

Lemma non_elided_count_app (el : gmap TokenType bool) (l1 l2 : list Token) :
  non_elided_count el (l1 ++ l2) = non_elided_count el l1 + non_elided_count el l2.
Proof. induction l1 as [|t l1 IH]; simpl; [done | rewrite IH; lia]. Qed.

Lemma non_elided_count_bounds (el : gmap TokenType bool) (l : list Token) :
  0 <= non_elided_count el l <= Z.of_nat (length l).
Proof.
  induction l as [|t l IH]; simpl; [lia|]. destruct (map_get el (Type_ t)); lia.
Qed.

(** What the loop of [FastForward] leaves: it passes [n] tokens that are
    not EOF, counts those that are not elided, and does not pass the
    target. *)
Lemma fastForward_from_count (el : gmap TokenType bool) (target : Z) (ts : list Token)
  (i c j c' : Z) :
  fastForward_from el target ts i c = Ok (j, c') →
  ∃ n : nat,
    j = i + Z.of_nat n ∧ (n <= length ts)%nat
    ∧ c' = c + non_elided_count el (take n ts)
    ∧ j <= Z.max i (target + 1)
    ∧ (target < i → n = 0%nat).
Proof.
  revert i c. induction ts as [|t ts IH]; intros i c; simpl.
  - destruct (Z.ltb_spec target i); [|discriminate].
    intros [= <- <-]. exists 0%nat. simpl. repeat split; lia.
  - destruct (Z.ltb_spec target i).
    { intros [= <- <-]. exists 0%nat. simpl. repeat split; lia. }
    destruct (Token_EOF t).
    { intros [= <- <-]. exists 0%nat. simpl. repeat split; lia. }
    intros H'. destruct (IH _ _ H') as (n & -> & Hn & -> & Hj & _).
    exists (S n). simpl. split; [lia|]. split; [lia|]. split.
    + destruct (map_get el (Type_ t)); simpl; lia.
    + split; lia.
Qed.

(** X4. [FastForward] on an array ending in EOF, from a raw cursor that
    is an index of it, whatever the target: it returns; the raw cursor
    does not move backward, nor past the token after the target, nor
    past the end of the array; the count of non-elided tokens grows by
    the number of non-elided tokens the raw cursor has passed; with a
    target before the raw cursor neither moves; the cursor invariant
    holds afterwards. *)
Theorem FastForward_never_backward (p : PeekingLexer) (target : RawCursor) :
  ends_with_EOF (tokens p) →
  0 <= rawCursor (checkpoint p) < Z.of_nat (length (tokens p)) →
  ∃ p', FastForward p target = Ok p'
    ∧ tokens p' = tokens p ∧ elide p' = elide p
    ∧ rawCursor (checkpoint p) <= rawCursor (checkpoint p')
    ∧ rawCursor (checkpoint p') <= Z.max (rawCursor (checkpoint p)) (target + 1)
    ∧ rawCursor (checkpoint p') < Z.of_nat (length (tokens p))
    ∧ cursor (checkpoint p')
      = cursor (checkpoint p)
        + non_elided_count (elide p)
            (take (Z.to_nat (rawCursor (checkpoint p') - rawCursor (checkpoint p)))
               (drop (Z.to_nat (rawCursor (checkpoint p))) (tokens p)))
    ∧ (target < rawCursor (checkpoint p) →
       rawCursor (checkpoint p') = rawCursor (checkpoint p)
       ∧ cursor (checkpoint p') = cursor (checkpoint p))
    ∧ lexer_inv p'.
Proof.
  intros Hend Hraw.
  destruct (ends_with_EOF_from p _ Hend Hraw) as (k & t & Hk & He & Hlast).
  destruct (fastForward_from_total (elide p) target _ (rawCursor (checkpoint p))
              (cursor (checkpoint p)) k t Hk He) as (j & c' & Hff & Hj).
  destruct (fastForward_from_count _ _ _ _ _ _ _ Hff) as (n & -> & Hn & -> & Hmax & Hlt).
  set (j := rawCursor (checkpoint p) + Z.of_nat n) in *.
  set (c' := cursor (checkpoint p) + _) in *.
  destruct (advanceToNonElided_inv (with_checkpoint p (mkCheckpoint j j c')) Hend)
    as (p' & Hadv & Htok & Hel & Hr & Hc & Hinv); [simpl; lia | done |].
  simpl in Hr, Hc.
  exists p'. unfold FastForward. cbv zeta. rewrite Hff. simpl. rewrite Hr, Hc.
  do 3 (split; [done|]). split; [lia|]. split; [done|]. split; [lia|].
  split.
  { unfold c', j, tokens_from. destruct (Z.ltb_spec (rawCursor (checkpoint p)) 0); [lia|].
    do 3 f_equal. lia. }
  split; [|done].
  intros Ht. specialize (Hlt Ht). unfold c', j. rewrite Hlt. simpl. lia.
Qed.

(** ** The count of non-elided tokens *)

Lemma non_elided_count_run (el : gmap TokenType bool) (toks : list Token) (a k : nat) :
  (∀ i, (a <= i < a + k)%nat → ∃ t, toks !! i = Some t ∧ map_get el (Type_ t) = true) →
  non_elided_count el (take (a + k) toks) = non_elided_count el (take a toks).
Proof.
  induction k as [|k IH]; intros Hrun; [by rewrite Nat.add_0_r|].
  destruct (Hrun (a + k)%nat ltac:(lia)) as (t & Ht & Hel).
  replace (a + S k)%nat with (S (a + k)) by lia.
  rewrite (take_S_r _ _ _ Ht), non_elided_count_app. simpl. rewrite Hel.
  rewrite IH; [lia|]. intros i Hi. apply Hrun. lia.
Qed.

Lemma Next_count_inv (p p' : PeekingLexer) (t : Token) :
  ends_with_EOF (tokens p) → lexer_inv p →
  count_inv (tokens p) (elide p) (checkpoint p) →
  Next p = Ok (t, p') →
  count_inv (tokens p') (elide p') (checkpoint p').
Proof.
  intros Hend Hinv Hcnt HN.
  pose proof (lexer_inv_valid p Hinv) as [Hraw Hnext].
  destruct Hinv as (Hle & Hrun & tn & Htn & Hstop).
  destruct (Next_spec p tn Hend Htn) as [Heof Hne].
  destruct (Token_EOF tn) eqn:E.
  - destruct (Heof eq_refl) as [HN' _]. rewrite HN' in HN. by injection HN as <- <-.
  - destruct (Hne eq_refl) as (p1 & HN' & Htok & Hel & Hr & Hc & _).
    rewrite HN' in HN. injection HN as <- <-.
    unfold count_inv in *. rewrite Htok, Hel, Hr, Hc, Hcnt.
    destruct Hstop as [? | Hnel]; [congruence|].
    apply index_Ok in Htn as [_ Htn].
    replace (Z.to_nat (nextCursor (checkpoint p) + 1))
      with (S (Z.to_nat (nextCursor (checkpoint p)))) by lia.
    rewrite (take_S_r _ _ _ Htn), non_elided_count_app. simpl. rewrite Hnel.
    replace (Z.to_nat (nextCursor (checkpoint p)))
      with (Z.to_nat (rawCursor (checkpoint p))
            + Z.to_nat (nextCursor (checkpoint p) - rawCursor (checkpoint p)))%nat by lia.
    rewrite non_elided_count_run; [lia|].
    intros i Hi. destruct (Hrun (Z.of_nat i) ltac:(lia)) as (ti & Hti & Heli).
    exists ti. apply index_Ok in Hti as [_ Hti]. by rewrite Nat2Z.id in Hti.
Qed.

Lemma FastForward_count_inv (p p' : PeekingLexer) (target : RawCursor) :
  ends_with_EOF (tokens p) →
  0 <= rawCursor (checkpoint p) < Z.of_nat (length (tokens p)) →
  count_inv (tokens p) (elide p) (checkpoint p) →
  FastForward p target = Ok p' →
  count_inv (tokens p') (elide p') (checkpoint p').
Proof.
  intros Hend Hraw Hcnt HF.
  destruct (FastForward_inv p target Hend Hraw) as (p1 & HF1 & _).
  unfold FastForward in HF. cbv zeta in HF.
  destruct (fastForward_from _ _ _ _ _) as [[j c']|] eqn:Hff; simpl in HF; [|discriminate].
  destruct (fastForward_from_count _ _ _ _ _ _ _ Hff) as (n & -> & Hn & -> & _).
  unfold advanceToNonElided in HF. simpl in HF.
  destruct (advance_from _ _ _) as [i|]; simpl in HF; [|discriminate].
  injection HF as <-. unfold count_inv in *. simpl. rewrite Hcnt.
  unfold tokens_from. destruct (Z.ltb_spec (rawCursor (checkpoint p)) 0); [lia|].
  replace (Z.to_nat (rawCursor (checkpoint p) + Z.of_nat n))
    with (Z.to_nat (rawCursor (checkpoint p)) + n)%nat by lia.
  by rewrite <- take_take_drop, non_elided_count_app.
Qed.

Lemma run_op_count_inv (st st' : PeekingLexer * list Checkpoint) (o : op) :
  client_inv st → client_count_inv st → run_op st o = Ok st' → client_count_inv st'.
Proof.
  destruct st as [p held]. intros (Hend & Hinv & Hheld) [Hcnt Hcheld] Hrun.
  pose proof (run_op_frame _ _ _ Hrun) as [Htok Hel].
  pose proof (lexer_inv_valid p Hinv) as [Hraw _].
  simpl in *. unfold client_count_inv. rewrite Htok, Hel.
  destruct o; simpl in Hrun.
  - destruct (Next p) as [[t p']|] eqn:HN; simpl in Hrun; [|discriminate].
    injection Hrun as <-. simpl in *. split; [|done].
    rewrite <- Htok, <- Hel. by apply (Next_count_inv p p' t).
  - destruct (Peek p); simpl in Hrun; [|discriminate]. by injection Hrun as <-.
  - destruct (RawPeek p); simpl in Hrun; [|discriminate]. by injection Hrun as <-.
  - destruct (PeekAny p match_); simpl in Hrun; [|discriminate]. by injection Hrun as <-.
  - destruct (FastForward p target) as [p'|] eqn:HF; simpl in Hrun; [|discriminate].
    injection Hrun as <-. simpl in *. split; [|done].
    rewrite <- Htok, <- Hel. by apply (FastForward_count_inv p p' target).
  - injection Hrun as <-. simpl. split; [done|].
    intros c [Hc|Hc]%elem_of_app; [by apply Hcheld|].
    by apply list_elem_of_singleton in Hc as ->.
  - destruct (held !! k) as [c|] eqn:Hk; injection Hrun as <-; simpl; [|done].
    split; [|done]. apply Hcheld. by apply list_elem_of_lookup_2 in Hk.
Qed.

Lemma run_ops_count_inv (os : list op) (st st' : PeekingLexer * list Checkpoint) :
  client_inv st → client_count_inv st → run_ops st os = Ok st' → client_count_inv st'.
Proof.
  revert st. induction os as [|o os IH]; intros st Hst Hcnt; simpl.
  - by intros [= <-].
  - destruct (run_op st o) as [st1|] eqn:E; simpl; [|discriminate].
    destruct (run_op_inv st o Hst) as (st1' & E' & _ & _ & Hst1).
    rewrite E in E'. injection E' as <-.
    apply IH; [done|]. by apply (run_op_count_inv st st1 o).
Qed.

(** X5. In a lexer that [Upgrade] built, after any operations of a
    client, [Cursor()] is the number of tokens before the raw cursor
    whose type is not elided. *)
Theorem cursor_counts_non_elided {L : Type} (next : LexerNext L) (fuel : nat)
  (lex : L) (elided : list TokenType) (r p' : PeekingLexer) (os : list op)
  (held' : list Checkpoint) :
  Upgrade next fuel lex elided = Some (Ok (r, None)) →
  run_ops (r, []) os = Ok (p', held') →
  cursor (checkpoint p')
  = non_elided_count (elide p') (take (Z.to_nat (rawCursor (checkpoint p'))) (tokens p')).
Proof.
  intros HU Hrun.
  assert (Hc0 : client_count_inv (r, [])).
  { unfold Upgrade, fillInPeekingLexer in HU. simpl in HU.
    destruct (fill_loop next fuel lex []) as [[toks [err|]]|]; try discriminate.
    unfold advanceToNonElided in HU. simpl in HU.
    destruct (advance_from _ _ _); simpl in HU; [|discriminate].
    injection HU as <-. split; [done|]. intros c Hc. by apply elem_of_nil in Hc. }
  apply Upgrade_inv in HU.
  by destruct (run_ops_count_inv os _ _ HU Hc0 Hrun) as [H _].
Qed.

(** ** Range *)

Lemma Range_Ok (p : PeekingLexer) (a b : RawCursor) :
  0 <= a → a <= b → b <= Z.of_nat (length (tokens p)) →
  Range p a b = Ok (take (Z.to_nat (b - a)) (drop (Z.to_nat a) (tokens p))).
Proof.
  intros H0 Hab Hb. unfold Range.
  destruct (Z.leb_spec 0 a); [|lia]. destruct (Z.leb_spec a b); [|lia].
  by destruct (Z.leb_spec b (Z.of_nat (length (tokens p)))); [|lia].
Qed.

(** X6. [Range] with [0 <= a <= b <= c] inside the token array: the
    range from [a] to [c] is the range from [a] to [b] followed by the
    range from [b] to [c]; the range from [a] to [b] has [b - a] tokens
    and its [k]-th token is the token at index [a + k]. A negative
    start, or a start after the end, panics. *)
Theorem Range_split (p : PeekingLexer) (a b c : RawCursor) :
  (0 <= a → a <= b → b <= c → c <= Z.of_nat (length (tokens p)) →
   ∃ l1 l2, Range p a b = Ok l1 ∧ Range p b c = Ok l2
            ∧ Range p a c = Ok (l1 ++ l2)
            ∧ Z.of_nat (length l1) = b - a
            ∧ ∀ k, 0 <= k < b - a → index l1 k = index (tokens p) (a + k))
  ∧ (a < 0 ∨ b < a → Range p a b = Panic).
Proof.
  split.
  - intros H0 Hab Hbc Hc.
    rewrite !Range_Ok by lia. eexists _, _. split; [done|]. split; [done|].
    split; [|split].
    + f_equal.
      replace (Z.to_nat (c - a)) with (Z.to_nat (b - a) + Z.to_nat (c - b))%nat by lia.
      rewrite <- take_take_drop. f_equal. rewrite drop_drop. do 2 f_equal. lia.
    + rewrite length_take, length_drop. lia.
    + intros k Hk. unfold index.
      destruct (Z.ltb_spec k 0); [lia|]. destruct (Z.ltb_spec (a + k) 0); [lia|].
      rewrite lookup_take_lt by lia. rewrite lookup_drop.
      by replace (Z.to_nat a + Z.to_nat k)%nat with (Z.to_nat (a + k)) by lia.
  - intros H. unfold Range.
    destruct (Z.leb_spec 0 a); [|done]. destruct (Z.leb_spec a b); [lia | done].
Qed.

(** X7. When [Next] consumes a token of a lexer that satisfies the
    cursor invariant, the range between the raw cursor before the call
    and the raw cursor after it is the run of elided tokens that came
    before the token, followed by the token. *)
Theorem Next_Range (p : PeekingLexer) (t : Token) :
  ends_with_EOF (tokens p) → lexer_inv p →
  Peek p = Ok t → Token_EOF t = false →
  ∃ p' run,
    Next p = Ok (t, p')
    ∧ Range p' (rawCursor (checkpoint p)) (rawCursor (checkpoint p')) = Ok (run ++ [t])
    ∧ Z.of_nat (length run) = nextCursor (checkpoint p) - rawCursor (checkpoint p)
    ∧ Forall (λ tr, map_get (elide p) (Type_ tr) = true) run.
Proof.
  intros Hend Hinv Hpeek He.
  pose proof (lexer_inv_valid p Hinv) as [Hraw Hnext].
  destruct Hinv as (Hle & Hrun & _).
  destruct (Next_spec p t Hend Hpeek) as [_ Hne].
  destruct (Hne He) as (p' & HN & Htok & _ & Hr & _).
  exists p', (take (Z.to_nat (nextCursor (checkpoint p) - rawCursor (checkpoint p)))
                (drop (Z.to_nat (rawCursor (checkpoint p))) (tokens p))).
  split; [done|]. split; [|split].
  - rewrite Range_Ok by (rewrite ?Htok; lia). rewrite Htok, Hr. f_equal.
    replace (Z.to_nat (nextCursor (checkpoint p) + 1 - rawCursor (checkpoint p)))
      with (S (Z.to_nat (nextCursor (checkpoint p) - rawCursor (checkpoint p)))) by lia.
    apply take_S_r. rewrite lookup_drop.
    apply index_Ok in Hpeek as [_ Hpeek].
    by replace (Z.to_nat (rawCursor (checkpoint p))
                + Z.to_nat (nextCursor (checkpoint p) - rawCursor (checkpoint p)))%nat
      with (Z.to_nat (nextCursor (checkpoint p))) by lia.
  - rewrite length_take, length_drop. lia.
  - apply Forall_lookup_2. intros k tr Hk.
    pose proof (lookup_lt_Some _ _ _ Hk) as Hlen. rewrite length_take in Hlen.
    rewrite lookup_take_lt in Hk by lia. rewrite lookup_drop in Hk.
    destruct (Hrun (rawCursor (checkpoint p) + Z.of_nat k) ltac:(lia)) as (ti & Hti & Hel).
    apply index_Ok in Hti as [_ Hti].
    replace (Z.to_nat (rawCursor (checkpoint p) + Z.of_nat k))
      with (Z.to_nat (rawCursor (checkpoint p)) + k)%nat in Hti by lia.
    rewrite Hk in Hti. by injection Hti as ->.
Qed.

(** ** Building a peeking lexer *)

Lemma elide_foldl_get (elided : list TokenType) (m : gmap TokenType bool)
  (ty : TokenType) :
  map_get (foldl (fun m rn => <[rn := true]> m) m elided) ty
  = if decide (ty ∈ elided) then true else map_get m ty.
Proof.
  revert m. induction elided as [|rn elided IH]; intros m; simpl.
  - destruct (decide (ty ∈ [])) as [H|_]; [by apply elem_of_nil in H | done].
  - rewrite IH. unfold map_get.
    destruct (decide (ty ∈ elided)) as [Hin|Hnin].
    + rewrite decide_True; [done | by right].
    + destruct (decide (ty = rn)) as [->|Hne].
      * rewrite lookup_insert_eq. rewrite decide_True; [done | by left].
      * rewrite lookup_insert_ne by done. rewrite decide_False; [done|].
        by intros [?|?]%elem_of_cons.
Qed.

Lemma fill_loop_spec {L : Type} (next : LexerNext L) (fuel : nat) (lex : L)
  (toks toks' : list Token) (oe : option Error) :
  fill_loop next fuel lex toks = Some (toks', oe) →
  ∃ new, toks' = toks ++ new
    ∧ match oe with
      | Some _ => Forall (λ t, Token_EOF t = false) new
      | None => ∃ ts t, new = ts ++ [t] ∧ Token_EOF t = true
                        ∧ Forall (λ t', Token_EOF t' = false) ts
      end.
Proof.
  revert lex toks. induction fuel as [|fuel IH]; intros lex toks H; simpl in H;
    [discriminate|].
  destruct (next lex) as [[t|err] lex'].
  - destruct (Token_EOF t) eqn:E.
    + injection H as <- <-. exists [t]. split; [done|]. by exists [], t.
    + destruct (IH _ _ H) as (new & -> & Hnew).
      exists (t :: new). split; [by rewrite <- app_assoc|].
      destruct oe as [e|].
      * by constructor.
      * destruct Hnew as (ts & t0 & -> & He & Hall). exists (t :: ts), t0.
        split; [done|]. split; [done|]. by constructor.
  - injection H as <- <-. exists []. by rewrite app_nil_r.
Qed.

Lemma fill_loop_more_fuel {L : Type} (next : LexerNext L) (fuel fuel' : nat) (lex : L)
  (toks : list Token) (x : list Token * option Error) :
  fill_loop next fuel lex toks = Some x → (fuel <= fuel')%nat →
  fill_loop next fuel' lex toks = Some x.
Proof.
  revert fuel' lex toks. induction fuel as [|fuel IH]; intros fuel' lex toks H Hle;
    simpl in H; [discriminate|].
  destruct fuel' as [|fuel']; [lia|]. simpl.
  destruct (next lex) as [[t|err] lex']; [|done].
  destruct (Token_EOF t); [done|]. apply IH; [done | lia].
Qed.

(** X8. What [Upgrade] returns. The raw cursor and the count of
    non-elided tokens are 0 and the elision map reads [true] exactly at
    the types given. Without error, the tokens are those that the lexer
    produced up to its first EOF token, which is the last and the only
    EOF token of the array, and the cursor invariant holds. With an
    error (that of the lexer), no token of the array is EOF. Reading the
    lexer for longer gives the same result. *)
Theorem Upgrade_result {L : Type} (next : LexerNext L) (fuel : nat) (lex : L)
  (elided : list TokenType) (r : PeekingLexer) (oe : option Error) :
  Upgrade next fuel lex elided = Some (Ok (r, oe)) →
  rawCursor (checkpoint r) = 0 ∧ cursor (checkpoint r) = 0
  ∧ (∀ ty, map_get (elide r) ty = true ↔ ty ∈ elided)
  ∧ fill_loop next fuel lex [] = Some (tokens r, oe)
  ∧ match oe with
    | None => one_EOF (tokens r) ∧ lexer_inv r
    | Some _ => Forall (λ t, Token_EOF t = false) (tokens r)
                ∧ nextCursor (checkpoint r) = 0
    end
  ∧ (∀ fuel', (fuel <= fuel')%nat →
              Upgrade next fuel' lex elided = Some (Ok (r, oe))).
Proof.
  intros HU.
  assert (Hel : ∀ (toks : list Token) c ty,
             map_get (elide (mkPeekingLexer c toks
                               (foldl (fun m rn => <[rn := true]> m) ∅ elided))) ty = true
             ↔ ty ∈ elided).
  { intros toks c ty. simpl. rewrite elide_foldl_get.
    destruct (decide (ty ∈ elided)); [done|]. unfold map_get. by rewrite lookup_empty. }
  pose proof HU as HU0.
  unfold Upgrade, fillInPeekingLexer in HU. simpl in HU.
  destruct (fill_loop next fuel lex []) as [[toks [err|]]|] eqn:Hfill; try discriminate.
  - injection HU as <- <-. simpl.
    destruct (fill_loop_spec _ _ _ _ _ _ Hfill) as (new & -> & Hnew). simpl in *.
    do 2 (split; [done|]). split; [apply (Hel new (mkCheckpoint 0 0 0))|].
    split; [done|]. split; [done|].
    intros fuel' Hle. unfold Upgrade, fillInPeekingLexer. simpl.
    by rewrite (fill_loop_more_fuel _ _ _ _ _ _ Hfill Hle).
  - destruct (fill_loop_spec _ _ _ _ _ _ Hfill) as (new & -> & ts & t & -> & He & Hall).
    simpl in *.
    unfold advanceToNonElided in HU. simpl in HU.
    destruct (advance_from _ _ _) as [i|]; simpl in HU; [|discriminate].
    injection HU as <- <-.
    pose proof (Upgrade_inv _ _ _ _ _ HU0) as (_ & Hinv & _). simpl in Hinv.
    simpl.
    do 2 (split; [done|]). split; [apply (Hel (ts ++ [t]) (mkCheckpoint 0 i 0))|].
    split; [done|]. split; [split; [by exists ts, t | done]|].
    intros fuel' Hle. rewrite <- HU0. unfold Upgrade, fillInPeekingLexer. simpl.
    by rewrite Hfill, (fill_loop_more_fuel _ _ _ _ _ _ Hfill Hle).
Qed.

Lemma map_fold_delete_all (m acc : gmap TokenType bool) (k : TokenType) :
  map_fold (fun k _ a => delete k a) acc m !! k
  = match m !! k with Some _ => None | None => acc !! k end.
Proof.
  revert m. apply (map_fold_weak_ind (λ r m, r !! k
    = match m !! k with Some _ => None | None => acc !! k end)).
  - by rewrite lookup_empty.
  - intros i x m r Hi IH. destruct (decide (i = k)) as [->|Hne].
    + by rewrite lookup_delete_eq, lookup_insert_eq.
    + by rewrite lookup_delete_ne, lookup_insert_ne.
Qed.

(** X9. [UpgradePooled] resets the lexer taken from the pool: whatever
    cursors, tokens and elided types that lexer held, the result is the
    one [Upgrade] gives. *)
Theorem UpgradePooled_is_Upgrade {L : Type} (next : LexerNext L) (fuel : nat) (lex : L)
  (r : PeekingLexer) (elided : list TokenType) :
  UpgradePooled next fuel lex r elided = Upgrade next fuel lex elided.
Proof.
  unfold UpgradePooled, Upgrade. rewrite take_0. do 2 f_equal.
  apply map_eq. intros k. rewrite map_fold_delete_all, lookup_empty.
  by destruct (elide r !! k).
Qed.

(** ** reference *)

(** X10. [reference.Parse] on a context whose raw cursor is an index of
    an array ending in EOF. Let [token] at index [cur] be what [PeekAny]
    finds with the predicate "has the type of the reference"; it is the
    token at the raw cursor itself when that token has the type, elided
    or not. If [token] has the type of the reference, the lexer is
    fast-forwarded to [cur] (the raw cursor is just past the token, or
    on it if it is EOF; the token is counted unless elided or EOF) and
    the one value is the text of the token; otherwise the result is
    no-match and the context is unchanged. *)
Theorem reference_Parse_spec (r : reference) (ctx : parseContext) (parent : rvalue) :
  ends_with_EOF (tokens (lexer ctx)) →
  0 <= rawCursor (checkpoint (lexer ctx)) < Z.of_nat (length (tokens (lexer ctx))) →
  ∃ token cur,
    PeekAny (lexer ctx) (fun t => Type_ t =? ref_typ r) = Ok (token, cur)
    ∧ index (tokens (lexer ctx)) cur = Ok token
    ∧ (∀ t0, RawPeek (lexer ctx) = Ok t0 → Type_ t0 = ref_typ r →
             token = t0 ∧ cur = rawCursor (checkpoint (lexer ctx)))
    ∧ (Type_ token = ref_typ r →
       ∃ p', FastForward (lexer ctx) cur = Ok p'
         ∧ reference_Parse r ctx parent
           = Ok (Some [ValueOf_string (Value token)], None, with_lexer ctx p')
         ∧ rawCursor (checkpoint p') = (if Token_EOF token then cur else cur + 1)
         ∧ cursor (checkpoint p')
           = (if Token_EOF token || map_get (elide (lexer ctx)) (Type_ token)
              then Cursor ctx else Cursor ctx + 1)
         ∧ lexer_inv p')
    ∧ (Type_ token ≠ ref_typ r → reference_Parse r ctx parent = Ok (None, None, ctx)).
Proof.
  intros Hend Hraw.
  destruct (PeekAny_in_bounds (lexer ctx) (fun t => Type_ t =? ref_typ r) Hend Hraw)
    as (token & cur & HP & Hidx & _).
  exists token, cur. split; [done|]. split; [done|]. split; [|split].
  - intros t0 Ht0 Hty. unfold RawPeek in Ht0.
    apply index_Ok in Ht0 as [_ Ht0].
    unfold PeekAny, tokens_from in HP.
    destruct (Z.ltb_spec (rawCursor (checkpoint (lexer ctx))) 0); [lia|].
    rewrite (drop_S _ _ _ Ht0) in HP. simpl in HP.
    apply Z.eqb_eq in Hty. rewrite Hty, orb_true_r in HP. simpl in HP.
    by injection HP as <- <-.
  - intros Hty. unfold reference_Parse. rewrite HP. simpl.
    apply Z.eqb_eq in Hty. rewrite Hty. simpl.
    destruct (FastForward_to_PeekAny _ _ _ _ Hend (proj1 Hraw) HP)
      as (_ & _ & p' & HF & _ & _ & Hr & Hc & Hinv).
    exists p'. by rewrite HF.
  - intros Hty. unfold reference_Parse. rewrite HP. simpl.
    apply Z.eqb_neq in Hty. by rewrite Hty.
Qed.

(** ** lookaheadGroup *)

(** X11. [lookaheadGroup.Parse], whatever its expression does on the
    branch: the context is left exactly as it was and no value is
    captured. For one expression and one context, the positive and the
    negative lookahead are complementary: if the expression matched
    (values not nil, no error) the positive one returns the empty,
    non-nil list and the negative one fails with an
    [UnexpectedTokenError] on the peeked token; otherwise it is the
    other way round. *)
Theorem lookaheadGroup_never_advances (e : node) (ctx : parseContext) (parent : rvalue)
  (out : option (list rvalue)) (err : option Error) (b : parseContext) (t : Token) :
  Parse e (Branch ctx) parent = Ok (out, err, b) →
  Peek (lexer ctx) = Ok t →
  let matched := Ok (Some [], None, ctx) in
  let failed := Ok (None, Some (UnexpectedTokenError t None), ctx) in
  ((out ≠ None ∧ err = None) →
     lookaheadGroup_Parse (mkLookahead e false) ctx parent = matched
     ∧ lookaheadGroup_Parse (mkLookahead e true) ctx parent = failed)
  ∧ ((out = None ∨ err ≠ None) →
     lookaheadGroup_Parse (mkLookahead e false) ctx parent = failed
     ∧ lookaheadGroup_Parse (mkLookahead e true) ctx parent = matched).
Proof.
  intros HP Hpeek matched failed. unfold lookaheadGroup_Parse. simpl.
  rewrite HP. simpl. rewrite Hpeek. simpl.
  split.
  - intros [Hout ->]. by destruct out.
  - intros Hor. destruct out as [vs|], err as [e'|]; try done. by destruct Hor.
Qed.

(** ** sequence *)

Lemma sequence_cells_cons (s : sequence) (c : node * string) (rest : list (node * string)) :
  sequence_cells s = c :: rest →
  ∃ h next, s = mkSequence h c.1 c.2 next
            ∧ rest = match next with None => [] | Some s' => sequence_cells s' end.
Proof. destruct s as [h nd l next]. simpl. intros [= <- <-]. by exists h, next. Qed.

(** The loop of [sequence.Parse] passes the cells that match. *)
Lemma sequence_loop_prefix (parent : rvalue) (pre : list (node * string)) :
  ∀ (s : sequence) (first : bool) (ctx ctx1 : parseContext)
    (out : option (list rvalue)) (vs vs1 : list rvalue)
    (c : node * string) (post : list (node * string)),
    pre ≠ [] →
    sequence_cells s = pre ++ c :: post →
    chain_matches parent pre ctx vs ctx1 vs1 →
    (out = None ∧ vs = [] ∨ out = Some vs) →
    ∃ s1, sequence_cells s1 = c :: post
          ∧ sequence_loop s first ctx parent out
            = sequence_loop s1 false ctx1 parent (Some vs1).
Proof.
  induction pre as [|c0 pre IH]; intros s first ctx ctx1 out vs vs1 c post Hne Hcells Hch Hout;
    [done|].
  destruct (sequence_cells_cons s c0 (pre ++ c :: post) Hcells) as (h & next & -> & Hrest).
  inversion Hch as [|nd l rest ctx0 vs0 v ctxa ctx' vs' HP Hch']; subst. simpl.
  rewrite HP. simpl.
  assert (Hout2 : match go_append out (Some v) with
                  | None => Some []
                  | Some o => Some o
                  end = Some (vs ++ v)).
  { destruct Hout as [[-> ->] | ->]; simpl; [by destruct v | done]. }
  destruct (go_append out (Some v)) as [o|] eqn:Ego;
    [injection Hout2 as -> | clear Hout2].
  - destruct next as [s'|]; [|by destruct pre].
    destruct pre as [|c1 pre].
    + inversion Hch'; subst. by exists s'.
    + by apply (IH s' false ctxa ctx1 (Some (vs ++ v)) (vs ++ v) vs1 c post);
        [ | | | right].
  - destruct next as [s'|]; [|by destruct pre].
    assert (Hv : vs ++ v = []).
    { destruct Hout as [[-> ->] | ->]; simpl in Ego; [by destruct v | done]. }
    destruct pre as [|c1 pre].
    + inversion Hch'; subst. exists s'. by rewrite Hv.
    + rewrite <- Hv.
      by apply (IH s' false ctxa ctx1 (Some (vs ++ v)) (vs ++ v) vs1 c post);
        [ | | | right].
Qed.

(** X12. [sequence.Parse] on the cells of a sequence, run one after the
    other on the one context.
    - If the first node does not match, the sequence does not match.
    - If every node matches, the result is the values of all nodes in
      order, in a list that is not nil even when it is empty.
    - If a node after the first does not match, the sequence fails with
      an [UnexpectedTokenError] on the token peeked there, which names
      the cell, and returns the values so far.
    - If a node fails, the sequence returns its error, with the values
      so far followed by the values of the node. *)
Theorem sequence_Parse_spec (s : sequence) (ctx : parseContext) (parent : rvalue) :
  (∀ nd label rest ctx1,
     sequence_cells s = (nd, label) :: rest →
     Parse nd ctx parent = Ok (None, None, ctx1) →
     sequence_Parse s ctx parent = Ok (None, None, ctx1))
  ∧ (∀ ctx' vs,
       chain_matches parent (sequence_cells s) ctx [] ctx' vs →
       sequence_Parse s ctx parent = Ok (Some vs, None, ctx'))
  ∧ (∀ pre nd label post ctx1 vs ctx2 t,
       sequence_cells s = pre ++ (nd, label) :: post → pre ≠ [] →
       chain_matches parent pre ctx [] ctx1 vs →
       Parse nd ctx1 parent = Ok (None, None, ctx2) →
       Peek (lexer ctx2) = Ok t →
       sequence_Parse s ctx parent
       = Ok (Some vs, Some (UnexpectedTokenError t (Some label)), ctx2))
  ∧ (∀ pre nd label post ctx1 vs child e ctx2,
       sequence_cells s = pre ++ (nd, label) :: post →
       chain_matches parent pre ctx [] ctx1 vs →
       Parse nd ctx1 parent = Ok (child, Some e, ctx2) →
       sequence_Parse s ctx parent
       = Ok (go_append (match pre with [] => None | _ => Some vs end) child,
             Some e, ctx2)).
Proof.
  unfold sequence_Parse. split; [|split; [|split]].
  - intros nd label rest ctx1 Hcells HP.
    destruct (sequence_cells_cons s _ _ Hcells) as (h & next & -> & _). simpl.
    by rewrite HP.
  - intros ctx' vs Hch.
    destruct (sequence_cells s) as [|c cells] eqn:Hcells; [by destruct s|].
    destruct (list_eq_nil_dec cells) as [-> | Hne].
    + destruct (sequence_cells_cons s _ _ Hcells) as (h & next & -> & Hrest).
      destruct next; [by destruct s|].
      inversion Hch as [|nd l rest ctx0 vs0 v ctxa ctx'' vs' HP Hch']; subst.
      inversion Hch'; subst. simpl. rewrite HP. simpl. by destruct v.
    + destruct (exists_last Hne) as (pre & c1 & ->).
      assert (Hsplit : ∃ ctx1 vs1 v,
                 chain_matches parent (c :: pre) ctx [] ctx1 vs1
                 ∧ Parse c1.1 ctx1 parent = Ok (Some v, None, ctx')
                 ∧ vs = vs1 ++ v).
      { clear Hcells Hne. revert Hch. generalize (@nil rvalue) as vs0. revert ctx.
        change (c :: pre ++ [c1]) with ((c :: pre) ++ [c1]).
        induction (c :: pre) as [|c0 l IH]; intros ctx vs0 Hch; simpl in Hch.
        - inversion Hch as [|nd lb rest ctx0 vs0' v ctxa ctx'' vs' HP Hch']; subst.
          inversion Hch'; subst. exists ctx, vs0, v. split; [constructor | done].
        - inversion Hch as [|nd lb rest ctx0 vs0' v ctxa ctx'' vs' HP Hch']; subst.
          destruct (IH _ _ Hch') as (ctx1 & vs1 & v1 & Hch1 & HP1 & ->).
          exists ctx1, vs1, v1. split; [by econstructor | done]. }
      destruct Hsplit as (ctx1 & vs1 & v & Hch1 & HP1 & ->).
      destruct (sequence_loop_prefix parent (c :: pre) s true ctx ctx1 None [] vs1 c1 [])
        as (s1 & Hs1 & ->); [done | by rewrite Hcells | done | by left |].
      destruct (sequence_cells_cons s1 _ _ Hs1) as (h & next & -> & Hrest).
      destruct next; [by destruct s0|].
      simpl. rewrite HP1. by simpl.
  - intros pre nd label post ctx1 vs ctx2 t Hcells Hne Hch HP Hpeek.
    destruct (sequence_loop_prefix parent pre s true ctx ctx1 None [] vs (nd, label) post)
      as (s1 & Hs1 & ->); [done | done | done | by left |].
    destruct (sequence_cells_cons s1 _ _ Hs1) as (h & next & -> & _).
    simpl. rewrite HP. simpl. by rewrite Hpeek.
  - intros pre nd label post ctx1 vs child e ctx2 Hcells Hch HP.
    destruct pre as [|c pre].
    + inversion Hch; subst.
      destruct (sequence_cells_cons s _ _ Hcells) as (h & next & -> & _).
      simpl. by rewrite HP.
    + destruct (sequence_loop_prefix parent (c :: pre) s true ctx ctx1 None [] vs
                  (nd, label) post) as (s1 & Hs1 & ->); [done | done | done | by left |].
      destruct (sequence_cells_cons s1 _ _ Hs1) as (h & next & -> & _).
      simpl. by rewrite HP.
Qed.

(** ** group, the other modes *)

(** X13. A group [( <expr> )!] never returns an empty match: when it
    returns without error, its values are those of the expression and
    there is at least one; when the expression returns without error
    and without a value (no-match included), the group fails with
    "cannot be empty" at the position of the peeked token. *)
Theorem group_NonEmpty_never_empty (g : group) (ctx : parseContext) (parent : rvalue) :
  g_mode g = groupMatchNonEmpty →
  (∀ out ctx',
     group_Parse g ctx parent = Ok (out, None, ctx') →
     (∃ v vs, out = Some (v :: vs))
     ∧ Parse (g_expr g) ctx parent = Ok (out, None, ctx'))
  ∧ (∀ out ctx1 t,
       Parse (g_expr g) ctx parent = Ok (out, None, ctx1) →
       go_len out = 0 →
       Peek (lexer ctx1) = Ok t →
       group_Parse g ctx parent
       = Ok (out, Some (Errorf (Pos t) (MsgCannotBeEmpty (g_String g))), ctx1)).
Proof.
  intros Hmode. unfold group_Parse. rewrite Hmode. split.
  - intros out ctx'.
    destruct (Parse (g_expr g) ctx parent) as [[[out1 [e|]] ctx1]|]; simpl; try done.
    destruct (Z.eqb_spec (go_len out1) 0) as [H0|Hne].
    + destruct (Peek (lexer ctx1)); simpl; discriminate.
    + intros [= <- <-]. split; [|done].
      destruct out1 as [[|v vs]|]; simpl in Hne; try done. by exists v, vs.
  - intros out ctx1 t HP H0 Hpeek. rewrite HP. simpl. rewrite H0. simpl.
    by rewrite Hpeek.
Qed.

(** X14. What a successful group means. A group [( <expr> )?] or
    [( <expr> )*] that returns without error returns values that are
    not nil: it never reports no-match. A group [( <expr> )+] returns
    without error only if its expression matched, on a branch of the
    context the group started with. *)
Theorem group_success_means_match (g : group) (ctx ctx' : parseContext)
  (parent : rvalue) (out : option (list rvalue)) :
  group_Parse g ctx parent = Ok (out, None, ctx') →
  (g_mode g = groupMatchZeroOrOne ∨ g_mode g = groupMatchZeroOrMore → out ≠ None)
  ∧ (g_mode g = groupMatchOneOrMore →
     ∃ v b, Parse (g_expr g) (Branch ctx) parent = Ok (Some v, None, b)).
Proof.
  intros H. split.
  - intros Hmode. unfold group_Parse in H.
    destruct Hmode as [E | E]; rewrite E in H; cbv beta iota zeta in H;
      [change (group_min groupMatchZeroOrOne) with 0 in H
      |change (group_min groupMatchZeroOrMore) with 0 in H];
      (destruct (group_loop _ _ _ _ _ _) as [[o e c | m o c]|]; simpl in H; try done;
       destruct (Peek (lexer c)); simpl in H; [|done];
       destruct (MaxIterations <=? m); [done|]; destruct (m <? 0); [done|];
       destruct o; simpl in H; by injection H as <- <-).
  - intros Hmode. unfold group_Parse in H. rewrite Hmode in H. simpl in H.
    destruct (Z.to_nat MaxIterations) as [|fuel] eqn:Efuel; simpl in H.
    + destruct (Peek (lexer ctx)); simpl in H; [|done].
      destruct (Z.leb_spec MaxIterations 0); [done | lia].
    + destruct (Parse (g_expr g) (Branch ctx) parent) as [[[v [e|]] b]|]; simpl in H;
        try done.
      * destruct (Stop (MaybeUpdateError ctx e) e b); simpl in H; [done|].
        destruct (Peek _); simpl in H; [|done].
        by destruct (MaxIterations <=? 0).
      * destruct v as [v|]; [by exists v, b|]. simpl in H.
        destruct (Peek _); simpl in H; [|done].
        by destruct (MaxIterations <=? 0).
Qed.

(** X15. A group [( <expr> )?], run once on a branch of the context.
    With [1 < MaxIterations]: if the expression matches, the group
    returns its values and the context has accepted the branch; if the
    expression does not match or fails recoverably, the group returns
    the empty list that is not nil. If the expression fails and [Stop]
    holds, the group returns its values and error. And the limit counts
    the one iteration: with [MaxIterations <= 1] a group whose
    expression matches fails with the iteration-limit error. *)
Theorem group_ZeroOrOne_spec (g : group) (ctx : parseContext) (parent : rvalue) :
  g_mode g = groupMatchZeroOrOne →
  (∀ vs b t,
     Parse (g_expr g) (Branch ctx) parent = Ok (Some vs, None, b) →
     Peek (lexer (Accept ctx b)) = Ok t →
     (1 < MaxIterations → group_Parse g ctx parent = Ok (Some vs, None, Accept ctx b))
     ∧ (MaxIterations <= 1 →
        group_Parse g ctx parent
        = Ok (None,
              Some (Errorf (Pos t) (MsgTooManyIterations (g_String g) MaxIterations)),
              Accept ctx b)))
  ∧ (∀ ctx2 t,
       0 < MaxIterations →
       iteration_breaks (g_expr g) parent ctx ctx2 →
       Peek (lexer ctx2) = Ok t →
       group_Parse g ctx parent = Ok (Some [], None, ctx2))
  ∧ (∀ v e b,
       Parse (g_expr g) (Branch ctx) parent = Ok (v, Some e, b) →
       Stop (MaybeUpdateError ctx e) e b = true →
       group_Parse g ctx parent = Ok (go_append None v, Some e, MaybeUpdateError ctx e)).
Proof.
  intros Hmode. unfold group_Parse. rewrite Hmode. simpl. split; [|split].
  - intros vs b t HP Hpeek. rewrite HP. simpl. rewrite Hpeek. simpl. split; intros HM.
    + destruct (Z.leb_spec MaxIterations (0 + 1)); [lia|]. by destruct vs.
    + by destruct (Z.leb_spec MaxIterations (0 + 1)); [|lia].
  - intros ctx2 t HM Hbr Hpeek.
    destruct Hbr as [(b & HP & ->) | (v & e & b & HP & Hs & ->)]; rewrite HP; simpl.
    + simpl in Hpeek. rewrite Hpeek. simpl.
      by destruct (Z.leb_spec MaxIterations 0); [lia|].
    + rewrite Hs. simpl. rewrite Hpeek. simpl.
      by destruct (Z.leb_spec MaxIterations 0); [lia|].
  - intros v e b HP Hs. rewrite HP. simpl. by rewrite Hs.
Qed.

(** ** disjunction, the fatal cases *)

(** X16. [disjunction.Parse] stops at the first alternative that decides
    the result, whatever the alternatives after it would do. After
    alternatives that did not match or failed recoverably: an
    alternative that fails with [Stop] holding ends the call with its
    values and its error; an alternative that matches with the raw
    cursor of its branch still at that of the context, on a token that
    is not EOF, makes the call panic. *)
Theorem disjunction_fatal_or_panic (d : disjunction) (ctx : parseContext)
  (parent : rvalue) (pre post : list node) (a : node) :
  d_nodes d = pre ++ a :: post →
  Forall (alt_skipped ctx parent) pre →
  (∀ v e b,
     Parse a (Branch ctx) parent = Ok (v, Some e, b) → Stop ctx e b = true →
     ∃ ctx', disjunction_Parse d ctx parent = Ok (v, Some e, ctx'))
  ∧ (∀ v b bt ct,
       Parse a (Branch ctx) parent = Ok (Some v, None, b) →
       RawPeek (lexer b) = Ok bt → RawPeek (lexer ctx) = Ok ct →
       rawCursor (checkpoint (lexer b)) = rawCursor (checkpoint (lexer ctx)) →
       Type_ bt ≠ EOF →
       disjunction_Parse d ctx parent = Panic).
Proof.
  intros Hd Hpre. unfold disjunction_Parse. rewrite Hd. clear Hd.
  enough (Hloop : ∀ D fe fv,
    (∀ v e b,
       Parse a (Branch ctx) parent = Ok (v, Some e, b) → Stop ctx e b = true →
       ∃ ctx', disjunction_loop (pre ++ a :: post) ctx parent D fe fv
               = Ok (v, Some e, ctx'))
    ∧ (∀ v b bt ct,
         Parse a (Branch ctx) parent = Ok (Some v, None, b) →
         RawPeek (lexer b) = Ok bt → RawPeek (lexer ctx) = Ok ct →
         rawCursor (checkpoint (lexer b)) = rawCursor (checkpoint (lexer ctx)) →
         Type_ bt ≠ EOF →
         disjunction_loop (pre ++ a :: post) ctx parent D fe fv = Panic))
    by apply Hloop.
  induction Hpre as [|a0 pre Ha0 _ IH]; intros D fe fv; simpl.
  - split.
    + intros v e b HP Hs. rewrite HP. simpl. rewrite Hs. eexists. reflexivity.
    + intros v b bt ct HP Hbt Hct Hraw Hne. rewrite HP. simpl. rewrite Hbt, Hct. simpl.
      apply Z.eqb_eq in Hraw. apply Z.eqb_neq in Hne. by rewrite Hraw, Hne.
  - destruct Ha0 as [[b0 H0] | (v0 & e0 & b0 & H0 & Hs0)]; rewrite H0; simpl.
    + apply IH.
    + rewrite Hs0. destruct (D <=? Cursor b0); apply IH.
Qed.

(** ** What every node keeps *)

Lemma advances_same_lexer (ctx ctx' : parseContext) :
  ctx_ok ctx → lexer ctx' = lexer ctx → advances ctx ctx'.
Proof.
  intros [_ Hinv] E. unfold advances, Cursor. rewrite E.
  do 2 (split; [done|]). split; [lia|]. split; [lia | done].
Qed.

Lemma advances_trans (ctx1 ctx2 ctx3 : parseContext) :
  advances ctx1 ctx2 → advances ctx2 ctx3 → advances ctx1 ctx3.
Proof.
  intros (Ht1 & He1 & Hr1 & Hc1 & _) (Ht2 & He2 & Hr2 & Hc2 & Hinv).
  unfold advances. rewrite Ht2, He2.
  do 2 (split; [done|]). split; [lia|]. split; [lia | done].
Qed.

Lemma advances_ctx_ok (ctx ctx' : parseContext) :
  ctx_ok ctx → advances ctx ctx' → ctx_ok ctx'.
Proof. intros [Hend _] (Ht & _ & _ & _ & Hinv). split; [by rewrite Ht | done]. Qed.

Lemma advances_Accept (ctx b : parseContext) :
  advances (Branch ctx) b → advances ctx (Accept ctx b).
Proof. done. Qed.

Lemma FastForward_PeekAny_advances (ctx : parseContext) (f : Token → bool) (t : Token)
  (cur : RawCursor) (p' : PeekingLexer) :
  ctx_ok ctx →
  PeekAny (lexer ctx) f = Ok (t, cur) →
  FastForward (lexer ctx) cur = Ok p' →
  advances ctx (with_lexer ctx p').
Proof.
  intros [Hend Hinv] HP HF.
  pose proof (lexer_inv_valid _ Hinv) as [Hraw _].
  destruct (FastForward_to_PeekAny _ _ _ _ Hend (proj1 Hraw) HP)
    as (_ & Hle & p1 & HF1 & Htok & Hel & Hr & Hc & Hinv1).
  rewrite HF in HF1. injection HF1 as <-.
  unfold advances, Cursor. simpl. do 2 (split; [done|]).
  split; [rewrite Hr; destruct (Token_EOF t); lia|].
  split; [rewrite Hc; destruct (_ || _); lia | done].
Qed.

Lemma literal_node_ok (l : literal) (name : string) : node_ok (literal_node l name).
Proof.
  intros ctx parent out err ctx' Hok. simpl. unfold literal_Parse.
  destruct (PeekAny _ _) as [[t cur]|] eqn:HP; simpl; [|done].
  destruct (literal_match l ctx t).
  - destruct (FastForward _ _) as [p'|] eqn:HF; simpl; [|done].
    intros [= <- <- <-]. by eapply FastForward_PeekAny_advances.
  - intros [= <- <- <-]. by apply advances_same_lexer.
Qed.

Lemma reference_node_ok (r : reference) (name : string) : node_ok (reference_node r name).
Proof.
  intros ctx parent out err ctx' Hok. simpl. unfold reference_Parse.
  destruct (PeekAny _ _) as [[t cur]|] eqn:HP; simpl; [|done].
  destruct (negb _).
  - intros [= <- <- <-]. by apply advances_same_lexer.
  - destruct (FastForward _ _) as [p'|] eqn:HF; simpl; [|done].
    intros [= <- <- <-]. by eapply FastForward_PeekAny_advances.
Qed.

Lemma lookaheadGroup_node_ok (l : lookaheadGroup) (name : string) :
  node_ok (lookaheadGroup_node l name).
Proof.
  intros ctx parent out err ctx' Hok. simpl. unfold lookaheadGroup_Parse.
  destruct (Parse _ _ _) as [[[o e] b]|]; simpl; [|done].
  destruct (negb _).
  - destruct (Peek _); simpl; [|done]. intros [= <- <- <-]. by apply advances_same_lexer.
  - intros [= <- <- <-]. by apply advances_same_lexer.
Qed.

Lemma negation_node_ok (n : negation) (name : string) : node_ok (negation_node n name).
Proof.
  intros ctx parent out err ctx' Hok. pose proof Hok as [Hend Hinv].
  simpl. unfold negation_Parse.
  destruct (Peek _) as [t|] eqn:Hpeek; simpl; [|done].
  destruct (Token_EOF t) eqn:E.
  { intros [= <- <- <-]. by apply advances_same_lexer. }
  destruct (Parse _ _ _) as [[[o e] b]|]; simpl; [|done].
  assert (HN : ∀ x : result parsed,
             ('(next, p) ← Next (lexer ctx);
              Ok (Some [ValueOf_string (Value next)], None, with_lexer ctx p)) = x →
             x = Ok (out, err, ctx') → advances ctx ctx').
  { intros x <-.
    destruct (Next_spec _ t Hend Hpeek) as [_ Hne].
    destruct (Hne E) as (p' & HN' & Htok & Hel & Hr & Hc & _).
    destruct (Next_inv _ Hend Hinv) as (t1 & p1 & HN1 & _ & _ & Hinv1).
    rewrite HN' in HN1. injection HN1 as <- <-. rewrite HN'.
    simpl. intros [= <- <- <-].
    destruct Hinv as (Hle & _).
    unfold advances, Cursor. simpl.
    do 2 (split; [done|]). split; [lia|]. split; [lia | done]. }
  destruct o as [vs|], e as [e|]; try (by apply HN).
  intros [= <- <- <-]. by apply advances_same_lexer.
Qed.

Lemma sequence_loop_ok (parent : rvalue) :
  ∀ (s : sequence) (first : bool) (ctx ctx' : parseContext)
    (out o : option (list rvalue)) (e : option Error),
    Forall (λ c, node_ok c.1) (sequence_cells s) →
    ctx_ok ctx →
    sequence_loop s first ctx parent out = Ok (o, e, ctx') →
    advances ctx ctx'.
Proof.
  fix IH 1. intros [h nd label next] first ctx ctx' out o e Hcells Hok. simpl.
  apply Forall_cons in Hcells as [Hnd Hrest]. simpl in Hnd.
  destruct (Parse nd ctx parent) as [[[child err] ctx1]|] eqn:HP; simpl; [|done].
  pose proof (Hnd _ _ _ _ _ Hok HP) as Hadv.
  destruct err as [e1|]; [by intros [= <- <- <-]|].
  destruct child as [v|].
  - destruct next as [s'|]; [|by intros [= <- <- <-]].
    intros H. apply (advances_trans _ ctx1); [done|].
    eapply (IH s' false ctx1 ctx'); [exact Hrest | by apply (advances_ctx_ok ctx) | exact H].
  - destruct first; [by intros [= <- <- <-]|].
    destruct (Peek _); simpl; [|done]. by intros [= <- <- <-].
Qed.

Lemma group_loop_ok (expr : node) (parent : rvalue) :
  node_ok expr →
  ∀ (remaining : nat) (ctx : parseContext) (out : option (list rvalue)) (matches : Z)
    (r : loopExit),
    ctx_ok ctx →
    group_loop expr parent remaining ctx out matches = Ok r →
    advances ctx match r with
                 | LoopReturn _ _ ctx' => ctx'
                 | LoopDone _ _ ctx' => ctx'
                 end.
Proof.
  intros Hexpr. induction remaining as [|remaining IH]; intros ctx out matches r Hok; simpl.
  { intros [= <-]. by apply advances_same_lexer. }
  destruct (Parse expr (Branch ctx) parent) as [[[v err] b]|] eqn:HP; simpl; [|done].
  assert (Hb : advances (Branch ctx) b) by exact (Hexpr (Branch ctx) _ _ _ _ Hok HP).
  destruct err as [e|].
  - destruct (Stop _ _ _); intros [= <-]; apply advances_same_lexer; try done;
      unfold MaybeUpdateError; by destruct (_ <? _).
  - destruct v as [v|].
    + intros H. apply (advances_trans _ (Accept ctx b)); [done|].
      eapply (IH (Accept ctx b)); [|exact H].
      apply (advances_ctx_ok ctx); [done | by apply advances_Accept].
    + by intros [= <-].
Qed.

Lemma group_node_ok (g : group) : node_ok (g_expr g) → node_ok (group_node g).
Proof.
  intros Hexpr ctx parent out err ctx' Hok. simpl. unfold group_Parse.
  assert (Hrep : ∀ mn mx,
    (r ← group_loop (g_expr g) parent (Z.to_nat mx) ctx None 0;
     match r with
     | LoopReturn out err ctx1 => Ok (out, Some err, ctx1)
     | LoopDone matches out ctx1 =>
         t ← Peek (lexer ctx1);
         if MaxIterations <=? matches then
           Ok (None,
               Some (Errorf (Pos t) (MsgTooManyIterations (g_String g) MaxIterations)),
               ctx1)
         else if matches <? mn then
           Ok (out, Some (Errorf (Pos t) (MsgMustMatchAtLeastOnce (g_String g))), ctx1)
         else if (mn =? 0) && is_nil out then Ok (Some [], None, ctx1)
         else Ok (out, None, ctx1)
     end) = Ok (out, err, ctx') → advances ctx ctx').
  { intros mn mx.
    destruct (group_loop _ _ _ _ _ _) as [r|] eqn:Hloop; simpl; [|done].
    pose proof (group_loop_ok _ _ Hexpr _ _ _ _ _ Hok Hloop) as Hadv.
    destruct r as [o e c | m o c]; [by intros [= <- <- <-]|].
    destruct (Peek _); simpl; [|done].
    destruct (_ <=? _); [by intros [= <- <- <-]|].
    destruct (_ <? _); [by intros [= <- <- <-]|].
    destruct (_ && _); by intros [= <- <- <-]. }
  destruct (g_mode g); try apply Hrep.
  - apply (Hexpr _ _ _ _ _ Hok).
  - destruct (Parse _ _ _) as [[[o e] c]|] eqn:HP; simpl; [|done].
    pose proof (Hexpr _ _ _ _ _ Hok HP) as Hadv.
    destruct e; [by intros [= <- <- <-]|].
    destruct (_ =? _); [|by intros [= <- <- <-]].
    destruct (Peek _); simpl; [|done]. by intros [= <- <- <-].
Qed.

Lemma disjunction_loop_ok (nodes : list node) (ctx ctx' : parseContext) (parent : rvalue)
  (D : Z) (fe e : option Error) (fv o : option (list rvalue)) :
  Forall node_ok nodes → ctx_ok ctx →
  disjunction_loop nodes ctx parent D fe fv = Ok (o, e, ctx') →
  advances ctx ctx'.
Proof.
  intros Hall Hok. revert D fe fv.
  induction Hall as [|a nodes Ha _ IH]; intros D fe fv; simpl.
  - destruct fe; intros [= <- <- <-]; apply advances_same_lexer; try done.
    unfold MaybeUpdateError. by destruct (_ <? _).
  - destruct (Parse a (Branch ctx) parent) as [[[v err] b]|] eqn:HP; simpl; [|done].
    assert (Hb : advances (Branch ctx) b) by exact (Ha (Branch ctx) _ _ _ _ Hok HP).
    destruct err as [e1|].
    + destruct (Stop _ _ _); [intros [= <- <- <-]; by apply advances_same_lexer|].
      destruct (_ <=? _); apply IH.
    + destruct v as [v|]; [|apply IH].
      destruct (RawPeek (lexer b)) as [bt|]; simpl; [|done].
      destruct (RawPeek (lexer ctx)) as [ct|]; simpl; [|done].
      destruct (_ && _); [done|]. intros [= <- <- <-]. by apply advances_Accept.
Qed.

(** X17. Whenever [Parse] of a node returns, from a context whose lexer
    satisfies the cursor invariant on an array ending in EOF, it leaves
    a context with the same tokens and elision map, in which neither the
    raw cursor nor the count of non-elided tokens has moved backward and
    the cursor invariant holds. This is so for every literal, reference,
    lookahead and negation, and for a sequence, a group and a
    disjunction of nodes for which it is so. *)
Theorem Parse_keeps_lexer_invariant :
  (∀ l name, node_ok (literal_node l name))
  ∧ (∀ r name, node_ok (reference_node r name))
  ∧ (∀ l name, node_ok (lookaheadGroup_node l name))
  ∧ (∀ n name, node_ok (negation_node n name))
  ∧ (∀ s name, Forall (λ c, node_ok c.1) (sequence_cells s) →
               node_ok (sequence_node s name))
  ∧ (∀ g, node_ok (g_expr g) → node_ok (group_node g))
  ∧ (∀ d name, Forall node_ok (d_nodes d) → node_ok (disjunction_node d name)).
Proof.
  split; [exact literal_node_ok|]. split; [exact reference_node_ok|].
  split; [exact lookaheadGroup_node_ok|]. split; [exact negation_node_ok|].
  split; [|split; [exact group_node_ok|]].
  - intros s name Hcells ctx parent out err ctx' Hok H.
    by apply (sequence_loop_ok parent s true ctx ctx' None out err).
  - intros d name Hall ctx parent out err ctx' Hok H.
    by apply (disjunction_loop_ok (d_nodes d) ctx ctx' parent 0 None err None out).
Qed.

(** ** The field binder, the other fields *)

Lemma FieldByIndex_store (idx : list nat) (v v' f new : rvalue) :
  FieldByIndex v idx = Ok f → store_FieldByIndex v idx new = Ok v' →
  FieldByIndex v' idx = Ok new.
Proof.
  revert v v'. induction idx as [|i idx IH]; intros v v' Hf Hs; simpl in *.
  - by injection Hs as ->.
  - destruct v; try discriminate.
    destruct (fields !! i) as [fi|] eqn:E; [|discriminate].
    destruct (store_FieldByIndex fi idx new) as [fi'|] eqn:Es; simpl in Hs; [|discriminate].
    injection Hs as <-. simpl.
    rewrite list_lookup_insert_eq by (by apply lookup_lt_Some in E).
    by apply (IH fi).
Qed.

Lemma store_FieldByIndex_twice (idx : list nat) (v v1 a b : rvalue) :
  store_FieldByIndex v idx a = Ok v1 →
  store_FieldByIndex v1 idx b = store_FieldByIndex v idx b.
Proof.
  revert v v1. induction idx as [|i idx IH]; intros v v1 Hs; simpl in *; [done|].
  destruct v; try discriminate.
  destruct (fields !! i) as [fi|] eqn:E; [|discriminate].
  destruct (store_FieldByIndex fi idx a) as [fi'|] eqn:Es; simpl in Hs; [|discriminate].
  injection Hs as <-. simpl.
  rewrite list_lookup_insert_eq by (by apply lookup_lt_Some in E).
  rewrite (IH fi fi' Es).
  destruct (store_FieldByIndex fi idx b); simpl; [|done].
  by rewrite list_insert_insert_eq.
Qed.

(** Storing a field keeps the type of the record, whether it is
    addressable, and its other fields. *)
Lemma store_FieldByIndex_frame (i : nat) (idx : list nat) (v v' new : rvalue) :
  store_FieldByIndex v (i :: idx) new = Ok v' →
  Value_Type v' = Value_Type v ∧ Value_CanAddr v' = Value_CanAddr v
  ∧ ∃ t a fs fs', v = VStruct t a fs ∧ v' = VStruct t a fs'
                  ∧ length fs' = length fs
                  ∧ ∀ j, j ≠ i → fs' !! j = fs !! j.
Proof.
  simpl. destruct v; try discriminate.
  destruct (fields !! i) as [fi|] eqn:E; [|discriminate].
  destruct (store_FieldByIndex fi idx new) as [fi'|]; simpl; [|discriminate].
  intros [= <-]. do 2 (split; [done|]).
  exists t, addressable, fields, (<[i := fi']> fields).
  do 2 (split; [done|]). split; [by rewrite length_insert|].
  intros j Hj. by rewrite list_lookup_insert_ne.
Qed.

(** [setField] on a field that is not a pointer. *)
Lemma setField_at (toks : list Token) (strct f : rvalue) (field : structLexerField)
  (fieldValue : list rvalue) :
  FieldByIndex strct (field_Index field) = Ok f →
  Value_Kind f ≠ Ptr →
  setField toks strct field fieldValue
  = ('(f', err) ← setField_value toks (Value_CanAddr strct) f field fieldValue;
     strct' ← store_FieldByIndex strct (field_Index field) f';
     Ok (strct', decorate err (String.append (Type_Name (Value_Type strct))
                                 (String.append "." (field_Name field))))).
Proof.
  intros Hf Hptr. unfold setField. rewrite Hf. simpl.
  by rewrite (bool_decide_eq_false_2 _ Hptr).
Qed.

(** X18. A field of a numeric kind is never incremented: what
    [setField] leaves in it is decided by [conform] alone. For a field
    of an integer, unsigned or float kind that is not a pointer and has
    no hook, whatever values were captured and whatever the field held,
    when [setField] returns: if [conform], given the type of the field
    and the captured values (coalesced into one string when there are
    several), returned an error, the record is as it was and the error
    is that one, decorated; if it returned no value, the record is as it
    was and the call returned nil; and if it returned values, the first
    of them has the type of the field, the record is the former one with
    this value stored in the field, and the call returned nil. *)
Theorem setField_numeric_never_increments (toks : list Token) (strct strct' f : rvalue)
  (field : structLexerField) (fieldValue : list rvalue) (err : option Error) :
  FieldByIndex strct (field_Index field) = Ok f →
  is_int_kind (Value_Kind f) || is_uint_kind (Value_Kind f)
  || is_float_kind (Value_Kind f) = true →
  implementsCapture (PtrTo (Value_Type f)) = false →
  implementsTextUnmarshaler (PtrTo (Value_Type f)) = false →
  (∀ w w', convertOther w (Value_Type f) = Ok w' → Value_Type w' = Value_Type f) →
  setField toks strct field fieldValue = Ok (strct', err) →
  match conform (Value_Type f) (coalesced fieldValue) with
  | Ok (_, Some e) =>
      strct' = strct
      ∧ err = decorate (Some e) (String.append (Type_Name (Value_Type strct))
                                   (String.append "." (field_Name field)))
  | Ok ([], None) => strct' = strct ∧ err = None
  | Ok (fv :: _, None) =>
      Value_Type fv = Value_Type f
      ∧ store_FieldByIndex strct (field_Index field) fv = Ok strct'
      ∧ FieldByIndex strct' (field_Index field) = Ok fv
      ∧ err = None
  | Panic => False
  end.
Proof.
  intros Hf Hk Hcap Hun Hother H.
  rewrite (setField_plain toks strct f _ _ Hf (numeric_field_plain f Hk Hcap Hun)) in H.
  pose proof (setField_scalar_numeric (Value_CanAddr strct) f field fieldValue Hk Hother)
    as Hsc.
  destruct (conform (Value_Type f) (coalesced fieldValue)) as [[out [e|]]|].
  - destruct out; rewrite Hsc in H; simpl in H;
      rewrite (store_FieldByIndex_same _ _ _ Hf) in H; simpl in H;
      by injection H as <- <-.
  - destruct out as [|fv out].
    + rewrite Hsc in H. simpl in H. rewrite (store_FieldByIndex_same _ _ _ Hf) in H.
      simpl in H. by injection H as <- <-.
    + destruct Hsc as [Hty Hsc]. rewrite Hsc in H. unfold Value_Set in H.
      destruct (Value_CanAddr strct); simpl in H; [|discriminate].
      destruct (store_FieldByIndex strct (field_Index field) fv) as [s'|] eqn:Hst;
        simpl in H; [|discriminate].
      injection H as <- <-. split; [done|]. split; [done|].
      split; [by apply (FieldByIndex_store _ strct _ f) | done].
  - rewrite Hsc in H. discriminate.
Qed.

(** [conform] of captured strings to a type of kind String: each one
    becomes a string of that type. *)
Lemma conform_loop_strings (t : rtype) (ss : list string) (out : list rvalue) :
  Type_Kind t = String →
  conform_loop t (map ValueOf_string ss) out = Ok (out ++ map (VString t) ss, None).
Proof.
  intros Hk. revert out. induction ss as [|s ss IH]; intros out; simpl.
  { by rewrite app_nil_r. }
  unfold Value_Kind. simpl. rewrite Hk. simpl. rewrite ?andb_false_r. simpl.
  destruct (bool_decide (stringType = t)) eqn:Et; simpl.
  - apply bool_decide_eq_true_1 in Et. rewrite IH, <- app_assoc. by rewrite <- Et.
  - by rewrite IH, <- app_assoc.
Qed.

Lemma foldl_Value_String (t : rtype) (ss : list string) (s0 : string) :
  foldl (fun acc v => String.append acc (Value_String v)) s0 (map (VString t) ss)
  = foldl String.append s0 ss.
Proof. revert s0. induction ss as [|s ss IH]; intros s0; simpl; [done | apply IH]. Qed.

(** One call of [setField] on a string field. *)
Lemma setField_string (toks : list Token) (strct : rvalue) (field : structLexerField)
  (t : rtype) (s0 : string) (ss : list string) :
  FieldByIndex strct (field_Index field) = Ok (VString t s0) →
  Type_Kind t = String →
  Value_CanAddr strct = true →
  implementsCapture (PtrTo t) = false →
  implementsTextUnmarshaler (PtrTo t) = false →
  ∃ strct',
    setField toks strct field (map ValueOf_string ss) = Ok (strct', None)
    ∧ FieldByIndex strct' (field_Index field)
      = Ok (VString t (foldl String.append s0 ss))
    ∧ Value_CanAddr strct' = true.
Proof.
  intros Hf Hk Haddr Hcap Hun.
  rewrite (setField_at toks strct (VString t s0)) by (done || (unfold Value_Kind; simpl; by rewrite Hk)).
  unfold setField_value, Value_Kind. simpl. rewrite Hk, Haddr, Hcap, Hun. simpl.
  rewrite (bool_decide_eq_false_2 (t = tokenType))
    by (intros ->; discriminate).
  rewrite (bool_decide_eq_false_2 (t = tokensType))
    by (intros ->; discriminate).
  unfold conform. rewrite (conform_loop_strings t ss [] Hk). simpl.
  destruct ss as [|s ss]; simpl.
  - rewrite (store_FieldByIndex_same _ _ _ Hf). simpl. by exists strct.
  - rewrite foldl_Value_String.
    destruct (store_FieldByIndex_Ok _ _ _ (VString t (foldl String.append (String.append s0 s) ss)) Hf)
      as [strct' Hs].
    rewrite Hs. simpl. exists strct'. split; [done|].
    split; [by apply (FieldByIndex_store _ strct _ (VString t s0))|].
    destruct (field_Index field) as [|i idx]; [|by destruct (store_FieldByIndex_frame _ _ _ _ _ Hs) as (_ & -> & _)].
    simpl in Hf. injection Hf as ->. discriminate.
Qed.

(** X19. A string field accumulates what is captured: [setField] with
    captured strings, on a string field without hook of an addressable
    record, returns nil and leaves in the field its former text followed
    by the captured strings in order. So two calls in a row do what one
    call with all the strings does. *)
Theorem setField_string_appends (toks1 toks2 toks : list Token) (strct : rvalue)
  (field : structLexerField) (t : rtype) (s0 : string) (ss1 ss2 : list string) :
  FieldByIndex strct (field_Index field) = Ok (VString t s0) →
  Type_Kind t = String →
  Value_CanAddr strct = true →
  implementsCapture (PtrTo t) = false →
  implementsTextUnmarshaler (PtrTo t) = false →
  ∃ strct1 strct2,
    setField toks1 strct field (map ValueOf_string ss1) = Ok (strct1, None)
    ∧ setField toks2 strct1 field (map ValueOf_string ss2) = Ok (strct2, None)
    ∧ FieldByIndex strct2 (field_Index field)
      = Ok (VString t (foldl String.append s0 (ss1 ++ ss2)))
    ∧ ∃ strct3,
        setField toks strct field (map ValueOf_string (ss1 ++ ss2)) = Ok (strct3, None)
        ∧ FieldByIndex strct3 (field_Index field)
          = FieldByIndex strct2 (field_Index field).
Proof.
  intros Hf Hk Haddr Hcap Hun.
  destruct (setField_string toks1 strct field t s0 ss1 Hf Hk Haddr Hcap Hun)
    as (strct1 & H1 & Hf1 & Haddr1).
  destruct (setField_string toks2 strct1 field t _ ss2 Hf1 Hk Haddr1 Hcap Hun)
    as (strct2 & H2 & Hf2 & _).
  destruct (setField_string toks strct field t s0 (ss1 ++ ss2) Hf Hk Haddr Hcap Hun)
    as (strct3 & H3 & Hf3 & _).
  exists strct1, strct2. do 2 (split; [done|]).
  rewrite foldl_app. split; [done|]. exists strct3. split; [done|].
  by rewrite Hf3, Hf2, foldl_app.
Qed.

Lemma go_append_assoc {A : Type} (e : option (list A)) (l1 l2 : list A) :
  go_append (go_append e (Some l1)) (Some l2) = go_append e (Some (l1 ++ l2)).
Proof.
  destruct e as [e|]; simpl; [by rewrite app_assoc|].
  destruct l1 as [|a l1]; simpl; [by destruct l2 | done].
Qed.

(** One call of [setField] on a slice whose elements are of kind String. *)
Lemma setField_string_slice (toks : list Token) (strct : rvalue)
  (field : structLexerField) (et : rtype) (elems : option (list rvalue))
  (ss : list string) :
  FieldByIndex strct (field_Index field) = Ok (VSlice (SliceOf et) elems) →
  Type_Kind et = String →
  Value_CanAddr strct = true →
  implementsCapture (PtrTo (SliceOf et)) = false →
  implementsTextUnmarshaler (PtrTo (SliceOf et)) = false →
  implementsCapture et = false → implementsCapture (PtrTo et) = false →
  ∃ strct',
    setField toks strct field (map ValueOf_string ss) = Ok (strct', None)
    ∧ FieldByIndex strct' (field_Index field)
      = Ok (VSlice (SliceOf et) (go_append elems (Some (map (VString et) ss))))
    ∧ Value_CanAddr strct' = true.
Proof.
  intros Hf Hk Haddr Hcap Hun Hce Hcpe.
  rewrite (setField_at toks strct (VSlice (SliceOf et) elems)) by done.
  unfold setField_value, Value_Kind. simpl. rewrite Haddr, Hcap, Hun, Hce, Hcpe. simpl.
  rewrite (bool_decide_eq_false_2 (SliceOf et = tokensType))
    by (intros [= ->]; discriminate).
  unfold conform. rewrite (conform_loop_strings et ss [] Hk). simpl.
  set (new := VSlice (SliceOf et) (go_append elems (Some (map (VString et) ss)))).
  destruct (store_FieldByIndex_Ok _ _ _ new Hf) as [strct' Hs].
  rewrite Hs. simpl. exists strct'. split; [done|].
  split; [by apply (FieldByIndex_store _ strct _ (VSlice (SliceOf et) elems))|].
  destruct (field_Index field) as [|i idx];
    [|by destruct (store_FieldByIndex_frame _ _ _ _ _ Hs) as (_ & -> & _)].
  simpl in Hf. injection Hf as ->. discriminate.
Qed.

(** X20. A slice field accumulates what is captured: [setField] with
    captured strings, on a field that is a slice of strings without
    hooks, in an addressable record, returns nil and appends the strings
    to the slice in order (a nil slice stays nil when nothing was
    captured). Two calls in a row leave in the field what one call with
    all the strings leaves. *)
Theorem setField_slice_appends (toks1 toks2 toks : list Token) (strct : rvalue)
  (field : structLexerField) (et : rtype) (elems : option (list rvalue))
  (ss1 ss2 : list string) :
  FieldByIndex strct (field_Index field) = Ok (VSlice (SliceOf et) elems) →
  Type_Kind et = String →
  Value_CanAddr strct = true →
  implementsCapture (PtrTo (SliceOf et)) = false →
  implementsTextUnmarshaler (PtrTo (SliceOf et)) = false →
  implementsCapture et = false → implementsCapture (PtrTo et) = false →
  ∃ strct1 strct2,
    setField toks1 strct field (map ValueOf_string ss1) = Ok (strct1, None)
    ∧ FieldByIndex strct1 (field_Index field)
      = Ok (VSlice (SliceOf et) (go_append elems (Some (map (VString et) ss1))))
    ∧ setField toks2 strct1 field (map ValueOf_string ss2) = Ok (strct2, None)
    ∧ ∃ strct3,
        setField toks strct field (map ValueOf_string (ss1 ++ ss2)) = Ok (strct3, None)
        ∧ FieldByIndex strct3 (field_Index field)
          = FieldByIndex strct2 (field_Index field).
Proof.
  intros Hf Hk Haddr Hcap Hun Hce Hcpe.
  destruct (setField_string_slice toks1 strct field et elems ss1 Hf Hk Haddr Hcap Hun Hce Hcpe)
    as (strct1 & H1 & Hf1 & Haddr1).
  destruct (setField_string_slice toks2 strct1 field et _ ss2 Hf1 Hk Haddr1 Hcap Hun Hce Hcpe)
    as (strct2 & H2 & Hf2 & _).
  destruct (setField_string_slice toks strct field et elems (ss1 ++ ss2)
              Hf Hk Haddr Hcap Hun Hce Hcpe) as (strct3 & H3 & Hf3 & _).
  exists strct1, strct2. do 3 (split; [done|]). exists strct3. split; [done|].
  by rewrite Hf3, Hf2, go_append_assoc, map_app.
Qed.

Lemma conform_loop_ints (t : rtype) (ss : list string) (out : list rvalue) :
  is_int_kind (Type_Kind t) = true →
  conform_loop t (map ValueOf_string ss) out
  = match parse_ints t ss with
    | inl vs => Ok (out ++ vs, None)
    | inr e => Ok ([], Some e)
    end.
Proof.
  intros Hk. revert out. induction ss as [|s ss IH]; intros out; simpl.
  { by rewrite app_nil_r. }
  unfold Value_Kind. simpl.
  assert (Hsize : sizeOfKind (Type_Kind t) = Ok (int_bits (Type_Kind t))).
  { by destruct (Type_Kind t). }
  assert (Hnp : bool_decide (Type_Kind t = Ptr) = false).
  { apply bool_decide_eq_false_2. intros E. by rewrite E in Hk. }
  assert (Hns : bool_decide (String = Type_Kind t) = false).
  { apply bool_decide_eq_false_2. intros E. by rewrite <- E in Hk. }
  rewrite Hnp, !andb_false_r. simpl. rewrite Hns, Hk, Hsize. simpl.
  destruct (ParseInt s 0 _) as [n|e]; [|done].
  rewrite IH. destruct (parse_ints t ss); [|done]. by rewrite <- app_assoc.
Qed.

(** X21. A slice of integers takes all the captured strings or none:
    [setField] on a field that is a slice of an integer kind, without
    hooks, in an addressable record. If every captured string parses,
    the numbers are appended in order and the call returns nil. If one
    does not, the call returns the error of the parser for the first
    such string, decorated, and the record is as it was, the strings
    before it included. *)
Theorem setField_int_slice_all_or_nothing (toks : list Token) (strct : rvalue)
  (field : structLexerField) (et : rtype) (elems : option (list rvalue))
  (ss : list string) :
  FieldByIndex strct (field_Index field) = Ok (VSlice (SliceOf et) elems) →
  is_int_kind (Type_Kind et) = true →
  Value_CanAddr strct = true →
  implementsCapture (PtrTo (SliceOf et)) = false →
  implementsTextUnmarshaler (PtrTo (SliceOf et)) = false →
  implementsCapture et = false → implementsCapture (PtrTo et) = false →
  match parse_ints et ss with
  | inl vs =>
      ∃ strct',
        setField toks strct field (map ValueOf_string ss) = Ok (strct', None)
        ∧ FieldByIndex strct' (field_Index field)
          = Ok (VSlice (SliceOf et) (go_append elems (Some vs)))
  | inr e =>
      setField toks strct field (map ValueOf_string ss)
      = Ok (strct,
            decorate (Some e) (String.append (Type_Name (Value_Type strct))
                                 (String.append "." (field_Name field))))
  end.
Proof.
  intros Hf Hk Haddr Hcap Hun Hce Hcpe.
  rewrite (setField_at toks strct (VSlice (SliceOf et) elems)) by done.
  unfold setField_value, Value_Kind. simpl. rewrite Haddr, Hcap, Hun, Hce, Hcpe. simpl.
  rewrite (bool_decide_eq_false_2 (SliceOf et = tokensType))
    by (intros [= ->]; discriminate).
  unfold conform. rewrite (conform_loop_ints et ss [] Hk).
  destruct (parse_ints et ss) as [vs|e]; simpl.
  - set (new := VSlice (SliceOf et) (go_append elems (Some vs))).
    destruct (store_FieldByIndex_Ok _ _ _ new Hf) as [strct' Hs].
    rewrite Hs. simpl. exists strct'. split; [done|].
    by apply (FieldByIndex_store _ strct _ (VSlice (SliceOf et) elems)).
  - by rewrite (store_FieldByIndex_same _ _ _ Hf).
Qed.

Lemma setField_value_plain (toks : list Token) (can_addr : bool) (f : rvalue)
  (field : structLexerField) (fieldValue : list rvalue) :
  plain_field f →
  setField_value toks can_addr f field fieldValue
  = setField_scalar can_addr f field fieldValue.
Proof.
  intros (Hptr & Htok & Htoks & Hcap & Hun & Hsl & Hstr). unfold setField_value.
  rewrite (bool_decide_eq_false_2 _ Htok), (bool_decide_eq_false_2 _ Htoks).
  rewrite Hcap, Hun, !andb_false_r.
  by rewrite (bool_decide_eq_false_2 _ Hsl), (bool_decide_eq_false_2 _ Hstr).
Qed.

(** [conform] of one captured string to a type of a kind other than
    String: what the kinds give. *)
Lemma conform_one_string (t : rtype) (s : string) :
  Type_Kind t ≠ String → Type_Kind t ≠ Ptr →
  is_int_kind (Type_Kind t) = false → is_uint_kind (Type_Kind t) = false →
  is_float_kind (Type_Kind t) = false →
  conform t [ValueOf_string s]
  = Ok ([if bool_decide (Type_Kind t = Bool) then VBool boolType true
         else ValueOf_string s], None).
Proof.
  intros Hs Hp Hi Hu Hf. unfold conform, conform_loop, Value_Kind. simpl.
  rewrite (bool_decide_eq_false_2 _ Hp), !andb_false_r. simpl.
  rewrite (bool_decide_eq_false_2 (String = Type_Kind t)) by done.
  rewrite Hi, Hu, Hf. by destruct (bool_decide (Type_Kind t = Bool)).
Qed.

(** X22. Any captured text sets a boolean field to true: [setField] with
    one or more captured strings, on a field of kind Bool without hooks
    in an addressable record, returns nil and leaves [true] in the
    field, whatever the strings are and whatever the field held. *)
Theorem setField_bool_true (toks : list Token) (strct : rvalue)
  (field : structLexerField) (t : rtype) (b0 : bool) (s : string) (ss : list string) :
  FieldByIndex strct (field_Index field) = Ok (VBool t b0) →
  Type_Kind t = Bool →
  Value_CanAddr strct = true →
  implementsCapture (PtrTo t) = false →
  implementsTextUnmarshaler (PtrTo t) = false →
  ∃ strct',
    setField toks strct field (map ValueOf_string (s :: ss)) = Ok (strct', None)
    ∧ FieldByIndex strct' (field_Index field) = Ok (VBool t true).
Proof.
  intros Hf Hk Haddr Hcap Hun.
  assert (Hplain : plain_field (VBool t b0)).
  { unfold plain_field, Value_Kind. simpl. rewrite Hk.
    repeat split; try done; intros ->; discriminate. }
  rewrite (setField_plain toks strct _ _ _ Hf Hplain).
  unfold setField_scalar. rewrite Haddr.
  assert (Hc : ∀ x, conform (Value_Type (VBool t b0)) [ValueOf_string x]
                    = Ok ([VBool boolType true], None)).
  { intros x. simpl. rewrite conform_one_string; rewrite ?Hk; try done. }
  destruct ss as [|s2 ss]; simpl length; cbv iota beta.
  - change (1 <? Z.of_nat 1) with false. cbv iota. simpl map. rewrite Hc. simpl.
    unfold Value_Kind. simpl. rewrite Hk. simpl.
    destruct (store_FieldByIndex_Ok _ _ _ (VBool t true) Hf) as [strct' Hs].
    rewrite Hs. simpl. exists strct'. split; [done|].
    by apply (FieldByIndex_store _ strct _ (VBool t b0)).
  - assert (Hlt : (1 <? Z.of_nat (S (S (length (map ValueOf_string ss))))) = true)
      by (apply Z.ltb_lt; lia).
    simpl map. simpl length. rewrite Hlt. rewrite Hc. simpl.
    unfold Value_Kind. simpl. rewrite Hk. simpl.
    destruct (store_FieldByIndex_Ok _ _ _ (VBool t true) Hf) as [strct' Hs].
    rewrite Hs. simpl. exists strct'. split; [done|].
    by apply (FieldByIndex_store _ strct _ (VBool t b0)).
Qed.

(** X23. Token fields take the source tokens and ignore the captured
    values: on a field of type [lexer.Token] in an addressable record,
    [setField] stores the first token and returns nil, and panics when
    there is no token; on a field of type [[]lexer.Token] it stores all
    the tokens. *)
Theorem setField_token_fields (toks : list Token) (strct f : rvalue)
  (field : structLexerField) (fieldValue : list rvalue) :
  FieldByIndex strct (field_Index field) = Ok f →
  Value_CanAddr strct = true →
  (Value_Type f = tokenType →
     match toks with
     | [] => setField toks strct field fieldValue = Panic
     | t0 :: _ =>
         ∃ strct', setField toks strct field fieldValue = Ok (strct', None)
                   ∧ FieldByIndex strct' (field_Index field) = Ok (VToken t0)
     end)
  ∧ (Value_Type f = tokensType →
     ∃ strct', setField toks strct field fieldValue = Ok (strct', None)
               ∧ FieldByIndex strct' (field_Index field) = Ok (VTokens (Some toks))).
Proof.
  intros Hf Haddr. split; intros Hty.
  - rewrite (setField_at toks strct f) by (done || (unfold Value_Kind; by rewrite Hty)).
    unfold setField_value. rewrite Hty, Haddr. simpl.
    destruct toks as [|t0 toks]; simpl; [done|].
    destruct (store_FieldByIndex_Ok _ _ _ (VToken t0) Hf) as [strct' Hs].
    rewrite Hs. simpl. exists strct'. split; [done|].
    by apply (FieldByIndex_store _ strct _ f).
  - rewrite (setField_at toks strct f) by (done || (unfold Value_Kind; by rewrite Hty)).
    unfold setField_value. rewrite Hty, Haddr. simpl.
    destruct (store_FieldByIndex_Ok _ _ _ (VTokens (Some toks)) Hf) as [strct' Hs].
    rewrite Hs. simpl. exists strct'. split; [done|].
    by apply (FieldByIndex_store _ strct _ f).
Qed.

(** X24. A pointer field is hydrated before anything else: on a nil
    pointer field of an addressable record whose element type has a
    zero value that is an ordinary field (no pointer, token type, hook,
    slice or string), [setField] without any captured value returns nil
    and leaves the field pointing to that zero value; on a pointer that
    is not nil, the record is as it was. *)
Theorem setField_pointer_hydrates (toks : list Token) (strct : rvalue)
  (field : structLexerField) (et : rtype) (pointee : option rvalue) :
  FieldByIndex strct (field_Index field) = Ok (VPtr (PtrTo et) pointee) →
  Value_CanAddr strct = true →
  plain_field (default (zeroValue et) pointee) →
  ∃ strct',
    setField toks strct field [] = Ok (strct', None)
    ∧ FieldByIndex strct' (field_Index field)
      = Ok (VPtr (PtrTo et) (Some (default (zeroValue et) pointee)))
    ∧ (pointee ≠ None → strct' = strct).
Proof.
  intros Hf Haddr Hplain. unfold setField. rewrite Hf. simpl. rewrite Haddr.
  set (d := default (zeroValue et) pointee) in *.
  assert (Hv : (match pointee with
                | Some d0 => Ok d0
                | None => _ ← Value_Set true (VPtr (PtrTo et) pointee); Ok (zeroValue et)
                end) = Ok d).
  { by destruct pointee. }
  rewrite Hv. simpl. rewrite (setField_value_plain toks true d field [] Hplain).
  unfold setField_scalar. simpl.
  destruct (store_FieldByIndex_Ok _ _ _ (VPtr (PtrTo et) (Some d)) Hf) as [strct' Hs].
  rewrite Hs. simpl. exists strct'. split; [done|].
  split; [by apply (FieldByIndex_store _ strct _ (VPtr (PtrTo et) pointee))|].
  intros Hne. destruct pointee as [d0|]; [|done]. simpl in d. subst d.
  rewrite (store_FieldByIndex_same _ _ _ Hf) in Hs. by injection Hs as <-.
Qed.

(** X25. What [setField] does with captured text on a field of a kind
    it cannot set. On a field without hooks that is of kind Struct or
    Interface the call returns the error "value ... is not correct
    type ..." with the captured strings joined; on a field of any other
    kind that is not a number, a boolean, a string, a slice or a
    pointer it returns "unsupported field type ...". Both errors are
    prefixed with the record's type name and the field name, and the
    record is as it was. *)
Theorem setField_rejects_other_kinds (toks : list Token) (strct f : rvalue)
  (field : structLexerField) (s : string) (ss : list string) :
  FieldByIndex strct (field_Index field) = Ok f →
  plain_field f →
  is_int_kind (Value_Kind f) = false → is_uint_kind (Value_Kind f) = false →
  is_float_kind (Value_Kind f) = false → Value_Kind f ≠ Bool →
  setField toks strct field (map ValueOf_string (s :: ss))
  = Ok (strct,
        Some (ParseError
                (MsgDecorated
                   (String.append (Type_Name (Value_Type strct))
                      (String.append "." (field_Name field)))
                   (if bool_decide (Value_Kind f = Struct)
                       || bool_decide (Value_Kind f = Interface)
                    then MsgNotCorrectType (String.concat "" (s :: ss))
                           (Type_String (Value_Type f))
                    else MsgUnsupportedFieldType (Type_String (Value_Type f))
                           (field_Name field)))
                (mkPosition "" 0 0 0))).
Proof.
  intros Hf Hplain Hi Hu Hfl Hb.
  pose proof Hplain as (Hptr & _ & _ & _ & _ & _ & Hstr).
  rewrite (setField_plain toks strct _ _ _ Hf Hplain).
  assert (Hty : Value_Type (ValueOf_string (String.concat "" (s :: ss))) ≠ Value_Type f).
  { simpl. intros E. apply Hstr. unfold Value_Kind. by rewrite <- E. }
  assert (Hsc : setField_scalar (Value_CanAddr strct) f field (map ValueOf_string (s :: ss))
                = Ok (f, Some (GoError
                         (if bool_decide (Value_Kind f = Struct)
                             || bool_decide (Value_Kind f = Interface)
                          then MsgNotCorrectType (String.concat "" (s :: ss))
                                 (Type_String (Value_Type f))
                          else MsgUnsupportedFieldType (Type_String (Value_Type f))
                                 (field_Name field))))).
  { unfold setField_scalar.
    assert (Hvs : (if 1 <? Z.of_nat (length (map ValueOf_string (s :: ss)))
                   then [ValueOf_string
                           (String.concat "" (map Value_String (map ValueOf_string (s :: ss))))]
                   else map ValueOf_string (s :: ss))
                  = [ValueOf_string (String.concat "" (s :: ss))]).
    { destruct ss as [|s2 ss]; [done|].
      assert (Hlt : (1 <? Z.of_nat (length (map ValueOf_string (s :: s2 :: ss)))) = true)
        by (apply Z.ltb_lt; simpl; lia).
      rewrite Hlt. do 2 f_equal. rewrite map_map. simpl. by rewrite map_id. }
    rewrite Hvs. unfold Value_Kind in *.
    rewrite conform_one_string by done.
    rewrite (bool_decide_eq_false_2 _ Hb). simpl.
    rewrite Hi, Hu, Hfl. simpl.
    rewrite (bool_decide_eq_true_2 _ Hty).
    by destruct (bool_decide (Type_Kind (Value_Type f) = Struct)
                 || bool_decide (Type_Kind (Value_Type f) = Interface)). }
  rewrite Hsc. simpl. by rewrite (store_FieldByIndex_same _ _ _ Hf).
Qed.

Lemma conform_loop_same_type (t : rtype) (values out : list rvalue) :
  Forall (λ v, Value_Type v = t) values →
  conform_loop t values out = Ok (out ++ values, None).
Proof.
  intros Hall. revert out. induction Hall as [|v values Hv _ IH]; intros out; simpl.
  { by rewrite app_nil_r. }
  rewrite (bool_decide_eq_true_2 (t = Value_Type v)) by done. simpl.
  unfold Value_Kind. rewrite Hv.
  rewrite (bool_decide_eq_true_2 (Type_Kind t = Type_Kind t)) by done.
  rewrite (bool_decide_eq_true_2 (t = t)) by done. simpl.
  by rewrite IH, <- app_assoc.
Qed.

Lemma conform_loop_length (t : rtype) (values out res : list rvalue) (err : option Error) :
  Type_Kind t ≠ Ptr →
  conform_loop t values out = Ok (res, err) →
  match err with
  | Some _ => res = []
  | None => length res = (length out + length values)%nat
  end.
Proof.
  intros Hnp. rewrite <- (bool_decide_eq_false _) in Hnp.
  revert out. induction values as [|v values IH]; intros out; simpl.
  { intros [= <- <-]. lia. }
  rewrite Hnp, andb_false_r. simpl.
  assert (Hstep : ∀ w, conform_loop t values (out ++ [w]) = Ok (res, err) →
            match err with
            | Some _ => res = []
            | None => length res = (length out + S (length values))%nat
            end).
  { intros w Hw. apply IH in Hw. destruct err; [done|].
    rewrite length_app in Hw. simpl in Hw. lia. }
  destruct (bool_decide (Value_Kind v = Type_Kind t)).
  { destruct (if bool_decide (Value_Type v = t) then Ok v else Value_Convert v t)
      as [v'|]; simpl; [apply Hstep | discriminate]. }
  destruct (is_int_kind (Type_Kind t)).
  { destruct (sizeOfKind (Type_Kind t)); simpl; [|discriminate].
    destruct (ParseInt _ _ _); [apply Hstep | by intros [= <- <-]]. }
  destruct (is_uint_kind (Type_Kind t)).
  { destruct (sizeOfKind (Type_Kind t)); simpl; [|discriminate].
    destruct (ParseUint _ _ _); [apply Hstep | by intros [= <- <-]]. }
  destruct (bool_decide (Type_Kind t = Bool)); [apply Hstep|].
  destruct (is_float_kind (Type_Kind t)); [|apply Hstep].
  destruct (sizeOfKind (Type_Kind t)); simpl; [|discriminate].
  destruct (ParseFloat _ _); [apply Hstep | by intros [= <- <-]].
Qed.

(** X26. [conform] to a type that is not a pointer type converts every
    value or none: when it returns an error it returns no value, and
    when it returns nil it returns as many values as it was given.
    Values that already have the type are returned as they are. *)
Theorem conform_all_or_nothing (t : rtype) (values res : list rvalue)
  (err : option Error) :
  Type_Kind t ≠ Ptr →
  conform t values = Ok (res, err) →
  match err with
  | Some _ => res = []
  | None => length res = length values
  end
  ∧ (Forall (λ v, Value_Type v = t) values → res = values ∧ err = None).
Proof.
  intros Hnp Hc. split.
  - apply (conform_loop_length t values [] res err Hnp) in Hc. by destruct err.
  - intros Hall. unfold conform in Hc.
    rewrite (conform_loop_same_type t values [] Hall) in Hc. simpl in Hc.
    by injection Hc as <- <-.
Qed.

(** X27. [conform] to a pointer type stops without an error at the
    first value that is not a pointer and cannot be addressed: the
    values before it, here of the pointer type already, are returned
    with a nil error, and that value and all the values after it are
    dropped. *)
Theorem conform_pointer_drops_rest (t : rtype) (vs : list rvalue) (v : rvalue)
  (rest : list rvalue) :
  Type_Kind t = Ptr →
  Forall (λ w, Value_Type w = t) vs →
  Value_Kind v ≠ Ptr →
  Value_CanAddr v = false →
  conform t (vs ++ v :: rest) = Ok (vs, None).
Proof.
  intros Hk Hall Hv Haddr. unfold conform.
  enough (Hloop : ∀ out, conform_loop t (vs ++ v :: rest) out = Ok (out ++ vs, None))
    by apply Hloop.
  induction Hall as [|w vs Hw _ IH]; intros out.
  - simpl. rewrite app_nil_r.
    assert (Hne : t ≠ Value_Type v).
    { intros E. apply Hv. unfold Value_Kind. by rewrite <- E. }
    rewrite (bool_decide_eq_false_2 _ Hne), (bool_decide_eq_true_2 _ Hk).
    rewrite (bool_decide_eq_false_2 _ Hv), Haddr. done.
  - simpl. rewrite (bool_decide_eq_true_2 (t = Value_Type w)) by done. simpl.
    unfold Value_Kind. rewrite Hw.
    rewrite (bool_decide_eq_true_2 (Type_Kind t = Type_Kind t)) by done.
    rewrite (bool_decide_eq_true_2 (t = t)) by done. simpl.
    by rewrite IH, <- app_assoc.
Qed.

(** X28. [capture.Parse] on a context whose lexer satisfies the cursor
    invariant on an array ending in EOF, around a node that keeps it:
    the call does not panic on the range of tokens. If the node returns
    nil values nothing is deferred, and the capture returns no-match,
    or the parent with the error of the node. If the node returns
    values, the capture defers, for its field of the parent, those
    values with the tokens between the raw cursor before the node and
    the raw cursor after it, which are tokens of the array, elided ones
    included, and returns the parent with the error of the node, if
    any. The context left has advanced from the one given. *)
Theorem capture_Parse_defers_range (c : capture) (ctx ctx1 : parseContext)
  (parent : rvalue) (v : option (list rvalue)) (err : option Error) :
  ctx_ok ctx → node_ok (c_node c) →
  Parse (c_node c) ctx parent = Ok (v, err, ctx1) →
  let start := rawCursor (checkpoint (lexer ctx)) in
  let stop := rawCursor (checkpoint (lexer ctx1)) in
  match v with
  | None =>
      capture_Parse c ctx parent
      = Ok (match err with Some _ => Some [parent] | None => None end, err, ctx1)
  | Some vs =>
      ∃ toks,
        Range (lexer ctx1) start stop = Ok toks
        ∧ Z.of_nat (length toks) = stop - start
        ∧ (∀ k, 0 <= k < stop - start →
                index toks k = index (tokens (lexer ctx)) (start + k))
        ∧ capture_Parse c ctx parent
          = Ok (Some [parent], err, Defer ctx1 toks parent (c_field c) vs)
  end
  ∧ ∃ out' ctx', capture_Parse c ctx parent = Ok (out', err, ctx')
                 ∧ advances ctx ctx'.
Proof.
  intros Hok Hnode HP start stop.
  pose proof (Hnode _ _ _ _ _ Hok HP) as Hadv.
  pose proof Hadv as (Htoks & _ & Hraw & _ & Hinv').
  pose proof Hok as [_ Hinv].
  pose proof (lexer_inv_valid _ Hinv) as [[H0 _] _].
  pose proof (lexer_inv_valid _ Hinv') as [[_ Hlt] _].
  unfold capture_Parse. rewrite HP. simpl.
  destruct v as [vs|].
  - fold start stop.
    rewrite (Range_Ok (lexer ctx1) start stop) by (unfold start, stop; lia). simpl.
    assert (Hres : (match err with
                    | Some e =>
                        Ok (Some [parent], Some e,
                            Defer ctx1 (take (Z.to_nat (stop - start))
                                          (drop (Z.to_nat start) (tokens (lexer ctx1))))
                              parent (c_field c) vs)
                    | None =>
                        Ok (Some [parent], None,
                            Defer ctx1 (take (Z.to_nat (stop - start))
                                          (drop (Z.to_nat start) (tokens (lexer ctx1))))
                              parent (c_field c) vs)
                    end)
                   = Ok (Some [parent], err,
                         Defer ctx1 (take (Z.to_nat (stop - start))
                                       (drop (Z.to_nat start) (tokens (lexer ctx1))))
                           parent (c_field c) vs)).
    { by destruct err. }
    rewrite Hres. split.
    + eexists. split; [done|]. split; [|split; [|done]].
      * rewrite length_take, length_drop. unfold start, stop in *. lia.
      * intros k Hk. unfold index.
        destruct (Z.ltb_spec k 0); [lia|].
        destruct (Z.ltb_spec (start + k) 0); [unfold start in *; lia|].
        rewrite lookup_take_lt by lia. rewrite lookup_drop, Htoks.
        by replace (Z.to_nat start + Z.to_nat k)%nat with (Z.to_nat (start + k))
          by (unfold start in *; lia).
    + eexists _, _. split; [done|]. exact Hadv.
  - split; [by destruct err|].
    destruct err; eexists _, _; (split; [done | exact Hadv]).
Qed.
End Participle.

(** * The properties at concrete inputs

    The constant [lexer.EOF] is -1 here, as in [literal.Generate], which
    tests the type of an untyped literal against -1. *)

Lemma toks_if_x_ends_with_EOF : ends_with_EOF (-1) (toks_if_x (-1)).
Proof. by exists [tok Ident "if" 0; tok Whitespace " " 2; tok Ident "x" 3], (eof (-1) 4). Qed.

(** [Next] on ["if x"]: it returns [if], and the next cursor skips the
    blank. *)
Lemma Next_consumes_one_token_witness :
  ∃ p', Next (-1) (lexer_on (toks_if_x (-1)) start) = Ok (tok Ident "if" 0, p')
        ∧ checkpoint p' = mkCheckpoint 1 2 1.
Proof.
  destruct (Next_consumes_one_token (-1) (lexer_on (toks_if_x (-1)) start)
              (tok Ident "if" 0) toks_if_x_ends_with_EOF eq_refl) as (_ & _ & H).
  destruct (H eq_refl) as (p' & HN & _).
  exists p'. split; [exact HN|].
  vm_compute in HN. by injection HN as <-.
Defined.

(** A lexer built by [Upgrade] with whitespace elided, then some
    operations of a client. *)
Lemma cursor_invariant_preserved_witness :
  Upgrade (-1) (list_lexer (-1)) 4%nat (toks_if_x (-1)) [Whitespace]
  = Some (Ok (lexer_on (toks_if_x (-1)) start, None))
  ∧ ∃ p' held',
    run_ops (-1) (lexer_on (toks_if_x (-1)) start, [])
      [OpNext; OpMakeCheckpoint; OpFastForward 2; OpLoadCheckpoint 0; OpRawPeek] 
    = Ok (p', held')
    ∧ rawCursor (checkpoint p') <= nextCursor (checkpoint p')
    ∧ ∃ t, Peek p' = Ok t
           ∧ (Token_EOF (-1) t = true ∨ map_get (elide p') (Type_ t) = false).
Proof.
  destruct (cursor_invariant_preserved (-1) (list_lexer (-1)) 4%nat
              (toks_if_x (-1))
              [Whitespace] (lexer_on (toks_if_x (-1)) start)
              [OpNext; OpMakeCheckpoint; OpFastForward 2; OpLoadCheckpoint 0; OpRawPeek])
    as (p' & held' & Hrun & _ & _ & Hle & _ & _ & Hpeek & _).
  { vm_compute. reflexivity. }
  split; [vm_compute; reflexivity|].
  exists p', held'. split; [exact Hrun|]. split; [exact Hle | exact Hpeek].
Defined.

(** C5, the two exceptions. When the type of EOF is elided, [Peek] at
    the end returns the EOF token, whose type is in the elision map.
    And on a blank, [x] and EOF with blanks elided, [Upgrade] leaves the
    next cursor at [x]; after [LoadCheckpoint] of the zero checkpoint,
    which [MakeCheckpoint] never returned on this lexer, the next cursor
    is at the blank: [Peek] returns it, a token that is not EOF and
    whose type is elided, and the cursor invariant does not hold. *)
Lemma Peek_returns_elided_token :
  (∃ r t, Upgrade (-1) (list_lexer (-1)) 1%nat [] [-1] = Some (Ok (r, None))
          ∧ Peek r = Ok t ∧ map_get (elide r) (Type_ t) = true)
  ∧ (∃ r t,
       Upgrade (-1) (list_lexer (-1)) 3%nat (toks_blank_x (-1)) [Whitespace]
       = Some (Ok (r, None))
       ∧ MakeCheckpoint r = mkCheckpoint 0 1 0
       ∧ Peek (LoadCheckpoint r (mkCheckpoint 0 0 0)) = Ok t
       ∧ Token_EOF (-1) t = false
       ∧ map_get (elide (LoadCheckpoint r (mkCheckpoint 0 0 0))) (Type_ t) = true
       ∧ ¬ lexer_inv (-1) (LoadCheckpoint r (mkCheckpoint 0 0 0))).
Proof.
  split.
  - exists (mkPeekingLexer start [eof (-1) 0] {[ -1 := true ]}), (eof (-1) 0).
    split; [|split]; vm_compute; reflexivity.
  - exists (lexer_on (toks_blank_x (-1)) (mkCheckpoint 0 1 0)), (tok Whitespace " " 0).
    do 5 (split; [vm_compute; reflexivity|]).
    intros (_ & _ & t & Ht & Hstop).
    vm_compute in Ht. injection Ht as <-.
    destruct Hstop as [H | H]; vm_compute in H; discriminate.
Qed.

(** [RawPeek] may return an elided token: after [if] it is at the blank. *)
Lemma RawPeek_returns_elided :
  ∃ t p' tr, Next (-1) (lexer_on (toks_if_x (-1)) start) = Ok (t, p')
             ∧ RawPeek p' = Ok tr ∧ map_get (elide p') (Type_ tr) = true.
Proof.
  exists (tok Ident "if" 0),
    (lexer_on (toks_if_x (-1)) (mkCheckpoint 1 2 1)), (tok Whitespace " " 2).
  split; [|split]; vm_compute; reflexivity.
Qed.

(** Two calls of [Next] move the cursors; loading the checkpoint made
    before them restores the lexer. *)
Lemma LoadCheckpoint_restores_witness :
  ∃ p', run_ops (-1) (lexer_on (toks_if_x (-1)) start, []) [OpNext; OpNext] = Ok (p', [])
        ∧ checkpoint p' = mkCheckpoint 3 3 2
        ∧ LoadCheckpoint p' (MakeCheckpoint (lexer_on (toks_if_x (-1)) start))
          = lexer_on (toks_if_x (-1)) start.
Proof.
  exists (lexer_on (toks_if_x (-1)) (mkCheckpoint 3 3 2)).
  assert (Hrun : run_ops (-1) (lexer_on (toks_if_x (-1)) start, []) [OpNext; OpNext]
                 = Ok (lexer_on (toks_if_x (-1)) (mkCheckpoint 3 3 2), [])).
  { vm_compute. reflexivity. }
  split; [exact Hrun|]. split; [reflexivity|].
  exact (proj1 (proj2 (proj2 (LoadCheckpoint_restores (-1) _ _ _ _ _ Hrun)))).
Defined.

(** An array of blanks and EOF with both types elided: the loops stop
    at the EOF token. *)
Lemma scans_stop_at_EOF_witness :
  let p := mkPeekingLexer start [tok Whitespace " " 0; tok Whitespace " " 1; eof (-1) 2]
             {[ Whitespace := true; -1 := true ]} in
  (∃ p', advanceToNonElided (-1) p = Ok p' ∧ valid_cursors p')
  ∧ (∃ t i, PeekAny (-1) p (fun _ => false) = Ok (t, i) ∧ i <= 2)
  ∧ (∃ p', FastForward (-1) p 100 = Ok p' ∧ valid_cursors p').
Proof.
  intros p.
  destruct (scans_stop_at_EOF (-1) p) as (_ & _ & Hadv & _ & Hany & Hff).
  { by exists [tok Whitespace " " 0; tok Whitespace " " 1], (eof (-1) 2). }
  { vm_compute. repeat split; discriminate || reflexivity. }
  split; [exact Hadv|]. split; [|exact (Hff 100)].
  destruct (Hany (fun _ => false)) as (t & i & HP & _ & Hi).
  exists t, i. split; [exact HP|]. simpl in Hi. lia.
Defined.

Lemma toks_x_semi_ends_with_EOF : ends_with_EOF (-1) (toks_x_semi (-1)).
Proof. by exists [tok Ident "x" 0; tok Whitespace " " 1; tok Punct ";" 2], (eof (-1) 3). Qed.

Lemma toks_a_x_ends_with_EOF : ends_with_EOF (-1) (toks_a_x (-1)).
Proof. by exists [tok Ident "a" 0; tok Ident "x" 1], (eof (-1) 2). Qed.

(** The negation of [";"] on ["x ;"]: it captures ["x"], and the next
    token is [;]. *)
Lemma negation_Parse_spec_witness :
  ∃ p', negation_Parse (-1) (mkNegation (lit (-1) EqualFold_ascii ";"))
          (context_on (lexer_on (toks_x_semi (-1)) start) 1000) no_parent
        = Ok (Some [ValueOf_string "x"], None,
              with_lexer (context_on (lexer_on (toks_x_semi (-1)) start) 1000) p')
        ∧ cursor (checkpoint p') = 1
        ∧ Peek p' = Ok (tok Punct ";" 2).
Proof.
  destruct (negation_Parse_spec (-1) (mkNegation (lit (-1) EqualFold_ascii ";"))
              (context_on (lexer_on (toks_x_semi (-1)) start) 1000) no_parent
              (tok Ident "x" 0) toks_x_semi_ends_with_EOF eq_refl) as [_ H].
  destruct (H eq_refl None None
              (Branch (context_on (lexer_on (toks_x_semi (-1)) start) 1000)))
    as [_ H2]; [vm_compute; reflexivity|].
  destruct (H2 (or_introl eq_refl)) as (p' & HN & HP & Hc & _).
  exists p'. split; [exact HP|]. split; [exact Hc|].
  vm_compute in HN. injection HN as <-. vm_compute. reflexivity.
Defined.

(** The literal ["IF"] on ["if x"], identifiers being case-insensitive. *)
Lemma literal_Parse_spec_witness :
  let ctx := mkContext (lexer_on (toks_if_x (-1)) start) [] None 0 1000
               {[ Ident := true ]} in
  ∃ p', literal_Parse (-1) EqualFold_ascii (mkLiteral "IF" (-1) "") ctx no_parent
        = Ok (Some [ValueOf_string "if"], None, with_lexer ctx p')
        ∧ checkpoint p' = mkCheckpoint 1 2 1.
Proof.
  intros ctx.
  destruct (literal_Parse_spec (-1) EqualFold_ascii (mkLiteral "IF" (-1) "") ctx no_parent
              eq_refl toks_if_x_ends_with_EOF)
    as (token & cur & HP & _ & Hm & _); [vm_compute; split; [discriminate | reflexivity]|].
  vm_compute in HP. injection HP as <- <-.
  destruct Hm as (p' & HF & HL & _); [split; [by left | right; vm_compute; reflexivity]|].
  exists p'. split; [exact HL|].
  vm_compute in HF. by injection HF as <-.
Defined.

(** C6, the exception: the empty literal matches a token whatever its
    text. *)
Lemma literal_empty_matches_any_text :
  ∃ ctx', literal_Parse (-1) EqualFold_ascii (mkLiteral "" (-1) "")
            (context_on (lexer_on (toks_a_x (-1)) start) 1000) no_parent
          = Ok (Some [ValueOf_string "a"], None, ctx')
          ∧ PeekAny (-1) (lexer_on (toks_a_x (-1)) start)
              (literal_match (-1) EqualFold_ascii (mkLiteral "" (-1) "")
                 (context_on (lexer_on (toks_a_x (-1)) start) 1000))
            = Ok (tok Ident "a" 0, 0)
          ∧ Value (tok Ident "a" 0) ≠ "".
Proof.
  eexists. split; [vm_compute; reflexivity|]. split; [vm_compute; reflexivity|].
  discriminate.
Qed.




(** Repetition: [("a")*] on ["aaaa"] matches four times, [("a")+] too. *)
Lemma group_star_aaaa :
  let a := lit (-1) EqualFold_ascii "a" in
  let ctx4 := context_on (lexer_on (toks_aaaa (-1)) start) 1000 in
  let four := Some [ValueOf_string "a"; ValueOf_string "a";
                    ValueOf_string "a"; ValueOf_string "a"] in
  let ctx_end := context_on (lexer_on (toks_aaaa (-1)) (mkCheckpoint 4 4 4)) 1000 in
  group_Parse 1000000 (mkGroup a groupMatchZeroOrMore "a*") ctx4 no_parent
  = Ok (four, None, ctx_end)
  ∧ group_Parse 1000000 (mkGroup a groupMatchOneOrMore "a+") ctx4 no_parent
    = Ok (four, None, ctx_end).
Proof. split; vm_compute; reflexivity. Qed.

(** [setField] with the stand-ins and a 64-bit [int]: the token ["42"]
    captured into [Flags.Count]; the field holds 42. *)
Lemma setField_integer_string_witness :
  let setField_ex :=
    setField 64 ParseInt_dec ParseUint_dec ParseFloat_none float_succ_none
      zeroValue_basic convertOther_none no_hook no_hook Capture_none
      UnmarshalText_none [] in
  setField_ex flags countField [ValueOf_string "42"]
  = Ok (VStruct flagsType true [VInt intType 42], None).
Proof.
  intros setField_ex.
  destruct (setField_integer_string 64 ParseInt_dec ParseUint_dec ParseFloat_none
              float_succ_none zeroValue_basic convertOther_none no_hook no_hook
              Capture_none UnmarshalText_none [] flags (VInt intType 5) countField "42"
              eq_refl eq_refl eq_refl eq_refl) as [H _].
  specialize (H eq_refl). vm_compute in H.
  destruct H as (strct' & Hs & H). injection Hs as <-. exact H.
Defined.

(** C7, at the failing input. The comment in [setField] says that
    numeric types will increment if the token can not be coerced, and
    the code increments when the type of the conformed value is not the
    type of the field. The token ["abc"] is not a number and its type,
    [string], is not the type of [Flags.Count]; yet [conform] has
    returned the error of the parser before that test is reached:
    [setField] returns this error and [Flags.Count] still holds 5,
    not 6. *)
Lemma setField_non_numeric_token_is_error :
  let setField_ex :=
    setField 64 ParseInt_dec ParseUint_dec ParseFloat_none float_succ_none
      zeroValue_basic convertOther_none no_hook no_hook Capture_none
      UnmarshalText_none [] in
  setField_ex flags countField [ValueOf_string "abc"]
  = Ok (flags,
        Some (ParseError (MsgDecorated "Flags.Count" (MsgText "invalid syntax"))
                (mkPosition "" 0 0 0)))
  ∧ Value_Type (ValueOf_string "abc") ≠ intType
  ∧ FieldByIndex flags (field_Index countField) = Ok (VInt intType 5).
Proof.
  intros setField_ex. split; [vm_compute; reflexivity|].
  split; [discriminate | reflexivity].
Qed.

(** No captured value for [Flags.Count]: nothing changes. *)
Lemma setField_no_values_witness :
  let setField_ex :=
    setField 64 ParseInt_dec ParseUint_dec ParseFloat_none float_succ_none
      zeroValue_basic convertOther_none no_hook no_hook Capture_none
      UnmarshalText_none [] in
  setField_ex flags countField [] = Ok (flags, None).
Proof.
  intros setField_ex.
  apply (setField_no_values 64 ParseInt_dec ParseUint_dec ParseFloat_none
           float_succ_none zeroValue_basic convertOther_none no_hook no_hook
           Capture_none UnmarshalText_none [] flags (VInt intType 5) countField);
    (reflexivity || discriminate).
Defined.

(** ** The lexer at concrete inputs *)

Lemma toks_if_x_one_EOF : one_EOF (-1) (toks_if_x (-1)).
Proof.
  exists [tok Ident "if" 0; tok Whitespace " " 2; tok Ident "x" 3], (eof (-1) 4).
  split; [reflexivity|]. split; [reflexivity|]. by repeat constructor.
Qed.

Lemma lexer_inv_if_x_start : lexer_inv (-1) (lexer_on (toks_if_x (-1)) start).
Proof.
  split; [vm_compute; discriminate|]. split.
  - intros i Hi. simpl in Hi. lia.
  - exists (tok Ident "if" 0). split; [reflexivity|]. right. vm_compute. reflexivity.
Qed.

Lemma lexer_inv_if_x_blank :
  lexer_inv (-1) (lexer_on (toks_if_x (-1)) (mkCheckpoint 1 2 1)).
Proof.
  split; [vm_compute; discriminate|]. split.
  - intros i Hi. simpl in Hi. assert (i = 1) as -> by lia.
    exists (tok Whitespace " " 2). split; vm_compute; reflexivity.
  - exists (tok Ident "x" 3). split; [reflexivity|]. right. vm_compute. reflexivity.
Qed.

(** After [if], with no predicate satisfied, [PeekAny] passes over the
    blank and returns [x] at index 2. *)
Lemma PeekAny_first_candidate_witness :
  PeekAny (-1) (lexer_on (toks_if_x (-1)) (mkCheckpoint 1 2 1)) (fun _ => false)
  = Ok (tok Ident "x" 3, 2).
Proof.
  destruct (PeekAny_first_candidate (-1)
              (lexer_on (toks_if_x (-1)) (mkCheckpoint 1 2 1)) (fun _ => false)
              toks_if_x_ends_with_EOF) as (t & i & HP & _).
  { vm_compute. split; [discriminate | reflexivity]. }
  pose proof HP as HP'. vm_compute in HP'. injection HP' as <- <-. exact HP.
Defined.

(** There, [PeekAny] returns what [Peek] returns. *)
Lemma PeekAny_no_match_is_Peek_witness :
  let p := lexer_on (toks_if_x (-1)) (mkCheckpoint 1 2 1) in
  ∃ t, Peek p = Ok t ∧ PeekAny (-1) p (fun _ => false) = Ok (t, 2).
Proof.
  intros p.
  apply (PeekAny_no_match_is_Peek (-1) p (fun _ => false)
           toks_if_x_one_EOF lexer_inv_if_x_blank).
  intros j tj _ _. reflexivity.
Defined.

(** After [if], [PeekAny] for a blank finds it at index 1; the
    fast-forward to it leaves the raw cursor at 2 and the count at 1. *)
Lemma FastForward_after_PeekAny_witness :
  let p := lexer_on (toks_if_x (-1)) (mkCheckpoint 1 2 1) in
  ∃ p', FastForward (-1) p 1 = Ok p' ∧ checkpoint p' = mkCheckpoint 2 2 1.
Proof.
  intros p.
  destruct (FastForward_after_PeekAny (-1) p (fun t => Type_ t =? Whitespace)
              (tok Whitespace " " 2) 1 toks_if_x_ends_with_EOF)
    as (p' & HF & _).
  { vm_compute. discriminate. }
  { vm_compute. reflexivity. }
  exists p'. split; [exact HF|].
  vm_compute in HF. by injection HF as <-.
Defined.

(** A fast-forward to an index before the raw cursor moves nothing. *)
Lemma FastForward_never_backward_witness :
  let p := lexer_on (toks_if_x (-1)) (mkCheckpoint 3 3 2) in
  ∃ p', FastForward (-1) p 0 = Ok p'
        ∧ rawCursor (checkpoint p') = 3 ∧ cursor (checkpoint p') = 2.
Proof.
  intros p.
  destruct (FastForward_never_backward (-1) p 0 toks_if_x_ends_with_EOF)
    as (p' & HF & _ & _ & _ & _ & _ & _ & Hback & _).
  { vm_compute. split; [discriminate | reflexivity]. }
  exists p'. split; [exact HF|]. apply Hback. reflexivity.
Defined.

(** After two calls of [Next] on ["if x"] the count is 2: of the three
    tokens before the raw cursor, the blank is elided. *)
Lemma cursor_counts_non_elided_witness :
  let p' := lexer_on (toks_if_x (-1)) (mkCheckpoint 3 3 2) in
  run_ops (-1) (lexer_on (toks_if_x (-1)) start, []) [OpNext; OpNext] = Ok (p', [])
  ∧ cursor (checkpoint p')
    = non_elided_count (elide p') (take 3 (tokens p')).
Proof.
  intros p'. split; [vm_compute; reflexivity|].
  apply (cursor_counts_non_elided (-1) (list_lexer (-1)) 4%nat (toks_if_x (-1))
           [Whitespace] (lexer_on (toks_if_x (-1)) start) p' [OpNext; OpNext] []);
    vm_compute; reflexivity.
Defined.

(** The ranges of ["if x"]: tokens 0 to 3 are token 0 followed by
    tokens 1 to 3. *)
Lemma Range_split_witness :
  let p := lexer_on (toks_if_x (-1)) start in
  ∃ l1 l2, Range p 0 1 = Ok l1 ∧ Range p 1 3 = Ok l2 ∧ Range p 0 3 = Ok (l1 ++ l2).
Proof.
  intros p.
  destruct (proj1 (Range_split p 0 1 3)) as (l1 & l2 & H1 & H2 & H3 & _);
    [lia | lia | lia | simpl; lia |].
  by exists l1, l2.
Defined.

(** [Next] after [if] returns [x]; the range it has passed is the blank
    and [x]. *)
Lemma Next_Range_witness :
  let p := lexer_on (toks_if_x (-1)) (mkCheckpoint 1 2 1) in
  ∃ p' run,
    Next (-1) p = Ok (tok Ident "x" 3, p')
    ∧ Range p' 1 (rawCursor (checkpoint p')) = Ok (run ++ [tok Ident "x" 3])
    ∧ Z.of_nat (length run) = 1.
Proof.
  intros p.
  destruct (Next_Range (-1) p (tok Ident "x" 3) toks_if_x_ends_with_EOF
              lexer_inv_if_x_blank eq_refl eq_refl) as (p' & run & HN & HR & Hlen & _).
  by exists p', run.
Defined.

(** [Upgrade] on the lexer of ["if x"], with blanks elided. *)
Lemma Upgrade_result_witness :
  one_EOF (-1) (toks_if_x (-1))
  ∧ Upgrade (-1) (list_lexer (-1)) 10%nat (toks_if_x (-1)) [Whitespace]
    = Some (Ok (lexer_on (toks_if_x (-1)) start, None)).
Proof.
  destruct (Upgrade_result (-1) (list_lexer (-1)) 4%nat (toks_if_x (-1)) [Whitespace]
              (lexer_on (toks_if_x (-1)) start) None)
    as (_ & _ & _ & _ & [Hone _] & Hfuel); [vm_compute; reflexivity|].
  split; [exact Hone | apply Hfuel; lia].
Defined.

(** ** The nodes at concrete inputs *)

(** A reference to identifiers on ["if x"] captures ["if"]. *)
Lemma reference_Parse_spec_witness :
  let ctx := context_on (lexer_on (toks_if_x (-1)) start) 1000 in
  ∃ p', reference_Parse (-1) (mkReference Ident "Ident") ctx no_parent
        = Ok (Some [ValueOf_string "if"], None, with_lexer ctx p')
        ∧ cursor (checkpoint p') = 1.
Proof.
  intros ctx.
  destruct (reference_Parse_spec (-1) (mkReference Ident "Ident") ctx no_parent
              toks_if_x_ends_with_EOF)
    as (token & cur & HP & _ & _ & Hm & _).
  { vm_compute. split; [discriminate | reflexivity]. }
  vm_compute in HP. injection HP as <- <-.
  destruct (Hm eq_refl) as (p' & _ & HR & _ & Hc & _).
  exists p'. split; [exact HR | exact Hc].
Defined.

(** The lookaheads of ["if"] on ["if x"]: the positive one matches, the
    negative one fails on [if], and the context is as it was. *)
Lemma lookaheadGroup_never_advances_witness :
  let e := lit (-1) EqualFold_ascii "if" in
  let ctx := context_on (lexer_on (toks_if_x (-1)) start) 1000 in
  lookaheadGroup_Parse (mkLookahead e false) ctx no_parent = Ok (Some [], None, ctx)
  ∧ lookaheadGroup_Parse (mkLookahead e true) ctx no_parent
    = Ok (None, Some (UnexpectedTokenError (tok Ident "if" 0) None), ctx).
Proof.
  intros e ctx.
  pose proof (lookaheadGroup_never_advances e ctx no_parent
                (Some [ValueOf_string "if"]) None
                (with_lexer (Branch ctx) (lexer_on (toks_if_x (-1)) (mkCheckpoint 1 2 1)))
                (tok Ident "if" 0)) as H.
  cbv zeta in H. destruct H as [H _]; [vm_compute; reflexivity | reflexivity |].
  apply H. split; [discriminate | reflexivity].
Defined.

(** The sequence ["a" "b"] on ["a x"]: the second cell does not match,
    and the sequence fails on [x] with the value of the first. *)
Lemma sequence_Parse_spec_witness :
  let a := lit (-1) EqualFold_ascii "a" in
  let b := lit (-1) EqualFold_ascii "b" in
  let s := mkSequence true a "a" (Some (mkSequence false b "b" None)) in
  let ctx := context_on (lexer_on (toks_a_x (-1)) start) 1000 in
  let ctx1 := context_on (lexer_on (toks_a_x (-1)) (mkCheckpoint 1 1 1)) 1000 in
  sequence_Parse s ctx no_parent
  = Ok (Some [ValueOf_string "a"],
        Some (UnexpectedTokenError (tok Ident "x" 1) (Some "b")), ctx1).
Proof.
  intros a b s ctx ctx1.
  destruct (sequence_Parse_spec s ctx no_parent) as (_ & _ & H & _).
  apply (H [(a, "a")] b "b" [] ctx1 [ValueOf_string "a"] ctx1 (tok Ident "x" 1)).
  - reflexivity.
  - discriminate.
  - apply (chain_cons no_parent a "a" [] ctx [] [ValueOf_string "a"] ctx1 ctx1
             [ValueOf_string "a"]); [vm_compute; reflexivity | apply chain_nil].
  - vm_compute. reflexivity.
  - reflexivity.
Defined.

(** The group [("a")!] on the empty input: the expression does not
    match, and the group fails with "cannot be empty". *)
Lemma group_NonEmpty_never_empty_witness :
  let g := mkGroup (lit (-1) EqualFold_ascii "a") groupMatchNonEmpty "a!" in
  let ctx0 := context_on (lexer_on (toks_empty (-1)) start) 1000 in
  group_Parse 1000000 g ctx0 no_parent
  = Ok (None, Some (Errorf (Pos (eof (-1) 0)) (MsgCannotBeEmpty "a!")), ctx0).
Proof.
  intros g ctx0.
  destruct (group_NonEmpty_never_empty 1000000 g ctx0 no_parent eq_refl) as [_ H].
  apply (H None ctx0 (eof (-1) 0)); vm_compute; reflexivity.
Defined.

(** The group [("a")+] on ["aaaa"] returns without error: its
    expression matched on a branch of the context. *)
Lemma group_success_means_match_witness :
  let a := lit (-1) EqualFold_ascii "a" in
  let ctx4 := context_on (lexer_on (toks_aaaa (-1)) start) 1000 in
  ∃ v b, Parse a (Branch ctx4) no_parent = Ok (Some v, None, b).
Proof.
  intros a ctx4.
  destruct (group_success_means_match 1000000 (mkGroup a groupMatchOneOrMore "a+") ctx4
              (context_on (lexer_on (toks_aaaa (-1)) (mkCheckpoint 4 4 4)) 1000)
              no_parent
              (Some [ValueOf_string "a"; ValueOf_string "a";
                     ValueOf_string "a"; ValueOf_string "a"])) as [_ H].
  { vm_compute. reflexivity. }
  exact (H eq_refl).
Defined.

(** The group [("a")?] on ["aaaa"] takes one [a]; with a limit of one
    iteration it fails at the second [a]. *)
Lemma group_ZeroOrOne_spec_witness :
  let g := mkGroup (lit (-1) EqualFold_ascii "a") groupMatchZeroOrOne "a?" in
  let ctx4 := context_on (lexer_on (toks_aaaa (-1)) start) 1000 in
  let ctx1 := context_on (lexer_on (toks_aaaa (-1)) (mkCheckpoint 1 1 1)) 1000 in
  group_Parse 1000000 g ctx4 no_parent = Ok (Some [ValueOf_string "a"], None, ctx1)
  ∧ group_Parse 1 g ctx4 no_parent
    = Ok (None, Some (Errorf (Pos (tok Ident "a" 1)) (MsgTooManyIterations "a?" 1)),
          ctx1).
Proof.
  intros g ctx4 ctx1. split.
  - destruct (group_ZeroOrOne_spec 1000000 g ctx4 no_parent eq_refl) as (H & _).
    destruct (H [ValueOf_string "a"]
                (with_lexer (Branch ctx4) (lexer_on (toks_aaaa (-1)) (mkCheckpoint 1 1 1)))
                (tok Ident "a" 1)) as [H1 _];
      [vm_compute; reflexivity | reflexivity |].
    apply H1. lia.
  - destruct (group_ZeroOrOne_spec 1 g ctx4 no_parent eq_refl) as (H & _).
    destruct (H [ValueOf_string "a"]
                (with_lexer (Branch ctx4) (lexer_on (toks_aaaa (-1)) (mkCheckpoint 1 1 1)))
                (tok Ident "a" 1)) as [_ H2];
      [vm_compute; reflexivity | reflexivity |].
    apply H2. lia.
Defined.

(** The grammar ["x" | ("b")* | "a"] on ["a x"]: the first alternative
    does not match, the second matches without consuming a token, and
    the call panics; the third alternative is not tried. *)
Lemma disjunction_fatal_or_panic_witness :
  let L := lit (-1) EqualFold_ascii in
  let star := group_node 1000000 (mkGroup (L "b") groupMatchZeroOrMore "b*") in
  let ctx := context_on (lexer_on (toks_a_x (-1)) start) 1000 in
  disjunction_Parse (-1) (mkDisjunction [L "x"; star; L "a"]) ctx no_parent = Panic.
Proof.
  intros L star ctx.
  destruct (disjunction_fatal_or_panic (-1) (mkDisjunction [L "x"; star; L "a"])
              ctx no_parent [L "x"] [L "a"] star eq_refl) as [_ H].
  { constructor; [|constructor]. left. exists (Branch ctx). reflexivity. }
  apply (H [] (Branch ctx) (tok Ident "a" 0) (tok Ident "a" 0)).
  - vm_compute. reflexivity.
  - reflexivity.
  - reflexivity.
  - reflexivity.
  - vm_compute. discriminate.
Defined.

(** The sequence ["if" Ident] on ["if x"] leaves a context that has
    advanced from the one it was given. *)
Lemma Parse_keeps_lexer_invariant_witness :
  let s := mkSequence true (lit (-1) EqualFold_ascii "if") "if"
             (Some (mkSequence false (ident (-1)) "Ident" None)) in
  let ctx := context_on (lexer_on (toks_if_x (-1)) start) 1000 in
  let ctx' := context_on (lexer_on (toks_if_x (-1)) (mkCheckpoint 3 3 2)) 1000 in
  Parse (sequence_node s "seq2") ctx no_parent
  = Ok (Some [ValueOf_string "if"; ValueOf_string "x"], None, ctx')
  ∧ advances (-1) ctx ctx'.
Proof.
  intros s ctx ctx'.
  assert (HP : Parse (sequence_node s "seq2") ctx no_parent
               = Ok (Some [ValueOf_string "if"; ValueOf_string "x"], None, ctx')).
  { vm_compute. reflexivity. }
  split; [exact HP|].
  destruct (Parse_keeps_lexer_invariant (-1) EqualFold_ascii 1000000)
    as (Hl & Hr & _ & _ & Hs & _).
  apply (Hs s "seq2") with (parent := no_parent)
                           (out := Some [ValueOf_string "if"; ValueOf_string "x"])
                           (err := None).
  - constructor; [exact (Hl (mkLiteral "if" (-1) "") "if")|].
    constructor; [exact (Hr (mkReference Ident "Ident") "Ident") | constructor].
  - split; [exact toks_if_x_ends_with_EOF | exact lexer_inv_if_x_start].
  - exact HP.
Defined.

(** ** The binder at concrete inputs *)

(** The token ["42"] captured into [Flags.Count], which held 5: the
    field holds 42, the number that [conform] made of the token. *)
Lemma setField_numeric_never_increments_witness :
  let setField_ex :=
    setField 64 ParseInt_dec ParseUint_dec ParseFloat_none float_succ_none
      zeroValue_basic convertOther_none no_hook no_hook Capture_none
      UnmarshalText_none [] in
  let strct' := VStruct flagsType true [VInt intType 42] in
  setField_ex flags countField [ValueOf_string "42"] = Ok (strct', None)
  ∧ Value_Type (VInt intType 42) = intType
  ∧ store_FieldByIndex flags (field_Index countField) (VInt intType 42) = Ok strct'
  ∧ FieldByIndex strct' (field_Index countField) = Ok (VInt intType 42)
  ∧ @None Error = None.
Proof.
  intros setField_ex strct'.
  assert (Hs : setField_ex flags countField [ValueOf_string "42"] = Ok (strct', None)).
  { vm_compute. reflexivity. }
  split; [exact Hs|].
  refine (setField_numeric_never_increments 64 ParseInt_dec ParseUint_dec
            ParseFloat_none float_succ_none zeroValue_basic convertOther_none
            no_hook no_hook Capture_none UnmarshalText_none [] flags strct'
            (VInt intType 5) countField [ValueOf_string "42"] None
            eq_refl eq_refl eq_refl eq_refl _ Hs).
  intros w w' Hw. discriminate Hw.
Defined.

(** ["b"], then ["c"] and ["d"], captured into [Doc.Name], which held
    ["a"]: the field holds ["abcd"]. *)
Lemma setField_string_appends_witness :
  let setField_ex :=
    setField 64 ParseInt_dec ParseUint_dec ParseFloat_none float_succ_none
      zeroValue_basic convertOther_none no_hook no_hook Capture_none
      UnmarshalText_none [] in
  ∃ strct1 strct2,
    setField_ex doc nameField [ValueOf_string "b"] = Ok (strct1, None)
    ∧ setField_ex strct1 nameField [ValueOf_string "c"; ValueOf_string "d"]
      = Ok (strct2, None)
    ∧ FieldByIndex strct2 (field_Index nameField) = Ok (VString stringType "abcd").
Proof.
  intros setField_ex.
  destruct (setField_string_appends 64 ParseInt_dec ParseUint_dec ParseFloat_none
              float_succ_none zeroValue_basic convertOther_none no_hook no_hook
              Capture_none UnmarshalText_none [] [] [] doc nameField stringType "a"
              ["b"] ["c"; "d"] eq_refl eq_refl eq_refl eq_refl eq_refl)
    as (strct1 & strct2 & H1 & H2 & H3 & _).
  exists strct1, strct2. split; [exact H1|]. split; [exact H2 | exact H3].
Defined.

(** ["b"] captured into [Doc.Tags], which was nil: the slice holds
    ["b"]. *)
Lemma setField_slice_appends_witness :
  let setField_ex :=
    setField 64 ParseInt_dec ParseUint_dec ParseFloat_none float_succ_none
      zeroValue_basic convertOther_none no_hook no_hook Capture_none
      UnmarshalText_none [] in
  ∃ strct1,
    setField_ex doc tagsField [ValueOf_string "b"] = Ok (strct1, None)
    ∧ FieldByIndex strct1 (field_Index tagsField)
      = Ok (VSlice (SliceOf stringType) (Some [VString stringType "b"])).
Proof.
  intros setField_ex.
  destruct (setField_slice_appends 64 ParseInt_dec ParseUint_dec ParseFloat_none
              float_succ_none zeroValue_basic convertOther_none no_hook no_hook
              Capture_none UnmarshalText_none [] [] [] doc tagsField stringType None
              ["b"] [] eq_refl eq_refl eq_refl eq_refl eq_refl eq_refl eq_refl)
    as (strct1 & strct2 & H1 & H2 & _).
  exists strct1. split; [exact H1 | exact H2].
Defined.

(** ["1"], ["2"] captured into [Doc.Nums]: the slice holds 1 and 2.
    ["1"], ["x"], ["3"]: the call fails on ["x"] and the slice is still
    nil. *)
Lemma setField_int_slice_all_or_nothing_witness :
  let setField_ex :=
    setField 64 ParseInt_dec ParseUint_dec ParseFloat_none float_succ_none
      zeroValue_basic convertOther_none no_hook no_hook Capture_none
      UnmarshalText_none [] in
  (∃ strct',
     setField_ex doc numsField [ValueOf_string "1"; ValueOf_string "2"]
     = Ok (strct', None)
     ∧ FieldByIndex strct' (field_Index numsField)
       = Ok (VSlice (SliceOf intType) (Some [VInt intType 1; VInt intType 2])))
  ∧ setField_ex doc numsField
      [ValueOf_string "1"; ValueOf_string "x"; ValueOf_string "3"]
    = Ok (doc,
          Some (ParseError (MsgDecorated "Doc.Nums" (MsgText "invalid syntax"))
                  (mkPosition "" 0 0 0))).
Proof.
  intros setField_ex. split.
  - exact (setField_int_slice_all_or_nothing 64 ParseInt_dec ParseUint_dec
             ParseFloat_none float_succ_none zeroValue_basic convertOther_none
             no_hook no_hook Capture_none UnmarshalText_none [] doc numsField intType
             None ["1"; "2"] eq_refl eq_refl eq_refl eq_refl eq_refl eq_refl eq_refl).
  - exact (setField_int_slice_all_or_nothing 64 ParseInt_dec ParseUint_dec
             ParseFloat_none float_succ_none zeroValue_basic convertOther_none
             no_hook no_hook Capture_none UnmarshalText_none [] doc numsField intType
             None ["1"; "x"; "3"] eq_refl eq_refl eq_refl eq_refl eq_refl eq_refl
             eq_refl).
Defined.

(** ["no"] captured into [Doc.On]: the field holds [true]. *)
Lemma setField_bool_true_witness :
  let setField_ex :=
    setField 64 ParseInt_dec ParseUint_dec ParseFloat_none float_succ_none
      zeroValue_basic convertOther_none no_hook no_hook Capture_none
      UnmarshalText_none [] in
  ∃ strct',
    setField_ex doc onField [ValueOf_string "no"] = Ok (strct', None)
    ∧ FieldByIndex strct' (field_Index onField) = Ok (VBool boolType true).
Proof.
  intros setField_ex.
  exact (setField_bool_true 64 ParseInt_dec ParseUint_dec ParseFloat_none
           float_succ_none zeroValue_basic convertOther_none no_hook no_hook
           Capture_none UnmarshalText_none [] doc onField boolType false "no" []
           eq_refl eq_refl eq_refl eq_refl eq_refl).
Defined.

(** [Doc.Tok] takes the first of the tokens of ["if x"], and the call
    panics without tokens; [Doc.Toks] takes them all. *)
Lemma setField_token_fields_witness :
  let setField_ex :=
    setField 64 ParseInt_dec ParseUint_dec ParseFloat_none float_succ_none
      zeroValue_basic convertOther_none no_hook no_hook Capture_none
      UnmarshalText_none in
  (∃ strct', setField_ex (toks_if_x (-1)) doc tokField [ValueOf_string "if"]
             = Ok (strct', None)
             ∧ FieldByIndex strct' (field_Index tokField) = Ok (VToken (tok Ident "if" 0)))
  ∧ setField_ex [] doc tokField [ValueOf_string "if"] = Panic
  ∧ (∃ strct', setField_ex (toks_if_x (-1)) doc toksField [ValueOf_string "if"]
               = Ok (strct', None)
               ∧ FieldByIndex strct' (field_Index toksField)
                 = Ok (VTokens (Some (toks_if_x (-1))))).
Proof.
  intros setField_ex. split; [|split].
  - exact (proj1 (setField_token_fields 64 ParseInt_dec ParseUint_dec ParseFloat_none
                    float_succ_none zeroValue_basic convertOther_none no_hook no_hook
                    Capture_none UnmarshalText_none (toks_if_x (-1)) doc
                    (VToken (mkToken 0 "" (mkPosition "" 0 0 0))) tokField
                    [ValueOf_string "if"] eq_refl eq_refl) eq_refl).
  - exact (proj1 (setField_token_fields 64 ParseInt_dec ParseUint_dec ParseFloat_none
                    float_succ_none zeroValue_basic convertOther_none no_hook no_hook
                    Capture_none UnmarshalText_none [] doc
                    (VToken (mkToken 0 "" (mkPosition "" 0 0 0))) tokField
                    [ValueOf_string "if"] eq_refl eq_refl) eq_refl).
  - exact (proj2 (setField_token_fields 64 ParseInt_dec ParseUint_dec ParseFloat_none
                    float_succ_none zeroValue_basic convertOther_none no_hook no_hook
                    Capture_none UnmarshalText_none (toks_if_x (-1)) doc
                    (VTokens None) toksField
                    [ValueOf_string "if"] eq_refl eq_refl) eq_refl).
Defined.

(** [Doc.Ref] is nil; a call without captured values leaves it pointing
    to the zero [int]. *)
Lemma setField_pointer_hydrates_witness :
  let setField_ex :=
    setField 64 ParseInt_dec ParseUint_dec ParseFloat_none float_succ_none
      zeroValue_basic convertOther_none no_hook no_hook Capture_none
      UnmarshalText_none [] in
  ∃ strct',
    setField_ex doc refField [] = Ok (strct', None)
    ∧ FieldByIndex strct' (field_Index refField)
      = Ok (VPtr (PtrTo intType) (Some (VInt intType 0))).
Proof.
  intros setField_ex.
  destruct (setField_pointer_hydrates 64 ParseInt_dec ParseUint_dec ParseFloat_none
              float_succ_none zeroValue_basic convertOther_none no_hook no_hook
              Capture_none UnmarshalText_none [] doc refField intType None
              eq_refl eq_refl) as (strct' & H1 & H2 & _).
  { vm_compute. repeat split; discriminate || reflexivity. }
  exists strct'. split; [exact H1 | exact H2].
Defined.

(** ["x"] captured into [Doc.Sub], a record, and into [Doc.Ch], a
    channel: both calls fail and the record is as it was. *)
Lemma setField_rejects_other_kinds_witness :
  let setField_ex :=
    setField 64 ParseInt_dec ParseUint_dec ParseFloat_none float_succ_none
      zeroValue_basic convertOther_none no_hook no_hook Capture_none
      UnmarshalText_none [] in
  setField_ex doc subField [ValueOf_string "x"]
  = Ok (doc,
        Some (ParseError (MsgDecorated "Doc.Sub" (MsgNotCorrectType "x" "Flags"))
                (mkPosition "" 0 0 0)))
  ∧ setField_ex doc chField [ValueOf_string "x"]
    = Ok (doc,
          Some (ParseError
                  (MsgDecorated "Doc.Ch" (MsgUnsupportedFieldType "chan int" "Ch"))
                  (mkPosition "" 0 0 0))).
Proof.
  intros setField_ex. split.
  - apply (setField_rejects_other_kinds 64 ParseInt_dec ParseUint_dec ParseFloat_none
             float_succ_none zeroValue_basic convertOther_none no_hook no_hook
             Capture_none UnmarshalText_none [] doc
             (VStruct flagsType true [VInt intType 0]) subField "x" []);
      try reflexivity; vm_compute; repeat split; discriminate || reflexivity.
  - apply (setField_rejects_other_kinds 64 ParseInt_dec ParseUint_dec ParseFloat_none
             float_succ_none zeroValue_basic convertOther_none no_hook no_hook
             Capture_none UnmarshalText_none [] doc
             (VOpaque chanType true 0) chField "x" []);
      try reflexivity; vm_compute; repeat split; discriminate || reflexivity.
Defined.

(** ["7"], ["8"] conformed to [int]: two numbers for two strings. *)
Lemma conform_all_or_nothing_witness :
  let conform_ex :=
    conform 64 ParseInt_dec ParseUint_dec ParseFloat_none convertOther_none in
  conform_ex intType [ValueOf_string "7"; ValueOf_string "8"]
  = Ok ([VInt intType 7; VInt intType 8], None)
  ∧ length [VInt intType 7; VInt intType 8]
    = length [ValueOf_string "7"; ValueOf_string "8"].
Proof.
  intros conform_ex.
  assert (Hc : conform_ex intType [ValueOf_string "7"; ValueOf_string "8"]
               = Ok ([VInt intType 7; VInt intType 8], None)).
  { vm_compute. reflexivity. }
  split; [exact Hc|].
  refine (proj1 (conform_all_or_nothing 64 ParseInt_dec ParseUint_dec ParseFloat_none
                   convertOther_none intType
                   [ValueOf_string "7"; ValueOf_string "8"]
                   [VInt intType 7; VInt intType 8] None _ Hc)).
  vm_compute. discriminate.
Defined.

(** A pointer to an [int], then two numbers that cannot be addressed,
    conformed to [*int]: the pointer alone is returned, without error. *)
Lemma conform_pointer_drops_rest_witness :
  let conform_ex :=
    conform 64 ParseInt_dec ParseUint_dec ParseFloat_none convertOther_none in
  let ptr := VPtr (PtrTo intType) (Some (VInt intType 1)) in
  conform_ex (PtrTo intType) [ptr; VInt intType 2; VInt intType 3] = Ok ([ptr], None).
Proof.
  intros conform_ex ptr.
  apply (conform_pointer_drops_rest 64 ParseInt_dec ParseUint_dec ParseFloat_none
           convertOther_none (PtrTo intType) [ptr] (VInt intType 2) [VInt intType 3]).
  - reflexivity.
  - by repeat constructor.
  - vm_compute. discriminate.
  - reflexivity.
Defined.

(** [@Ident] for [Flags.Count] after [if] on ["if x"]: the capture
    defers ["x"] with the blank and [x], the tokens it has passed. *)
Lemma capture_Parse_defers_range_witness :
  let c := mkCapture countField (ident (-1)) in
  let ctx := context_on (lexer_on (toks_if_x (-1)) (mkCheckpoint 1 2 1)) 1000 in
  let ctx1 := context_on (lexer_on (toks_if_x (-1)) (mkCheckpoint 3 3 2)) 1000 in
  capture_Parse c ctx flags
  = Ok (Some [flags], None,
        Defer ctx1 [tok Whitespace " " 2; tok Ident "x" 3] flags countField
          [ValueOf_string "x"]).
Proof.
  intros c ctx ctx1.
  pose proof (capture_Parse_defers_range (-1) c ctx ctx1 flags
                (Some [ValueOf_string "x"]) None) as H.
  cbv zeta in H.
  destruct H as [(toks & HR & _ & _ & HC) _].
  - split; [exact toks_if_x_ends_with_EOF | exact lexer_inv_if_x_blank].
  - exact (reference_node_ok (-1) (mkReference Ident "Ident") "Ident").
  - vm_compute. reflexivity.
  - vm_compute in HR. injection HR as <-. exact HC.
Defined.
